(** * EE595P: Bernoulli traffic source and delay decomposition

    A shallow embedding of
    - [examples/single-bss-sld.cc]: the post-run delay analytics of [main]
      (head-of-line series, per-bucket totals and means, per-link
      aggregation), in module [DelayDecomposition], and the set-up
      arithmetic of [main] (contention windows, beacon interval, the
      clients it builds), in module [SingleBssSetup];
    - [model/bernoulli_packet_socket_client.cc]: the packet socket client
      ([StartApplication], [StopApplication], [Send]) together with the
      scheduler and socket contracts it relies on, in module
      [BernoulliClient].

    Numbers.  In the analytics a C++ [double] is modelled without
    rounding: a finite double is an exact rational ([Q]), the special
    values (infinities, NaN) are kept as constructors, and every definition
    computes.  In the client and in the set-up arithmetic a finite double
    is a real number and every operation rounds its exact result to
    binary64, to nearest with ties to even (module [Binary64]); [std::log]
    belongs to the C library and is a parameter of the client. *)

From Stdlib Require Import ZArith QArith Qminmax Qround List Bool Lia.
From Stdlib Require Import Reals Lra.
Import ListNotations.

(** ** Delay decomposition ([single-bss-sld.cc], lines 686-901) *)

Module DelayDecomposition.

Local Open Scope Q_scope.

(** *** Doubles that leave the finite range *)

Inductive double : Type :=
| Fin (q : Q)
| PInf
| NInf
| NaN.

(** The IEEE 754 status flags a division can raise.  They are sticky and
    nobody reads them here: a raised flag is the only trace a division by
    zero leaves behind. *)
Record fenv : Type := mkFenv { fe_invalid : bool; fe_divbyzero : bool }.

Definition fe_clear : fenv := mkFenv false false.

Definition Qis_zero (q : Q) : bool := (Qnum q =? 0)%Z.
Definition Qis_neg (q : Q) : bool := (Qnum q <? 0)%Z.

(** [a / b] on finite operands.  Every divisor in this program is a
    converted unsigned count, so a zero divisor is [+0]. *)
Definition ddiv (a b : Q) : double * fenv :=
  if Qis_zero b then
    if Qis_zero a then (NaN, mkFenv true false)
    else if Qis_neg a then (NInf, mkFenv false true)
    else (PInf, mkFenv false true)
  else (Fin (a / b), fe_clear).

(** Equality of doubles up to the representation of the fraction. *)
Definition deqv (x y : double) : Prop :=
  match x, y with
  | Fin a, Fin b => a == b
  | PInf, PInf | NInf, NInf | NaN, NaN => True
  | _, _ => False
  end.

Definition is_finite (x : double) : bool :=
  match x with Fin _ => true | _ => false end.

(** [std::max(a, b)] is [(a < b) ? b : a]. *)
Definition std_max (a b : Q) : Q := if Qlt_le_dec a b then b else a.

(** Unsigned 64-bit wrap-around, for the success counters of the
    transmission statistics helper (its header is not among the sources;
    the counters are taken to be [uint64_t]). *)
Definition u64 (z : Z) : Z := (z mod 2 ^ 64)%Z.

(** *** Records and maps *)

(** One successfully delivered packet, as the statistics helper reports it. *)
Record TxRecord : Type := mkTxRecord {
  m_enqueueMs : Q;
  m_dequeueMs : Q;
  m_failures : Z
}.

(** [std::map<uint32_t, std::map<uint8_t, A>>], as its entries in key
    order. *)
Definition LinkMap (A : Type) : Type := list (Z * A).
Definition NodeLinkMap (A : Type) : Type := list (Z * LinkMap A).

(** [m[i]] on a node map: the entry of key [i], or a fresh empty one. *)
Fixpoint at_node {A : Type} (m : NodeLinkMap A) (i : Z) : LinkMap A :=
  match m with
  | [] => []
  | (k, v) :: m' => if (k =? i)%Z then v else at_node m' i
  end.

Definition map_buckets {A B : Type} (f : A -> B) (m : NodeLinkMap A)
  : NodeLinkMap B :=
  map (fun nl => (fst nl, map (fun lb => (fst lb, f (snd lb))) (snd nl))) m.

(** *** Lines 696-729: the three series of one (node, link) bucket *)

Definition enqueueTimes (recs : list TxRecord) : list Q := map m_enqueueMs recs.
Definition dequeueTimes (recs : list TxRecord) : list Q := map m_dequeueMs recs.

(** The body of the loop at lines 705-720, at index [i]. *)
Definition holTimeAt (enq deq : list Q) (i : nat) : Q :=
  if (i =? 0)%nat then nth i enq 0
  else std_max (nth i enq 0) (nth (i - 1) deq 0).

Definition holTimes (enq deq : list Q) : list Q :=
  map (holTimeAt enq deq) (seq 0 (length enq)).

(** [v.erase(v.begin())]; undefined on an empty vector. *)
Definition erase_begin {A : Type} (v : list A) : option (list A) :=
  match v with
  | [] => None
  | _ :: v' => Some v'
  end.

Record Series : Type := mkSeries {
  s_enqueue : list Q;
  s_dequeue : list Q;
  s_hol : list Q
}.

Definition buildSeries (recs : list TxRecord) : option Series :=
  let enq := enqueueTimes recs in
  let deq := dequeueTimes recs in
  let hol := holTimes enq deq in
  match erase_begin enq, erase_begin deq, erase_begin hol with
  | Some enq', Some deq', Some hol' => Some (mkSeries enq' deq' hol')
  | _, _, _ => None
  end.

(** *** Lines 742-768: totals and means of one bucket *)

Record Totals : Type := mkTotals {
  totalQueuingDelay : Q;
  totalAccessDelay : Q;
  accessDelays : list Q;
  e2eDelays : list Q
}.

Definition totals0 : Totals := mkTotals 0 0 [] [].

(** The body of the loop at lines 746-760, at index [i]. *)
Definition accumulateAt (s : Series) (t : Totals) (i : nat) : Totals :=
  let enq := nth i (s_enqueue s) 0 in
  let deq := nth i (s_dequeue s) 0 in
  let hol := nth i (s_hol s) 0 in
  mkTotals (totalQueuingDelay t + (hol - enq))
           (totalAccessDelay t + (deq - hol))
           (accessDelays t ++ [deq - hol])
           (e2eDelays t ++ [deq - enq]).

Definition accumulate (s : Series) : Totals :=
  fold_left (accumulateAt s) (seq 0 (length (s_enqueue s))) totals0.

(** [total / (numSuccess - 1)], lines 761-766: the counter is unsigned,
    the subtraction wraps, the quotient is a double. *)
Definition meanDelay (total : Q) (numSuccess : Z) : double * fenv :=
  ddiv total (inject_Z (u64 (numSuccess - 1))).

Record BucketStats : Type := mkBucketStats {
  b_totals : Totals;
  meanQueuingDelay : double * fenv;
  meanAccessDelay : double * fenv
}.

Definition processBucket (recs : list TxRecord) (numSuccess : Z)
  : option BucketStats :=
  match buildSeries recs with
  | None => None
  | Some s =>
      let t := accumulate s in
      Some (mkBucketStats t
              (meanDelay (totalQueuingDelay t) numSuccess)
              (meanDelay (totalAccessDelay t) numSuccess))
  end.

(** *** Lines 811-880: per-link aggregation over a range of nodes *)

(** Nodes [1 .. n]: the loop [for (i = 1; i < 1 + n; ++i)]. *)
Definition sldNodes (n : nat) : list Z := map Z.of_nat (seq 1 n).

(** Lines 814-825: one success per record of every link of every node. *)
Definition numSldSuccess (successInfo : NodeLinkMap (list TxRecord)) (n : nat)
  : Z :=
  fold_left
    (fun acc i =>
       fold_left
         (fun acc' records =>
            fold_left (fun acc'' _ => (acc'' + 1)%Z) (snd records) acc')
         (at_node successInfo i) acc)
    (sldNodes n) 0%Z.

(** Lines 852-864: the per-bucket totals of every link of every node. *)
Definition sldDelayTotal (totalPerNodeLink : NodeLinkMap Q) (n : nat) : Q :=
  fold_left
    (fun acc i =>
       fold_left (fun acc' item => acc' + snd item)
                 (at_node totalPerNodeLink i) acc)
    (sldNodes n) 0.

(** The total maps that lines 742-768 leave behind.  Keys of a [std::map]
    are unique, so each bucket is visited once and its entry is the total
    of its own trimmed series.  An empty bucket has no defined series; it
    is given the total of a map entry that was never added to. *)
Definition bucketTotals (recs : list TxRecord) : Totals :=
  match buildSeries recs with
  | Some s => accumulate s
  | None => totals0
  end.

Definition totalQueuingDelayPerNodeLink
  (successInfo : NodeLinkMap (list TxRecord)) : NodeLinkMap Q :=
  map_buckets (fun recs => totalQueuingDelay (bucketTotals recs)) successInfo.

Definition totalAccessDelayPerNodeLink
  (successInfo : NodeLinkMap (list TxRecord)) : NodeLinkMap Q :=
  map_buckets (fun recs => totalAccessDelay (bucketTotals recs)) successInfo.

(** Lines 879-880. *)
Definition sldMeanQueDelayLink1
  (successInfo : NodeLinkMap (list TxRecord)) (nSldLink1Sta : nat)
  : double * fenv :=
  ddiv (sldDelayTotal (totalQueuingDelayPerNodeLink successInfo) nSldLink1Sta)
       (inject_Z (numSldSuccess successInfo nSldLink1Sta)).

Definition sldMeanAccDelayLink1
  (successInfo : NodeLinkMap (list TxRecord)) (nSldLink1Sta : nat)
  : double * fenv :=
  ddiv (sldDelayTotal (totalAccessDelayPerNodeLink successInfo) nSldLink1Sta)
       (inject_Z (numSldSuccess successInfo nSldLink1Sta)).

(** *** The quantities the statements are phrased with *)

Definition Qsum (l : list Q) : Q := fold_right Qplus 0 l.

Definition Zsum (l : list Z) : Z := fold_right Z.add 0%Z l.

Fixpoint zipWith {A B C : Type} (f : A -> B -> C) (l1 : list A) (l2 : list B)
  : list C :=
  match l1, l2 with
  | a :: l1', b :: l2' => f a b :: zipWith f l1' l2'
  | _, _ => []
  end.

(** The (node, link) buckets of nodes [1 .. n], in the order the loops
    visit them. *)
Definition groupBuckets (successInfo : NodeLinkMap (list TxRecord)) (n : nat)
  : list (list TxRecord) :=
  flat_map (fun i => map snd (at_node successInfo i)) (sldNodes n).

Definition successCountOf (recs : list TxRecord) : Z := Z.of_nat (length recs).

(** A [std::map] of buckets as the statistics helper fills it: no key
    twice, and no bucket without a record. *)
Definition wellFormedInfo (successInfo : NodeLinkMap (list TxRecord)) : Prop :=
  NoDup (map fst successInfo) /\
  Forall (fun nl =>
            NoDup (map fst (snd nl)) /\
            Forall (fun lb => snd lb <> []) (snd nl))
         successInfo.

(** The aggregation the code does not use: the plain average of the
    per-bucket mean queuing delays [total / (successCount - 1)]. *)
Definition meanOfBucketMeans (buckets : list (list TxRecord)) : Q :=
  Qsum (map (fun recs => totalQueuingDelay (bucketTotals recs)
                         / inject_Z (successCountOf recs - 1)) buckets)
  / inject_Z (Z.of_nat (length buckets)).

(** What the spec asks of a guarded implementation: an explicit
    "undefined" when fewer than two deliveries were counted. *)
Inductive GuardedMean : Type :=
| UndefinedMean
| DefinedMean (q : Q).

Definition guardedMean (total : Q) (successCount : Z) : GuardedMean :=
  if (successCount <=? 1)%Z then UndefinedMean
  else DefinedMean (total / inject_Z (successCount - 1)).

(** An explicit "undefined": the NaN a guard would write, no division by
    zero having been executed (no status flag raised). *)
Definition surfacedAsUndefined (r : double * fenv) : Prop :=
  fst r = NaN /\ snd r = fe_clear.

(** *** Sample traces *)

(** Enqueue times 0, 1, 5 and dequeue times 2, 6, 9 (ms). *)
Definition sampleBucket : list TxRecord :=
  [mkTxRecord 0 2 0; mkTxRecord 1 6 0; mkTxRecord 5 9 0].

(** A single delivery. *)
Definition loneBucket : list TxRecord := [mkTxRecord 0 2 0].

(** [count] packets, one enqueued every millisecond, each leaving [stay]
    after its enqueue time. *)
Definition steadyBucket (count : nat) (stay : Q) : list TxRecord :=
  map (fun i => let t := inject_Z (Z.of_nat i) in mkTxRecord t (t + stay) 0)
      (seq 0 count).

(** Node 1 with 5 deliveries and a queuing total of 10, node 2 with 15
    deliveries and a queuing total of 30. *)
Definition sampleInfo : NodeLinkMap (list TxRecord) :=
  [(1%Z, [(0%Z, steadyBucket 5 (7 # 2))]);
   (2%Z, [(0%Z, steadyBucket 15 (22 # 7))])].

(** *** Lines 811-846 and 901: the other fields of the summary line *)

(** Lines 814-825, the attempts: one plus the failures of every record of
    every link of every node; the accumulator is an unsigned 64-bit
    counter.  The width of [m_failures] is declared in the helper's header;
    the statements about attempts take failures in [failuresInRange],
    where [1 + m_failures] wraps at no width from 32 bits on. *)
Definition numSldAttempts (successInfo : NodeLinkMap (list TxRecord)) (n : nat)
  : Z :=
  fold_left
    (fun acc i =>
       fold_left
         (fun acc' records =>
            fold_left (fun acc'' pkt => u64 (acc'' + (1 + m_failures pkt))%Z)
                      (snd records) acc')
         (at_node successInfo i) acc)
    (sldNodes n) 0%Z.

(** Lines 839-840. *)
Definition sldLink1SuccPr
  (successInfo : NodeLinkMap (list TxRecord)) (nSldLink1Sta : nat)
  : double * fenv :=
  ddiv (inject_Z (numSldSuccess successInfo nSldLink1Sta))
       (inject_Z (numSldAttempts successInfo nSldLink1Sta)).



(** The attempts a bucket stands for. *)
Definition attemptsOf (recs : list TxRecord) : Z :=
  Zsum (map (fun r => (1 + m_failures r)%Z) recs).

Definition failuresInRange (recs : list TxRecord) : Prop :=
  Forall (fun r => (0 <= m_failures r < 2 ^ 32 - 1)%Z) recs.

(** Every record leaves the queue no earlier than it entered it, and no
    earlier than its predecessor left. *)
Definition orderedBucket (recs : list TxRecord) : Prop :=
  Forall (fun r => m_enqueueMs r <= m_dequeueMs r) recs /\
  forall i, (S i < length recs)%nat ->
            nth i (dequeueTimes recs) 0 <= nth (S i) (dequeueTimes recs) 0.

(** A bucket with a retransmitted packet, and a map that holds it. *)
Definition retriedBucket : list TxRecord :=
  [mkTxRecord 0 2 0; mkTxRecord 1 6 2; mkTxRecord 5 9 1].

Definition retriedInfo : NodeLinkMap (list TxRecord) :=
  [(1%Z, [(0%Z, retriedBucket)])].

End DelayDecomposition.

(** ** Doubles

    The doubles of the client and of the set-up arithmetic: real numbers
    rounded to binary64. *)

Module Binary64.

Local Open Scope Z_scope.

(** A double is a real number, an infinity or a NaN; the sign of a zero is
    not kept. *)
Inductive double : Type :=
| Fin (x : R)
| PInf
| NInf
| NaN.

(** Rounding to binary64, to nearest with ties to even: [mag x] is the
    exponent of [x], [quantumExp x] the exponent of the last place at [x]
    (that of the subnormals below 2^-1022), [nearestEven] the whole number
    nearest to a real, the even one of two at equal distance. *)
Definition bpow (e : Z) : R := powerRZ 2 e.

Definition mag (x : R) : Z := Zfloor (ln (Rabs x) / ln 2).

Definition nearestEven (m : R) : Z :=
  let n := Zfloor m in
  match total_order_T (m - IZR n) (1 / 2) with
  | inleft (left _) => n
  | inleft (right _) => if Z.even n then n else n + 1
  | inright _ => n + 1
  end.

Definition quantumExp (x : R) : Z := Z.max (mag x) (-1022) - 52.

Definition roundFinite (x : R) : R :=
  (IZR (nearestEven (x / bpow (quantumExp x))) * bpow (quantumExp x))%R.

(** The double that an exact result [x] is rounded to; beyond the largest
    double it is an infinity. *)
Definition fpRound (x : R) : double :=
  let r := roundFinite x in
  if Rle_dec (bpow 1024) (Rabs r)
  then (if Rlt_dec 0 r then PInf else NInf)
  else Fin r.

End Binary64.

(** ** The Bernoulli packet socket client
       ([bernoulli_packet_socket_client.cc]) *)

Module BernoulliClient.

Export Binary64.
Local Open Scope Z_scope.

(** *** The operations on doubles of line 229 *)

(** [a - b] on finite doubles. *)
Definition dsub (a b : R) : double := fpRound (a - b).

(** [std::log] belongs to the C library: [log] is what it returns on a
    finite double, a parameter of the model; on the other doubles the
    standard fixes the result. *)
Definition dlog (log : R -> double) (a : double) : double :=
  match a with
  | Fin x => log x
  | PInf => PInf
  | _ => NaN
  end.

(** [a / b].  The only zero divisor the client can produce is
    [log(1) = +0], so a zero divisor is taken as [+0]. *)
Definition ddiv (a b : double) : double :=
  match a, b with
  | NaN, _ | _, NaN => NaN
  | Fin x, Fin y =>
      match total_order_T y 0 with
      | inleft (right _) =>
          match total_order_T x 0 with
          | inleft (left _) => NInf
          | inleft (right _) => NaN
          | inright _ => PInf
          end
      | _ => fpRound (x / y)
      end
  | Fin _, _ => Fin 0
  | PInf, Fin y => if Rlt_dec y 0 then NInf else PInf
  | NInf, Fin y => if Rlt_dec y 0 then PInf else NInf
  | _, _ => NaN
  end.

(** [std::floor]: the floor of a double is a double. *)
Definition dfloor (a : double) : double :=
  match a with
  | Fin x => Fin (IZR (Zfloor x))
  | _ => a
  end.

(** [a + 1]. *)
Definition dsucc (a : double) : double :=
  match a with
  | Fin x => fpRound (x + 1)
  | _ => a
  end.

(** [a > 0]. *)
Definition dpositive (a : double) : bool :=
  match a with
  | Fin x => if Rlt_dec 0 x then true else false
  | PInf => true
  | _ => false
  end.

(** [a < b] on finite doubles. *)
Definition Rltb (a b : R) : bool := if Rlt_dec a b then true else false.

(** *** Outcomes: assertions abort the run *)

Inductive Failure : Type :=
| PeerAddressNotSet       (* NS_ASSERT_MSG(m_peerAddressSet, ...) *)
| SendEventNotExpired     (* NS_ASSERT(m_sendEvent.IsExpired()) *)
| NullSocket              (* dereference of a null Ptr<Socket> *)
| BernoulliPrNotBelowOne  (* NS_ASSERT(m_bernoulliPr < 1) *)
| NumIntervalNotPositive  (* NS_ASSERT(numInterval > 0) *)
| IntervalNotFinite       (* a non-finite factor converted to a Time *)
| IntervalOutOfRange.     (* a factor or product outside the range of Time *)

Inductive Outcome (A : Type) : Type :=
| Done (a : A)
| Abort (f : Failure).

Arguments Done {A} a.
Arguments Abort {A} f.

Definition bind {A B : Type} (m : Outcome A) (k : A -> Outcome B) : Outcome B :=
  match m with
  | Done a => k a
  | Abort f => Abort f
  end.

Notation "x <- m ;; k" := (bind m (fun x => k))
  (at level 61, m at next level, right associativity).

Definition assert (b : bool) (f : Failure) : Outcome unit :=
  if b then Done tt else Abort f.

(** *** The collaborators, by their contracts *)

(** The transport (spec section 6: bind, connect, set priority, send,
    close): a priority tag, a closed flag, and the number of payloads
    handed to it so far. *)
Record Socket : Type := mkSocket {
  sk_priority : Z;
  sk_closed : bool;
  sk_sendCalls : nat
}.

(** A freshly created socket. *)
Definition newSocket : Socket := mkSocket 0 false 0.

(** The scheduler (spec section 6: schedule, cancel, now): the current
    time, the pending events in firing order, and the next event
    identifier.  Every pending event of this model is a [Send] of the one
    client. *)
Record SimEvent : Type := mkSimEvent { ev_ts : Z; ev_uid : Z }.

(** An [EventId]; [None] is the default-constructed one. *)
Definition EventId : Type := option Z.

Definition ev_before (a b : SimEvent) : bool :=
  (ev_ts a <? ev_ts b) || ((ev_ts a =? ev_ts b) && (ev_uid a <? ev_uid b)).

Fixpoint insertEvent (e : SimEvent) (q : list SimEvent) : list SimEvent :=
  match q with
  | [] => [e]
  | e' :: q' => if ev_before e e' then e :: q else e' :: insertEvent e q'
  end.

Definition removeEvent (id : EventId) (q : list SimEvent) : list SimEvent :=
  match id with
  | None => q
  | Some uid => filter (fun e => negb (ev_uid e =? uid)) q
  end.

Definition isPending (id : EventId) (q : list SimEvent) : bool :=
  match id with
  | None => false
  | Some uid => existsb (fun e => ev_uid e =? uid) q
  end.

(** What the client does to its collaborators, in order. *)
Inductive Call : Type :=
| SockBind
| SockConnect
| SockSetPriority (tid : Z)
| SockSetRecvCallback
| SockSend (size : Z) (priority : Z)
| SockClose
| TxTrace (size : Z)
| LogTx (size : Z) (now : Z)
| LogError (size : Z)
| SimScheduleNow (uid : Z)
| SimSchedule (delay : Z) (uid : Z)
| SimCancel (id : EventId).

Definition isSetPriority (c : Call) : bool :=
  match c with SockSetPriority _ => true | _ => false end.

Definition isSockSend (c : Call) : bool :=
  match c with SockSend _ _ => true | _ => false end.

(** *** Configuration and state *)

(** The attributes of [GetTypeId], the two uniform streams (the value of
    each successive draw), the result of each successive [Socket::Send]
    and the C library's [std::log] on finite doubles.  A [Time] is a whole
    number of ticks; integers are not bounded here. *)
Record Config : Type := mkConfig {
  m_maxPackets : Z;
  m_timeSlot : Z;
  m_bernoulliPr : R;
  m_size : Z;
  m_optionalTid : Z;
  m_optionalTidPr : R;
  uniformForInterval : nat -> R;
  uniformForTid : nat -> R;
  socketSendResult : nat -> Z;
  stdLog : R -> double
}.

(** Modelled from the spec: the header that declares the members is not
    among the sources.  [sentCount] is a "monotonic counter" and is kept
    unbounded; [pendingSendHandle] is [m_sendEvent]; the positions of the
    two streams count the draws made so far.  The scheduler's clock, queue
    and next identifier are carried along in the same record. *)
Record State : Type := mkState {
  m_priority : Z;
  m_sent : Z;
  m_socket : option Socket;
  m_sendEvent : EventId;
  m_peerAddressSet : bool;
  intervalDraws : nat;
  tidDraws : nat;
  now : Z;
  queue : list SimEvent;
  nextUid : Z
}.

Definition set_priority (v : Z) (s : State) : State :=
  mkState v (m_sent s) (m_socket s) (m_sendEvent s) (m_peerAddressSet s)
          (intervalDraws s) (tidDraws s) (now s) (queue s) (nextUid s).
Definition set_sent (v : Z) (s : State) : State :=
  mkState (m_priority s) v (m_socket s) (m_sendEvent s) (m_peerAddressSet s)
          (intervalDraws s) (tidDraws s) (now s) (queue s) (nextUid s).
Definition set_socket (v : option Socket) (s : State) : State :=
  mkState (m_priority s) (m_sent s) v (m_sendEvent s) (m_peerAddressSet s)
          (intervalDraws s) (tidDraws s) (now s) (queue s) (nextUid s).
Definition set_sendEvent (v : EventId) (s : State) : State :=
  mkState (m_priority s) (m_sent s) (m_socket s) v (m_peerAddressSet s)
          (intervalDraws s) (tidDraws s) (now s) (queue s) (nextUid s).
Definition set_peerAddressSet (v : bool) (s : State) : State :=
  mkState (m_priority s) (m_sent s) (m_socket s) (m_sendEvent s) v
          (intervalDraws s) (tidDraws s) (now s) (queue s) (nextUid s).
Definition set_intervalDraws (v : nat) (s : State) : State :=
  mkState (m_priority s) (m_sent s) (m_socket s) (m_sendEvent s)
          (m_peerAddressSet s) v (tidDraws s) (now s) (queue s) (nextUid s).
Definition set_tidDraws (v : nat) (s : State) : State :=
  mkState (m_priority s) (m_sent s) (m_socket s) (m_sendEvent s)
          (m_peerAddressSet s) (intervalDraws s) v (now s) (queue s) (nextUid s).
Definition set_now (v : Z) (s : State) : State :=
  mkState (m_priority s) (m_sent s) (m_socket s) (m_sendEvent s)
          (m_peerAddressSet s) (intervalDraws s) (tidDraws s) v (queue s)
          (nextUid s).
Definition set_queue (v : list SimEvent) (s : State) : State :=
  mkState (m_priority s) (m_sent s) (m_socket s) (m_sendEvent s)
          (m_peerAddressSet s) (intervalDraws s) (tidDraws s) (now s) v
          (nextUid s).
Definition set_nextUid (v : Z) (s : State) : State :=
  mkState (m_priority s) (m_sent s) (m_socket s) (m_sendEvent s)
          (m_peerAddressSet s) (intervalDraws s) (tidDraws s) (now s)
          (queue s) v.

(** The constructor: nothing sent, no socket, a default [EventId], no
    peer.  [priority] is the value of the [Priority] attribute. *)
Definition construct (priority : Z) : State :=
  mkState priority 0 None None false 0 0 0 [] 0.

(** *** Scheduler and socket primitives *)

(** [Simulator::Schedule(delay, ...)]: a new pending event at
    [now + delay]; returns its identifier. *)
Definition Schedule (delay : Z) (s : State) : EventId * State :=
  let uid := nextUid s in
  (Some uid,
   set_nextUid (uid + 1)
     (set_queue (insertEvent (mkSimEvent (now s + delay) uid) (queue s)) s)).

(** [Simulator::Cancel(id)]: the event no longer fires; nothing happens
    for an identifier that is not pending. *)
Definition Cancel (id : EventId) (s : State) : State :=
  set_queue (removeEvent id (queue s)) s.

(** [EventId::IsExpired()]. *)
Definition IsExpired (id : EventId) (s : State) : bool :=
  negb (isPending id (queue s)).

Definition sockSetPriority (tid : Z) (sk : Socket) : Socket :=
  mkSocket tid (sk_closed sk) (sk_sendCalls sk).

Definition sockClose (sk : Socket) : Socket :=
  mkSocket (sk_priority sk) true (sk_sendCalls sk).

Definition sockCountSend (sk : Socket) : Socket :=
  mkSocket (sk_priority sk) (sk_closed sk) (S (sk_sendCalls sk)).

(** *** The client's operations *)

(** [SetRemote], lines 122-128. *)
Definition SetRemote (s : State) : State := set_peerAddressSet true s.

(** [SetPriority], lines 137-145. *)
Definition SetPriority (priority : Z) (s : State) : State * list Call :=
  let s1 := set_priority priority s in
  match m_socket s1 with
  | Some sk =>
      (set_socket (Some (sockSetPriority priority sk)) s1,
       [SockSetPriority priority])
  | None => (s1, [])
  end.

(** [StartApplication], lines 153-175. *)
Definition StartApplication (s : State) : Outcome (State * list Call) :=
  _ <- assert (m_peerAddressSet s) PeerAddressNotSet ;;
  let '(sk, calls) :=
    match m_socket s with
    | None =>
        if m_priority s =? 0
        then (newSocket, [SockBind; SockConnect])
        else (sockSetPriority (m_priority s) newSocket,
              [SockBind; SockConnect; SockSetPriority (m_priority s)])
    | Some sk => (sk, [])
    end in
  let s1 := set_socket (Some sk) s in
  let '(id, s2) := Schedule 0 s1 in
  Done (set_sendEvent id s2,
        calls ++ [SockSetRecvCallback; SimScheduleNow (nextUid s)]).

(** [StopApplication], lines 177-183. *)
Definition StopApplication (s : State) : Outcome (State * list Call) :=
  let s1 := Cancel (m_sendEvent s) s in
  match m_socket s1 with
  | None => Abort NullSocket
  | Some sk =>
      Done (set_socket (Some (sockClose sk)) s1,
            [SimCancel (m_sendEvent s); SockClose])
  end.

(** Lines 196-209 of [Send]: the priority of the outgoing packet. *)
Definition choosePriority (cfg : Config) (s : State) (sk : Socket)
  : State * Socket * list Call :=
  if negb (m_optionalTid cfg =? m_priority s) then
    let v := uniformForTid cfg (tidDraws s) in
    let s1 := set_tidDraws (S (tidDraws s)) s in
    if Rltb v (m_optionalTidPr cfg)
    then (s1, sockSetPriority (m_optionalTid cfg) sk,
          [SockSetPriority (m_optionalTid cfg)])
    else (s1, sockSetPriority (m_priority s) sk,
          [SockSetPriority (m_priority s)])
  else (s, sk, []).

(** Line 229, the quotient [std::log(uniform) / std::log(1 - m_bernoulliPr)]:
    a rounded difference, two calls of the library and a rounded
    quotient. *)
Definition logQuotient (cfg : Config) (uniform : R) : double :=
  ddiv (stdLog cfg uniform)
       (dlog (stdLog cfg) (dsub 1 (m_bernoulliPr cfg))).

(** Line 229: [std::floor(std::log(uniform) / std::log(1 - m_bernoulliPr)) + 1]. *)
Definition numInterval (cfg : Config) (uniform : R) : double :=
  dsucc (dfloor (logQuotient cfg uniform)).

(** A value within the 64 bits of a [Time]. *)
Definition fitsTime (z : Z) : bool := (- 2 ^ 63 <? z) && (z <? 2 ^ 63).

(** Line 231: [numInterval * m_timeSlot].  The factor is a floor plus one,
    hence a whole number, so the product of the fixed-point conversion is
    exact as long as the factor and the product fit a [Time]; a non-finite
    factor has no defined conversion, and neither it nor a product out of
    range is followed further. *)
Definition scaleTime (factor : double) (t : Z) : Outcome Z :=
  match factor with
  | Fin x =>
      if fitsTime (Zfloor x) && fitsTime (Zfloor x * t)
      then Done (Zfloor x * t)
      else Abort IntervalOutOfRange
  | _ => Abort IntervalNotFinite
  end.

(** Lines 225-231 of [Send]: from the uniform sample to the interval. *)
Definition nextInterval (cfg : Config) (uniform : R) : Outcome Z :=
  _ <- assert (Rltb (m_bernoulliPr cfg) 1) BernoulliPrNotBelowOne ;;
  let n := numInterval cfg uniform in
  _ <- assert (dpositive n) NumIntervalNotPositive ;;
  scaleTime n (m_timeSlot cfg).

(** Lines 233-236 of [Send]. *)
Definition armNext (cfg : Config) (interval : Z) (s : State)
  : State * list Call :=
  if (m_sent s <? m_maxPackets cfg) || (m_maxPackets cfg =? 0) then
    let '(id, s1) := Schedule interval s in
    (set_sendEvent id s1, [SimSchedule interval (nextUid s)])
  else (s, []).

(** Lines 211-222 of [Send]: what is reported about the transmission. *)
Definition reportSend (cfg : Config) (s : State) (result : Z) : list Call :=
  if 0 <=? result
  then [TxTrace (m_size cfg); LogTx (m_size cfg) (now s)]
  else [LogError (m_size cfg)].

(** Lines 196-223 of [Send]: the priority is chosen, the packet is handed
    to the socket, the outcome is reported and the packet is counted. *)
Definition transmit (cfg : Config) (s : State) (sk : Socket)
  : State * list Call :=
  let '(s1, sk1, calls1) := choosePriority cfg s sk in
  let result := socketSendResult cfg (sk_sendCalls sk1) in
  (set_sent (m_sent s1 + 1) (set_socket (Some (sockCountSend sk1)) s1),
   calls1 ++ SockSend (m_size cfg) (sk_priority sk1)
          :: reportSend cfg s1 result).

(** [Send], lines 185-237. *)
Definition Send (cfg : Config) (s : State) : Outcome (State * list Call) :=
  _ <- assert (IsExpired (m_sendEvent s) s) SendEventNotExpired ;;
  match m_socket s with
  | None => Abort NullSocket
  | Some sk =>
      let '(s2, calls) := transmit cfg s sk in
      let uniform := uniformForInterval cfg (intervalDraws s2) in
      let s3 := set_intervalDraws (S (intervalDraws s2)) s2 in
      interval <- nextInterval cfg uniform ;;
      let '(s4, calls') := armNext cfg interval s3 in
      Done (s4, calls ++ calls')
  end.

(** *** The scheduler's loop and the life of the application *)

(** One turn of [Simulator::Run]: the earliest pending event is removed,
    the clock moves to its time, and it fires.  With nothing pending the
    loop has ended and nothing happens. *)
Definition processOneEvent (cfg : Config) (s : State)
  : Outcome (State * list Call) :=
  match queue s with
  | [] => Done (s, [])
  | e :: q => Send cfg (set_now (ev_ts e) (set_queue q s))
  end.

Inductive Op : Type :=
| OpStart
| OpEvent
| OpStop.

Definition perform (cfg : Config) (op : Op) (s : State)
  : Outcome (State * list Call) :=
  match op with
  | OpStart => StartApplication s
  | OpEvent => processOneEvent cfg s
  | OpStop => StopApplication s
  end.

Fixpoint exec (cfg : Config) (ops : list Op) (s : State)
  : Outcome (State * list Call) :=
  match ops with
  | [] => Done (s, [])
  | op :: ops' =>
      r <- perform cfg op s ;;
      r' <- exec cfg ops' (fst r) ;;
      Done (fst r', snd r ++ snd r')
  end.

(** The states of the spec's life cycle, read off the socket: none yet,
    open, closed. *)
Inductive Lifecycle : Type :=
| Idle
| Running
| Stopped.

Definition lifecycle (s : State) : Lifecycle :=
  match m_socket s with
  | None => Idle
  | Some sk => if sk_closed sk then Stopped else Running
  end.

(** At most one [Send] is pending, and [m_sendEvent] names it. *)
Definition singlePending (s : State) : Prop :=
  queue s = [] \/
  exists e, queue s = [e] /\ m_sendEvent s = Some (ev_uid e).

(** The condition of line 233. *)
Definition mayRearm (cfg : Config) (s : State) : Prop :=
  m_maxPackets cfg = 0 \/ m_sent s < m_maxPackets cfg.

(** While the client runs: an open socket, and a pending [Send], the one
    [m_sendEvent] names, exactly when line 233 allows another packet. *)
Definition runningInv (cfg : Config) (s : State) : Prop :=
  (exists sk, m_socket s = Some sk /\ sk_closed sk = false) /\
  (mayRearm cfg s ->
   exists e, queue s = [e] /\ m_sendEvent s = Some (ev_uid e)) /\
  (~ mayRearm cfg s -> queue s = []).

(** The socket, once there is one, carries the primary priority. *)
Definition socketTagged (s : State) : Prop :=
  forall sk, m_socket s = Some sk -> sk_priority sk = m_priority s.

Definition countCalls (f : Call -> bool) (calls : list Call) : nat :=
  length (filter f calls).

(** The priority tags of the packets handed to the socket. *)
Fixpoint sendPriorities (calls : list Call) : list Z :=
  match calls with
  | [] => []
  | SockSend _ priority :: calls' => priority :: sendPriorities calls'
  | _ :: calls' => sendPriorities calls'
  end.

(** The calls that only report the outcome of a transmission. *)
Definition isReport (c : Call) : bool :=
  match c with
  | TxTrace _ | LogTx _ _ | LogError _ => true
  | _ => false
  end.

Definition withoutReports (calls : list Call) : list Call :=
  filter (fun c => negb (isReport c)) calls.

(** The slot count that line 229 makes of a quotient. *)
Definition slotsOf (quotient : R) : Z := Zfloor quotient + 1.

(** A sample of the interval stream from which lines 225-231 get an
    interval: the quotient of line 229, as a double, is finite, not
    negative and at most 2^52, so that its floor plus one is exact, and the
    interval fits a [Time]. *)
Definition yieldsInterval (cfg : Config) (uniform : R) : Prop :=
  exists quotient,
    logQuotient cfg uniform = Fin quotient /\
    (0 <= quotient <= bpow 52)%R /\
    fitsTime (slotsOf quotient * m_timeSlot cfg) = true.

(** The probability is below 1 and every sample of the interval stream
    yields an interval. *)
Definition validDraws (cfg : Config) : Prop :=
  (m_bernoulliPr cfg < 1)%R /\
  forall n, yieldsInterval cfg (uniformForInterval cfg n).

(** The same configuration with other results of [Socket::Send]. *)
Definition withSendResult (f : nat -> Z) (cfg : Config) : Config :=
  mkConfig (m_maxPackets cfg) (m_timeSlot cfg) (m_bernoulliPr cfg)
           (m_size cfg) (m_optionalTid cfg) (m_optionalTidPr cfg)
           (uniformForInterval cfg) (uniformForTid cfg) f (stdLog cfg).

(** *** Sample runs *)

(** A logarithm for the sample runs: the real logarithm, rounded. *)
Definition sampleLog (x : R) : double :=
  match total_order_T 0 x with
  | inleft (left _) => fpRound (ln x)
  | inleft (right _) => NInf
  | inright _ => NaN
  end.

(** A 9 microsecond slot, probability one half, 1500-byte packets, every
    draw one half, every transmission accepted. *)
Definition sampleConfig (maxPackets optionalTid : Z) (optionalTidPr : R)
  : Config :=
  mkConfig maxPackets 9000 (1 / 2) 1500 optionalTid optionalTidPr
           (fun _ => (1 / 2)%R) (fun _ => (1 / 2)%R) (fun _ => 0) sampleLog.

(** The same with every transmission refused. *)
Definition refusedConfig (maxPackets : Z) : Config :=
  withSendResult (fun _ => -1) (sampleConfig maxPackets 0 0).

(** The client of priority 0 once [StartApplication] has run. *)
Definition startedState : State :=
  mkState 0 0 (Some newSocket) (Some 0) true 0 0 0 [mkSimEvent 0 0] 1.

(** The same client at the moment its first [Send] fires. *)
Definition firingState : State :=
  mkState 0 0 (Some newSocket) (Some 0) true 0 0 0 [] 1.

(** *** The rest of the client's interface *)

(** [GetPriority], lines 147-151. *)
Definition GetPriority (s : State) : Z := m_priority s.

(** The checkers of [GetTypeId], lines 55-94: a value outside the range
    makes [SetAttribute] fail. *)
Definition checkUinteger (lo hi v : Z) : bool := (lo <=? v) && (v <=? hi).

Definition checkDouble (lo hi v : R) : bool :=
  if Rle_dec lo v then (if Rle_dec v hi then true else false) else false.

(** The defaults of [GetTypeId], with the collaborators' answers. *)
Definition defaultConfig (uniformI uniformT : nat -> R) (sendResult : nat -> Z)
  (log : R -> double) : Config :=
  mkConfig 100 9000 (1 / 2) 1024 0 0 uniformI uniformT sendResult log.

(** The number of packets the socket has been handed. *)
Definition socketSends (s : State) : nat :=
  match m_socket s with
  | Some sk => sk_sendCalls sk
  | None => 0%nat
  end.

(** The delays of the [Simulator::Schedule] calls, in order. *)
Fixpoint scheduleDelays (calls : list Call) : list Z :=
  match calls with
  | [] => []
  | SimSchedule delay _ :: calls' => delay :: scheduleDelays calls'
  | _ :: calls' => scheduleDelays calls'
  end.

Definition isSockBind (c : Call) : bool :=
  match c with SockBind => true | _ => false end.

Definition socketClosed (s : State) : Prop :=
  exists sk, m_socket s = Some sk /\ sk_closed sk = true.

(** The time of the pending [Send] when there is one, the current time
    when there is none. *)
Definition timeline (s : State) : Z :=
  match queue s with
  | e :: _ => ev_ts e
  | [] => now s
  end.

(** *** [GetBernoulliClient] and its use ([single-bss-sld.cc],
        lines 168-202 and 593-656) *)

(** [GetBernoulliClient].  [wifiAcList] gives the low and the high TID of
    an access category and [acUndef] is [AC_UNDEF]; both belong to the
    library and are taken as parameters, as are the streams, the socket's
    answers and [std::log].  A failed assertion, [at()] on a missing category
    and a refused attribute value all end the program: [None]. *)
Definition GetBernoulliClient
  (wifiAcList : Z -> option (Z * Z)) (acUndef : Z) (slotTime : Z)
  (uniformI uniformT : nat -> R) (sendResult : nat -> Z) (log : R -> double)
  (pktSize : Z) (prob : R) (link1Ac : Z) (optionalTid : bool) (link2Ac : Z)
  (optionalPr : R) : option (Config * State) :=
  if link1Ac =? acUndef then None
  else
    match wifiAcList link1Ac with
    | None => None
    | Some (lowTid, _) =>
        let optional :=
          if optionalTid && negb (link2Ac =? acUndef) then
            match wifiAcList link2Ac with
            | Some (_, highTid) => Some (highTid, optionalPr)
            | None => None
            end
          else Some (lowTid, 0%R) in
        match optional with
        | None => None
        | Some (tid, pr) =>
            if checkUinteger 0 (2 ^ 32 - 1) pktSize
               && checkDouble 0 1 prob
               && checkUinteger 0 255 lowTid
               && checkUinteger 0 7 tid
               && checkDouble 0 1 pr
            then
              Some (mkConfig 0 slotTime prob pktSize tid pr
                             uniformI uniformT sendResult log,
                    SetRemote (fst (SetPriority lowTid (construct 0))))
            else None
        end
    end.

(** Lines 596-610 and 647-654 of [main]: the client of station [i], of the
    first [nSldLink1Sta] stations or of the others. *)
Definition stationClient
  (wifiAcList : Z -> option (Z * Z)) (acUndef : Z) (slotTime : Z)
  (uniformI uniformT : nat -> R) (sendResult : nat -> Z) (log : R -> double)
  (payloadSize : Z) (nSldLink1Sta : nat)
  (sldLink1Ac sldLink2Ac : Z) (sldLink1PerNodeLambda sldLink2PerNodeLambda : R)
  (i : nat) : option (Config * State) :=
  if (i <? nSldLink1Sta)%nat
  then GetBernoulliClient wifiAcList acUndef slotTime uniformI uniformT
         sendResult log payloadSize sldLink1PerNodeLambda sldLink1Ac true
         sldLink1Ac 0
  else GetBernoulliClient wifiAcList acUndef slotTime uniformI uniformT
         sendResult log payloadSize sldLink2PerNodeLambda sldLink2Ac true
         sldLink2Ac 1.

(** A table of access categories with their low and high TIDs in the
    manner of the library's (four categories numbered 0 to 3), and a value
    for [AC_UNDEF]; used to instantiate the statements. *)
Definition sampleAcList (ac : Z) : option (Z * Z) :=
  if ac =? 0 then Some (0, 3)
  else if ac =? 1 then Some (1, 2)
  else if ac =? 2 then Some (4, 5)
  else if ac =? 3 then Some (6, 7)
  else None.

Definition sampleAcUndef : Z := 6.

(** The sent counter [n] turns of the scheduler after it stood at [sent]:
    one more per turn, up to [m_maxPackets] when that is not 0. *)
Definition sentAfter (cfg : Config) (sent : Z) (n : nat) : Z :=
  if m_maxPackets cfg =? 0 then sent + Z.of_nat n
  else Z.min (sent + Z.of_nat n) (m_maxPackets cfg).

(** A delay that is a whole, positive number of time slots. *)
Definition wholeSlots (cfg : Config) (delay : Z) : Prop :=
  exists k, 1 <= k /\ delay = k * m_timeSlot cfg.

End BernoulliClient.

(** ** Set-up arithmetic of [main] ([single-bss-sld.cc]) *)

Module SingleBssSetup.

Import Binary64.
Local Open Scope Z_scope.

(** The conversion of an unsigned integer to a double: exact below 2^53,
    and beyond that to the nearest multiple of the last place, the even
    one of two at equal distance. *)
Definition roundUnsigned (n : Z) : Z :=
  if n <? 2 ^ 53 then n
  else
    let e := Z.log2 n - 52 in
    let q := n / 2 ^ e in
    let r := n mod 2 ^ e in
    let half := 2 ^ (e - 1) in
    (if r <? half then q
     else if half <? r then q + 1
     else if Z.even q then q else q + 1) * 2 ^ e.

(** Lines 303-326, for one access category on one link:
    [cwmax = cwmin * pow(2, stage); cwmax -= 1; cwmin -= 1], [cwmin] and
    [cwmax] being unsigned 64-bit integers and [stage] an unsigned 8-bit
    one.  The product is formed in doubles: [cwmin] is converted, the
    power of two and the product, a scaling by it, are exact, and the
    conversion back is defined below 2^64.  The result is the pair of the
    adjusted [cwmin] and [cwmax]; values that are not of these types, and
    a product with no defined conversion, give nothing. *)
Definition cwBounds (cwmin stage : Z) : option (Z * Z) :=
  if (0 <=? cwmin) && (cwmin <? 2 ^ 64) && (0 <=? stage) && (stage <=? 255)
  then
    let product := roundUnsigned cwmin * 2 ^ stage in
    if product <? 2 ^ 64
    then Some (DelayDecomposition.u64 (cwmin - 1),
               DelayDecomposition.u64 (product - 1))
    else None
  else None.

(** Lines 446-448: the beacon interval in microseconds,
    [std::min<uint64_t>(ceil(simulationTime * 1000000 / 1024) * 1024,
    65535 * 1024)].  The product, the quotient and the second product are
    rounded to doubles; the conversion of the first argument to an
    unsigned integer is defined when it lies between 0 and 2^64. *)
Definition beaconInterval (simulationTime : R) : option Z :=
  match fpRound (simulationTime * 1000000) with
  | Fin microseconds =>
      match fpRound (microseconds / 1024) with
      | Fin units =>
          match fpRound (IZR (Zceil units) * 1024) with
          | Fin rounded =>
              let v := Zfloor rounded in
              if (0 <=? v) && (v <? 2 ^ 64)
              then Some (Z.min v (65535 * 1024))
              else None
          | _ => None
          end
      | _ => None
      end
  | _ => None
  end.

(** A simulation time that is a double, 0x1.3a92a30553262p-4 seconds:
    a little more than 76800 microseconds. *)
Definition shortSimulationTime : R :=
  (IZR 5534023222112866 / IZR (2 ^ 56))%R.

End SingleBssSetup.

(** ** Properties of the delay decomposition *)

Section DelayDecompositionFacts.

Import DelayDecomposition.
Local Open Scope Q_scope.

Lemma std_max_Qmax (a b : Q) : std_max a b = Qmax a b.
Proof.
  unfold std_max, Qmax, GenericMinMax.gmax.
  destruct (Qlt_le_dec a b) as [H|H]; destruct (a ?= b) eqn:E; try reflexivity.
  - apply Qeq_alt in E. rewrite E in H. exfalso. apply (Qlt_irrefl _ H).
  - apply Qgt_alt in E. exfalso. apply (Qlt_irrefl a). eapply Qlt_trans; eauto.
  - apply Qlt_alt in E. exfalso. apply (Qlt_not_le _ _ E H).
Qed.

Lemma holTimes_length (enq deq : list Q) :
  length (holTimes enq deq) = length enq.
Proof. unfold holTimes. now rewrite length_map, length_seq. Qed.

Lemma holTimes_nth (enq deq : list Q) (i : nat) :
  (i < length enq)%nat ->
  nth i (holTimes enq deq) 0 = holTimeAt enq deq i.
Proof.
  intros Hi. unfold holTimes.
  rewrite (nth_indep _ 0 (holTimeAt enq deq 0%nat))
    by now rewrite length_map, length_seq.
  rewrite map_nth, seq_nth by assumption. reflexivity.
Qed.

Lemma buildSeries_nonempty (recs : list TxRecord) :
  recs <> [] ->
  buildSeries recs =
    Some (mkSeries (tl (enqueueTimes recs)) (tl (dequeueTimes recs))
            (tl (holTimes (enqueueTimes recs) (dequeueTimes recs)))).
Proof.
  destruct recs as [|r recs]; [congruence|]. intros _. reflexivity.
Qed.

Lemma buildSeries_lengths (recs : list TxRecord) (s : Series) :
  buildSeries recs = Some s ->
  length (s_dequeue s) = length (s_enqueue s) /\
  length (s_hol s) = length (s_enqueue s).
Proof.
  destruct recs as [|r recs]; [discriminate|].
  unfold buildSeries, holTimes, enqueueTimes, dequeueTimes. cbn.
  intros [= <-]. cbn. now rewrite !length_map, length_seq.
Qed.

(** The accumulation loop, from any starting index. *)
Lemma accumulate_from (s : Series) (n a : nat) (t : Totals) :
  let t' := fold_left (accumulateAt s) (seq a n) t in
  totalQueuingDelay t' ==
    totalQueuingDelay t
    + Qsum (map (fun i => nth i (s_hol s) 0 - nth i (s_enqueue s) 0) (seq a n))
  /\
  totalAccessDelay t' ==
    totalAccessDelay t
    + Qsum (map (fun i => nth i (s_dequeue s) 0 - nth i (s_hol s) 0) (seq a n)).
Proof.
  revert a t. induction n as [|n IH]; intros a t; cbn.
  - split; ring.
  - destruct (IH (S a) (accumulateAt s t a)) as [Hq Ha].
    cbn in Hq, Ha. rewrite Hq, Ha. unfold Qsum. cbn. split; ring.
Qed.

Lemma pointwise_zipWith (l1 l2 : list Q) (n : nat) :
  length l1 = n -> length l2 = n ->
  map (fun i => nth i l1 0 - nth i l2 0) (seq 0 n) = zipWith Qminus l1 l2.
Proof.
  revert l2 n. induction l1 as [|x l1 IH]; intros [|y l2] n H1 H2; subst n;
    try discriminate; [reflexivity|].
  cbn [length seq map zipWith nth]. f_equal.
  rewrite <- seq_shift, map_map. cbn [nth]. apply IH; [reflexivity|].
  now injection H2.
Qed.

Lemma accumulate_sums (s : Series) :
  length (s_dequeue s) = length (s_enqueue s) ->
  length (s_hol s) = length (s_enqueue s) ->
  totalQueuingDelay (accumulate s) ==
    Qsum (zipWith Qminus (s_hol s) (s_enqueue s)) /\
  totalAccessDelay (accumulate s) ==
    Qsum (zipWith Qminus (s_dequeue s) (s_hol s)).
Proof.
  intros Hd Hh. unfold accumulate.
  destruct (accumulate_from s (length (s_enqueue s)) 0 totals0) as [Hq Ha].
  cbn in Hq, Ha.
  rewrite (pointwise_zipWith (s_hol s) (s_enqueue s)) in Hq by congruence.
  rewrite (pointwise_zipWith (s_dequeue s) (s_hol s)) in Ha by congruence.
  rewrite Hq, Ha. split; ring.
Qed.

Lemma Qis_zero_spec (q : Q) : Qis_zero q = true <-> q == 0.
Proof.
  unfold Qis_zero, Qeq. cbn. rewrite Z.eqb_eq. lia.
Qed.

Lemma Qis_zero_compat (a b : Q) : a == b -> Qis_zero a = Qis_zero b.
Proof.
  intros H. apply eq_true_iff_eq. rewrite !Qis_zero_spec. now rewrite H.
Qed.

Lemma Qis_neg_spec (q : Q) : Qis_neg q = true <-> q < 0.
Proof.
  unfold Qis_neg, Qlt. cbn. rewrite Z.ltb_lt. lia.
Qed.

Lemma Qis_neg_compat (a b : Q) : a == b -> Qis_neg a = Qis_neg b.
Proof.
  intros H. apply eq_true_iff_eq. rewrite !Qis_neg_spec. now rewrite H.
Qed.

(** Division respects the value of its operands. *)
Lemma ddiv_compat (a a' b b' : Q) :
  a == a' -> b == b' ->
  deqv (fst (ddiv a b)) (fst (ddiv a' b')) /\
  snd (ddiv a b) = snd (ddiv a' b').
Proof.
  intros Ha Hb. unfold ddiv.
  rewrite (Qis_zero_compat _ _ Ha), (Qis_zero_compat _ _ Hb),
    (Qis_neg_compat _ _ Ha).
  destruct (Qis_zero b'); [destruct (Qis_zero a'); [|destruct (Qis_neg a')]|];
    cbn; split; try easy.
  now rewrite Ha, Hb.
Qed.

Lemma ddiv_finite (a b : Q) :
  ~ b == 0 -> ddiv a b = (Fin (a / b), fe_clear).
Proof.
  intros Hb. unfold ddiv.
  destruct (Qis_zero b) eqn:E; [|reflexivity].
  apply Qis_zero_spec in E. contradiction.
Qed.

Lemma u64_small (z : Z) : (0 <= z < 2 ^ 64)%Z -> u64 z = z.
Proof. intros H. unfold u64. now apply Z.mod_small. Qed.

Lemma inject_Z_nonzero (z : Z) : z <> 0%Z -> ~ inject_Z z == 0.
Proof. unfold Qeq. cbn. lia. Qed.


Lemma count_records (A : Type) (l : list A) (a : Z) :
  fold_left (fun acc _ => (acc + 1)%Z) l a = (a + Z.of_nat (length l))%Z.
Proof.
  revert a. induction l as [|x l IH]; intros a; cbn [fold_left length].
  - lia.
  - rewrite IH. lia.
Qed.

Lemma count_links (links : LinkMap (list TxRecord)) (a : Z) :
  fold_left
    (fun acc' records =>
       fold_left (fun acc'' _ => (acc'' + 1)%Z) (snd records) acc')
    links a
  = (a + Zsum (map successCountOf (map snd links)))%Z.
Proof.
  revert a. induction links as [|l links IH]; intros a; cbn [fold_left map Zsum fold_right].
  - lia.
  - rewrite IH, count_records. unfold successCountOf, Zsum. lia.
Qed.

Lemma Zsum_app (l1 l2 : list Z) : Zsum (l1 ++ l2) = (Zsum l1 + Zsum l2)%Z.
Proof.
  unfold Zsum. induction l1 as [|x l1 IH]; cbn [app fold_right]; lia.
Qed.

Lemma Qsum_app (l1 l2 : list Q) : Qsum (l1 ++ l2) == Qsum l1 + Qsum l2.
Proof.
  unfold Qsum. induction l1 as [|x l1 IH]; cbn [app fold_right]; [ring|].
  rewrite IH. ring.
Qed.

Lemma numSldSuccess_sum (successInfo : NodeLinkMap (list TxRecord)) (n : nat) :
  numSldSuccess successInfo n =
  Zsum (map successCountOf (groupBuckets successInfo n)).
Proof.
  unfold numSldSuccess, groupBuckets.
  generalize (sldNodes n) as nodes. intros nodes.
  enough (H : forall a,
    fold_left
      (fun acc i =>
         fold_left
           (fun acc' records =>
              fold_left (fun acc'' _ => (acc'' + 1)%Z) (snd records) acc')
           (at_node successInfo i) acc) nodes a
    = (a + Zsum (map successCountOf
                   (flat_map (fun i => map snd (at_node successInfo i)) nodes)))%Z)
    by (rewrite H; lia).
  induction nodes as [|i nodes IH]; intros a; cbn [fold_left flat_map].
  - cbn. lia.
  - rewrite IH, count_links, map_app, Zsum_app. lia.
Qed.

Lemma sum_links (links : LinkMap Q) (a : Q) :
  fold_left (fun acc' item => acc' + snd item) links a
  == a + Qsum (map snd links).
Proof.
  revert a. induction links as [|l links IH]; intros a; cbn [fold_left map].
  - cbn. ring.
  - rewrite IH. unfold Qsum. cbn. ring.
Qed.

Lemma at_node_map_buckets (A B : Type) (f : A -> B) (m : NodeLinkMap A) (i : Z) :
  at_node (map_buckets f m) i =
  map (fun lb => (fst lb, f (snd lb))) (at_node m i).
Proof.
  induction m as [|[k v] m IH]; cbn; [reflexivity|].
  destruct (k =? i)%Z; [reflexivity|exact IH].
Qed.

Lemma sldDelayTotal_sum (f : list TxRecord -> Q)
  (successInfo : NodeLinkMap (list TxRecord)) (n : nat) :
  sldDelayTotal (map_buckets f successInfo) n ==
  Qsum (map f (groupBuckets successInfo n)).
Proof.
  unfold sldDelayTotal, groupBuckets.
  generalize (sldNodes n) as nodes. intros nodes.
  enough (H : forall a,
    fold_left
      (fun acc i =>
         fold_left (fun acc' item => acc' + snd item)
                   (at_node (map_buckets f successInfo) i) acc) nodes a
    == a + Qsum (map f (flat_map (fun i => map snd (at_node successInfo i)) nodes)))
    by (rewrite H; ring).
  induction nodes as [|i nodes IH]; intros a; cbn [fold_left flat_map].
  - cbn. ring.
  - rewrite IH, sum_links, map_app, Qsum_app, at_node_map_buckets, !map_map.
    cbn [snd]. ring.
Qed.

(** C1.  In every non-empty bucket the head-of-line series starts at the
    first enqueue time and continues with the later of the packet's enqueue
    time and its predecessor's dequeue time; the first element of the three
    series is dropped; and, for a success count in the counter's range and
    at least one, the mean queuing (access) delay is the sum over the
    trimmed series of head-of-line minus enqueue (dequeue minus
    head-of-line) divided by the success count minus one. *)
Theorem hol_series_and_bucket_means
  (recs : list TxRecord) (successCount : Z) :
  recs <> [] -> (1 <= successCount < 2 ^ 64)%Z ->
  let enq := enqueueTimes recs in
  let deq := dequeueTimes recs in
  let hol := holTimes enq deq in
  let sumQueuing := Qsum (zipWith Qminus (tl hol) (tl enq)) in
  let sumAccess := Qsum (zipWith Qminus (tl deq) (tl hol)) in
  let count := inject_Z (successCount - 1) in
  length hol = length recs /\
  nth 0 hol 0 = nth 0 enq 0 /\
  (forall i, (0 < i < length recs)%nat ->
     nth i hol 0 = Qmax (nth i enq 0) (nth (i - 1) deq 0)) /\
  buildSeries recs = Some (mkSeries (tl enq) (tl deq) (tl hol)) /\
  exists b,
    processBucket recs successCount = Some b /\
    deqv (fst (meanQueuingDelay b)) (fst (ddiv sumQueuing count)) /\
    deqv (fst (meanAccessDelay b)) (fst (ddiv sumAccess count)) /\
    ((2 <= successCount)%Z ->
     exists q a,
       fst (meanQueuingDelay b) = Fin q /\ q == sumQueuing / count /\
       fst (meanAccessDelay b) = Fin a /\ a == sumAccess / count).
Proof.
  intros Hne Hsc enq deq hol sumQueuing sumAccess count.
  assert (Hlen : length enq = length recs) by apply length_map.
  assert (Hpos : (0 < length recs)%nat)
    by (destruct recs; [congruence|cbn; lia]).
  split; [unfold hol; now rewrite holTimes_length|].
  split; [unfold hol; rewrite holTimes_nth by lia; reflexivity|].
  split.
  { intros i Hi. unfold hol. rewrite holTimes_nth by lia.
    unfold holTimeAt. destruct (Nat.eqb_spec i 0); [lia|].
    apply std_max_Qmax. }
  pose proof (buildSeries_nonempty recs Hne) as Hs.
  split; [exact Hs|].
  unfold processBucket. rewrite Hs.
  eexists. split; [reflexivity|]. cbn [meanQueuingDelay meanAccessDelay].
  destruct (buildSeries_lengths _ _ Hs) as [Hd Hh].
  destruct (accumulate_sums _ Hd Hh) as [Hq Ha].
  cbn [s_enqueue s_dequeue s_hol] in Hq, Ha.
  unfold meanDelay. rewrite u64_small by lia.
  split; [apply ddiv_compat; [exact Hq|reflexivity]|].
  split; [apply ddiv_compat; [exact Ha|reflexivity]|].
  intros H2.
  assert (Hnz : ~ inject_Z (successCount - 1) == 0)
    by (apply inject_Z_nonzero; lia).
  rewrite !ddiv_finite by exact Hnz. cbn [fst].
  eexists. eexists. split; [reflexivity|]. split.
  - unfold sumQueuing, count. now rewrite Hq.
  - split; [reflexivity|]. unfold sumAccess, count. now rewrite Ha.
Qed.

Lemma hol_series_and_bucket_means_witness :
  sampleBucket <> [] /\ (1 <= 3 < 2 ^ 64)%Z /\
  exists b,
    processBucket sampleBucket 3 = Some b /\
    deqv (fst (meanQueuingDelay b)) (Fin 1) /\
    deqv (fst (meanAccessDelay b)) (Fin (7 # 2)).
Proof.
  split; [discriminate|]. split; [lia|].
  destruct (hol_series_and_bucket_means sampleBucket 3) as (_ & _ & _ & _ & b & Hb & Hq & Ha & _);
    [discriminate|lia|].
  exists b. split; [exact Hb|].
  vm_compute in Hb. injection Hb as <-. split; reflexivity.
Defined.

Lemma sampleInfo_wellFormed : wellFormedInfo sampleInfo.
Proof.
  split.
  - repeat constructor; cbn; intuition discriminate.
  - repeat constructor; cbn; intuition discriminate.
Qed.

(** C2.  For a well-formed map of buckets, the per-link mean delay over
    the buckets of nodes [1 .. n] is the sum of the buckets' delay totals
    divided by the sum of the buckets' success counts.  On the sample,
    whose two buckets have totals 10 and 30 and success counts 5 and 15,
    it is 40 / 20 = 2, which the average of the two per-bucket means is
    not. *)
Theorem weighted_cross_flow_aggregation :
  (forall (successInfo : NodeLinkMap (list TxRecord)) (n : nat),
     wellFormedInfo successInfo ->
     let buckets := groupBuckets successInfo n in
     let sumQueuing :=
       Qsum (map (fun recs => totalQueuingDelay (bucketTotals recs)) buckets) in
     let sumAccess :=
       Qsum (map (fun recs => totalAccessDelay (bucketTotals recs)) buckets) in
     let sumCounts := inject_Z (Zsum (map successCountOf buckets)) in
     deqv (fst (sldMeanQueDelayLink1 successInfo n))
          (fst (ddiv sumQueuing sumCounts)) /\
     deqv (fst (sldMeanAccDelayLink1 successInfo n))
          (fst (ddiv sumAccess sumCounts))) /\
  Forall2 (fun recs tc =>
             totalQueuingDelay (bucketTotals recs) == fst tc /\
             successCountOf recs = snd tc)
          (groupBuckets sampleInfo 2) [(10, 5%Z); (30, 15%Z)] /\
  deqv (fst (sldMeanQueDelayLink1 sampleInfo 2)) (Fin (40 / 20)) /\
  40 / 20 == 2 /\
  ~ meanOfBucketMeans (groupBuckets sampleInfo 2) == 2.
Proof.
  split.
  { intros successInfo n _ buckets sumQueuing sumAccess sumCounts.
    unfold sldMeanQueDelayLink1, sldMeanAccDelayLink1,
      totalQueuingDelayPerNodeLink, totalAccessDelayPerNodeLink.
    rewrite numSldSuccess_sum.
    split; apply ddiv_compat; try reflexivity; apply sldDelayTotal_sum. }
  split.
  { repeat constructor; vm_compute; reflexivity. }
  split; [vm_compute; reflexivity|].
  split; [reflexivity|].
  vm_compute. discriminate.
Qed.

Lemma weighted_cross_flow_aggregation_witness :
  wellFormedInfo sampleInfo /\
  deqv (fst (sldMeanQueDelayLink1 sampleInfo 2))
       (fst (ddiv (Qsum (map (fun recs => totalQueuingDelay (bucketTotals recs))
                             (groupBuckets sampleInfo 2)))
                  (inject_Z (Zsum (map successCountOf (groupBuckets sampleInfo 2)))))).
Proof.
  split; [exact sampleInfo_wellFormed|].
  exact (proj1 (proj1 weighted_cross_flow_aggregation sampleInfo 2%nat
                  sampleInfo_wellFormed)).
Defined.

(** C8, as stated, fails: for the bucket of a single delivery with success
    count 1 the means are not an explicit "undefined"; they come out of the
    division 0 / 0, which raises the invalid-operation flag. *)
Lemma lone_delivery_mean_not_guarded :
  ~ (forall (recs : list TxRecord) (successCount : Z) (b : BucketStats),
       (successCount <= 1)%Z ->
       processBucket recs successCount = Some b ->
       surfacedAsUndefined (meanQueuingDelay b) /\
       surfacedAsUndefined (meanAccessDelay b)).
Proof.
  intros H.
  destruct (H loneBucket 1%Z _ ltac:(lia) eq_refl) as [[_ Hflags] _].
  vm_compute in Hflags. discriminate.
Qed.

(** C8, amended.  For every non-empty bucket with success count 1 the two
    means are computed, without a check and without a failure, by a
    division whose divisor is zero: a status flag is raised, the result is
    not finite, and with a single record it is the NaN of 0 / 0, where a
    guarded implementation would report "undefined". *)
Theorem lone_delivery_mean_divides_by_zero (recs : list TxRecord) :
  recs <> [] ->
  exists b,
    processBucket recs 1 = Some b /\
    inject_Z (u64 (1 - 1)) == 0 /\
    snd (meanQueuingDelay b) <> fe_clear /\
    snd (meanAccessDelay b) <> fe_clear /\
    is_finite (fst (meanQueuingDelay b)) = false /\
    is_finite (fst (meanAccessDelay b)) = false /\
    (length recs = 1%nat ->
     meanQueuingDelay b = (NaN, mkFenv true false) /\
     meanAccessDelay b = (NaN, mkFenv true false)) /\
    guardedMean (totalQueuingDelay (b_totals b)) 1 = UndefinedMean /\
    guardedMean (totalAccessDelay (b_totals b)) 1 = UndefinedMean.
Proof.
  intros Hne. unfold processBucket.
  rewrite (buildSeries_nonempty recs Hne).
  eexists. split; [reflexivity|].
  cbn [meanQueuingDelay meanAccessDelay b_totals].
  split; [reflexivity|].
  unfold meanDelay, ddiv. change (Qis_zero (inject_Z (u64 (1 - 1)))) with true.
  cbv iota.
  repeat split.
  - destruct (Qis_zero _); [|destruct (Qis_neg _)]; discriminate.
  - destruct (Qis_zero _); [|destruct (Qis_neg _)]; discriminate.
  - destruct (Qis_zero _); [|destruct (Qis_neg _)]; reflexivity.
  - destruct (Qis_zero _); [|destruct (Qis_neg _)]; reflexivity.
  - destruct recs as [|r [|r' recs]]; try discriminate. reflexivity.
  - destruct recs as [|r [|r' recs]]; try discriminate. reflexivity.
Qed.

Lemma lone_delivery_mean_divides_by_zero_witness :
  loneBucket <> [] /\
  exists b,
    processBucket loneBucket 1 = Some b /\
    meanQueuingDelay b = (NaN, mkFenv true false) /\
    meanAccessDelay b = (NaN, mkFenv true false).
Proof.
  split; [discriminate|].
  destruct (lone_delivery_mean_divides_by_zero loneBucket)
    as (b & Hb & _ & _ & _ & _ & _ & Hnan & _); [discriminate|].
  exists b. split; [exact Hb|]. apply Hnan. reflexivity.
Defined.
End DelayDecompositionFacts.

(** ** Rounding to a double *)

Section DoubleRoundingFacts.

Import BernoulliClient.
Local Open Scope R_scope.

Lemma bpow_pos (e : Z) : 0 < bpow e.
Proof. apply powerRZ_lt. lra. Qed.

Lemma bpow_add (a b : Z) : bpow (a + b) = bpow a * bpow b.
Proof. apply powerRZ_add. lra. Qed.

Lemma bpow_IZR (e : Z) : (0 <= e)%Z -> bpow e = IZR (2 ^ e).
Proof.
  intros He. unfold bpow.
  rewrite <- (Z2Nat.id e He) at 1. rewrite <- pow_powerRZ.
  rewrite <- (Z2Nat.id e He) at 2. now rewrite pow_IZR.
Qed.

Lemma bpow_0 : bpow 0 = 1.
Proof. reflexivity. Qed.

Lemma bpow_le (a b : Z) : (a <= b)%Z -> bpow a <= bpow b.
Proof.
  intros H. replace b with (a + (b - a))%Z by lia. rewrite bpow_add.
  rewrite (bpow_IZR (b - a)) by lia.
  assert (1 <= IZR (2 ^ (b - a))).
  { apply IZR_le. pose proof (Z.pow_pos_nonneg 2 (b - a)) as Hp. lia. }
  pose proof (bpow_pos a). nra.
Qed.

Lemma bpow_lt (a b : Z) : (a < b)%Z -> bpow a < bpow b.
Proof.
  intros H. replace b with (a + (b - a))%Z by lia. rewrite bpow_add.
  rewrite (bpow_IZR (b - a)) by lia.
  assert (2 <= IZR (2 ^ (b - a))).
  { apply IZR_le. replace (b - a)%Z with (Z.succ (b - a - 1)) by lia.
    rewrite Z.pow_succ_r by lia.
    pose proof (Z.pow_pos_nonneg 2 (b - a - 1)) as Hp. lia. }
  pose proof (bpow_pos a). nra.
Qed.

Lemma bpow_lt_inv (a b : Z) : bpow a < bpow b -> (a < b)%Z.
Proof.
  intros H. destruct (Z_lt_le_dec a b) as [|Hle]; [assumption|].
  apply bpow_le in Hle. lra.
Qed.

Lemma ln_2_pos : 0 < ln 2.
Proof. pose proof ln_lt_2. lra. Qed.

Lemma ln_bpow (e : Z) : ln (bpow e) = IZR e * ln 2.
Proof. unfold bpow. rewrite powerRZ_Rpower by lra. apply ln_Rpower. Qed.

Lemma ln_le_mono' (x y : R) : 0 < x -> x <= y -> ln x <= ln y.
Proof.
  intros Hx [Hlt| ->]; [|lra]. left. now apply ln_increasing.
Qed.

Lemma mag_bracket (x : R) :
  x <> 0 -> bpow (mag x) <= Rabs x < bpow (mag x + 1).
Proof.
  intros Hx. pose proof (Rabs_pos_lt x Hx) as Hy.
  pose proof ln_2_pos as H2.
  unfold mag. set (y := Rabs x) in *.
  destruct (Zfloor_bound (ln y / ln 2)) as [Hlo Hhi].
  set (e := Zfloor (ln y / ln 2)) in *.
  assert (Hlo' : IZR e * ln 2 <= ln y).
  { apply (Rmult_le_compat_r (ln 2)) in Hlo; [|lra].
    unfold Rdiv in Hlo. rewrite Rmult_assoc, Rinv_l in Hlo; lra. }
  assert (Hhi' : ln y < (IZR e + 1) * ln 2).
  { apply (Rmult_lt_compat_r (ln 2)) in Hhi; [|lra].
    unfold Rdiv in Hhi. rewrite Rmult_assoc, Rinv_l in Hhi; lra. }
  split.
  - destruct (Rle_lt_dec (bpow e) y) as [|Hc]; [assumption|exfalso].
    apply ln_increasing in Hc; [|assumption]. rewrite ln_bpow in Hc. lra.
  - destruct (Rle_lt_dec (bpow (e + 1)) y) as [Hc|]; [exfalso|assumption].
    apply ln_le_mono' in Hc; [|apply bpow_pos].
    rewrite ln_bpow, plus_IZR in Hc. lra.
Qed.

Lemma mag_unique (x : R) (e : Z) :
  bpow e <= Rabs x < bpow (e + 1) -> mag x = e.
Proof.
  intros [Hlo Hhi]. pose proof (bpow_pos e) as He.
  assert (Hx : x <> 0).
  { intros ->. rewrite Rabs_R0 in Hlo. lra. }
  destruct (mag_bracket x Hx) as [Mlo Mhi].
  assert (bpow (mag x) < bpow (e + 1)) by lra.
  assert (bpow e < bpow (mag x + 1)) by lra.
  pose proof (bpow_lt_inv _ _ H). pose proof (bpow_lt_inv _ _ H0). lia.
Qed.

(** nearestEven *)

Lemma nearestEven_floor (m : R) :
  (Zfloor m <= nearestEven m <= Zfloor m + 1)%Z.
Proof.
  unfold nearestEven.
  destruct (total_order_T _ _) as [[|]|]; [lia| |lia].
  destruct (Z.even _); lia.
Qed.

Lemma nearestEven_IZR (z : Z) : nearestEven (IZR z) = z.
Proof.
  unfold nearestEven. rewrite ZfloorZ.
  destruct (total_order_T _ _) as [[|]|]; [reflexivity|lra|lra].
Qed.

Lemma nearestEven_le (m : R) (N : Z) : m <= IZR N -> (nearestEven m <= N)%Z.
Proof.
  intros [Hlt| ->]; [|rewrite nearestEven_IZR; lia].
  pose proof (nearestEven_floor m) as [_ Hup].
  destruct (Zfloor_bound m) as [Hlo _].
  assert (IZR (Zfloor m) < IZR N) by lra.
  apply lt_IZR in H. lia.
Qed.

Lemma nearestEven_ge (m : R) (N : Z) : IZR N <= m -> (N <= nearestEven m)%Z.
Proof.
  intros H. pose proof (nearestEven_floor m) as [Hlo _].
  pose proof (Zfloor_lub N m H). lia.
Qed.

(** roundFinite *)

Lemma roundFinite_0 : roundFinite 0 = 0.
Proof.
  unfold roundFinite. unfold Rdiv. rewrite Rmult_0_l.
  rewrite (nearestEven_IZR 0). lra.
Qed.

Lemma IZR_bpow_scale (n : Z) (a c : Z) :
  (c <= a)%Z -> IZR n * bpow a / bpow c = IZR (n * 2 ^ (a - c)).
Proof.
  intros H. replace a with (c + (a - c))%Z at 1 by lia.
  rewrite bpow_add, (bpow_IZR (a - c)) by lia. rewrite mult_IZR.
  pose proof (bpow_pos c). field. lra.
Qed.

Lemma Zabs_log2_bracket (n : Z) :
  n <> 0%Z ->
  bpow (Z.log2 (Z.abs n)) <= Rabs (IZR n) < bpow (Z.log2 (Z.abs n) + 1).
Proof.
  intros Hn. rewrite <- abs_IZR.
  assert (Hpos : (0 < Z.abs n)%Z) by lia.
  destruct (Z.log2_spec _ Hpos) as [Hlo Hhi].
  pose proof (Z.log2_nonneg (Z.abs n)).
  rewrite !bpow_IZR by lia. split; [apply IZR_le|apply IZR_lt];
    [assumption|]. now rewrite Z.add_1_r.
Qed.

Lemma mag_scaled (n e : Z) :
  n <> 0%Z -> mag (IZR n * bpow e) = (Z.log2 (Z.abs n) + e)%Z.
Proof.
  intros Hn. apply mag_unique.
  destruct (Zabs_log2_bracket n Hn) as [Hlo Hhi].
  pose proof (bpow_pos e) as He.
  rewrite Rabs_mult, (Rabs_pos_eq (bpow e)) by lra.
  replace (Z.log2 (Z.abs n) + e + 1)%Z with ((Z.log2 (Z.abs n) + 1) + e)%Z by lia.
  rewrite (bpow_add (Z.log2 (Z.abs n) + 1) e), (bpow_add (Z.log2 (Z.abs n)) e).
  split.
  - apply Rmult_le_compat_r; [now left|exact Hlo].
  - apply Rmult_lt_compat_r; [exact He|exact Hhi].
Qed.

(** A value [n * 2^e] with [|n| < 2^53] and [e >= -1074] is a double. *)
Lemma roundFinite_exact (n e : Z) :
  (Z.abs n < 2 ^ 53)%Z -> (-1074 <= e)%Z ->
  roundFinite (IZR n * bpow e) = IZR n * bpow e.
Proof.
  intros Hn He.
  destruct (Z.eq_dec n 0) as [->|Hn0].
  - rewrite Rmult_0_l. apply roundFinite_0.
  - unfold roundFinite, quantumExp. rewrite (mag_scaled n e Hn0).
    set (c := (Z.max (Z.log2 (Z.abs n) + e) (-1022) - 52)%Z).
    assert (Hc : (c <= e)%Z).
    { assert (Z.log2 (Z.abs n) < 53)%Z by (apply Z.log2_lt_pow2; lia).
      unfold c. lia. }
    rewrite (IZR_bpow_scale n e c Hc), nearestEven_IZR, <- (IZR_bpow_scale n e c Hc).
    pose proof (bpow_pos c). field. lra.
Qed.

Lemma roundFinite_small_int (z : Z) :
  (Z.abs z < 2 ^ 53)%Z -> roundFinite (IZR z) = IZR z.
Proof.
  intros H. pose proof (roundFinite_exact z 0 H ltac:(lia)) as E.
  rewrite bpow_0, Rmult_1_r in E. exact E.
Qed.

Lemma roundFinite_bpow (e : Z) :
  (-1074 <= e)%Z -> roundFinite (bpow e) = bpow e.
Proof.
  intros H. pose proof (roundFinite_exact 1 e ltac:(cbn; lia) H) as E.
  rewrite Rmult_1_l in E. exact E.
Qed.

(** The double nearest to a whole number is a whole number. *)
Lemma roundFinite_integer (z : Z) : exists k : Z, roundFinite (IZR z) = IZR k.
Proof.
  destruct (Z_lt_le_dec (Z.abs z) (2 ^ 53)) as [Hs|Hb].
  - exists z. now apply roundFinite_small_int.
  - assert (Hz : IZR z <> 0).
    { apply not_0_IZR. assert (0 < 2 ^ 53)%Z by reflexivity. lia. }
    destruct (mag_bracket (IZR z) Hz) as [_ Hhi].
    assert (Hm : (53 <= mag (IZR z))%Z).
    { rewrite <- abs_IZR in Hhi.
      assert (bpow 53 < bpow (mag (IZR z) + 1)).
      { rewrite (bpow_IZR 53) by lia. apply IZR_le in Hb. lra. }
      apply bpow_lt_inv in H. lia. }
    unfold roundFinite, quantumExp.
    set (c := (Z.max (mag (IZR z)) (-1022) - 52)%Z).
    assert (Hc : (0 <= c)%Z) by (unfold c; lia).
    rewrite (bpow_IZR c Hc). rewrite <- mult_IZR. eauto.
Qed.

Lemma roundFinite_nonneg (x : R) : 0 <= x -> 0 <= roundFinite x.
Proof.
  intros Hx. unfold roundFinite.
  pose proof (bpow_pos (quantumExp x)) as Hb.
  assert (0 <= x / bpow (quantumExp x)).
  { unfold Rdiv. apply Rmult_le_pos; [assumption|].
    left. now apply Rinv_0_lt_compat. }
  pose proof (nearestEven_ge _ 0 H) as Hn. apply IZR_le in Hn. nra.
Qed.

Lemma roundFinite_le_bpow (x : R) (e : Z) :
  0 <= x <= bpow e -> (-1022 <= e)%Z -> roundFinite x <= bpow e.
Proof.
  intros [H0 Hx] He.
  destruct (Req_dec x 0) as [->|Hx0].
  - rewrite roundFinite_0. left. apply bpow_pos.
  - destruct (mag_bracket x Hx0) as [Hlo _].
    rewrite Rabs_pos_eq in Hlo by assumption.
    assert (Hm : (mag x <= e)%Z).
    { destruct (Z_le_gt_dec (mag x) e) as [|Hc]; [assumption|exfalso].
      assert (bpow e < bpow (mag x)) by (apply bpow_lt; lia). lra. }
    unfold roundFinite, quantumExp.
    set (c := (Z.max (mag x) (-1022) - 52)%Z).
    assert (Hc : (c <= e)%Z) by (unfold c; lia).
    pose proof (bpow_pos c) as Hb.
    assert (Hq : x / bpow c <= IZR (2 ^ (e - c))).
    { rewrite <- (bpow_IZR (e - c)) by lia.
      apply (Rmult_le_reg_r (bpow c)); [assumption|].
      rewrite <- bpow_add. replace (e - c + c)%Z with e by lia.
      unfold Rdiv. rewrite Rmult_assoc, Rinv_l by lra. lra. }
    apply nearestEven_le in Hq. apply IZR_le in Hq.
    rewrite <- (bpow_IZR (e - c)) in Hq by lia.
    assert (E : bpow e = bpow (e - c) * bpow c)
      by (rewrite <- bpow_add; f_equal; lia).
    rewrite E. apply Rmult_le_compat_r; [now left|exact Hq].
Qed.

Lemma bpow_neg (e : Z) : bpow (- e) = / bpow e.
Proof. unfold bpow. apply powerRZ_neg'. Qed.

Lemma bpow_neg_IZR (e : Z) : (0 <= e)%Z -> bpow (- e) = / IZR (2 ^ e).
Proof. intros H. now rewrite bpow_neg, bpow_IZR. Qed.

Lemma bpow_succ (e : Z) : bpow (e + 1) = 2 * bpow e.
Proof. rewrite bpow_add. change (bpow 1) with (2 * 1). lra. Qed.

Lemma bpow_53_facts :
  2 <= bpow 53 /\ bpow (-53) = / bpow 53 /\ bpow (-54) = / (2 * bpow 53) /\
  bpow (-1) = / 2 /\ bpow 53 = IZR (2 ^ 53).
Proof.
  split; [|split; [|split; [|split]]].
  - rewrite (bpow_IZR 53) by lia. apply IZR_le. cbn. lia.
  - apply (bpow_neg 53).
  - change (-54)%Z with (- (53 + 1))%Z. now rewrite bpow_neg, bpow_succ.
  - change (bpow (-1)) with (/ (2 * 1)). f_equal. lra.
  - apply bpow_IZR. lia.
Qed.

(** [1 - p] for a small [p]: at most half an ulp below 1, it rounds to 1. *)
Lemma roundFinite_one_minus_tiny (p : R) :
  0 <= p <= bpow (-54) -> roundFinite (1 - p) = 1.
Proof.
  intros [H0 Hp].
  destruct bpow_53_facts as (P53 & E53 & E54 & Em1 & EZ).
  set (B := bpow 53) in *.
  assert (Hp' : p * B <= / 2).
  { rewrite E54 in Hp.
    apply (Rmult_le_compat_r B) in Hp; [|lra].
    replace (/ (2 * B) * B) with (/ 2) in Hp by (field; lra). exact Hp. }
  destruct (Req_dec p 0) as [->|Hp0].
  - replace (1 - 0) with (IZR 1) by lra. apply roundFinite_small_int. cbn. lia.
  - assert (Hhalf : p <= / 2) by nra.
    assert (Hm : mag (1 - p) = (-1)%Z).
    { apply mag_unique. rewrite Rabs_pos_eq by lra.
      rewrite Em1. change (-1 + 1)%Z with 0%Z. rewrite bpow_0. lra. }
    unfold roundFinite, quantumExp. rewrite Hm.
    change (Z.max (-1) (-1022) - 52)%Z with (-53)%Z. rewrite E53.
    set (m := (1 - p) / / B).
    assert (Hmv : m = B - p * B) by (unfold m; field; lra).
    assert (Hfl : Zfloor m = (2 ^ 53 - 1)%Z).
    { apply Zfloor_eq. rewrite minus_IZR, <- EZ, Hmv. nra. }
    enough (Hn : nearestEven m = (2 ^ 53)%Z)
      by (rewrite Hn, <- EZ; field; lra).
    unfold nearestEven. rewrite Hfl.
    destruct (total_order_T _ _) as [[Hlt|Heq]|Hgt].
    + exfalso. rewrite minus_IZR, <- EZ, Hmv in Hlt. lra.
    + reflexivity.
    + reflexivity.
Qed.

(** Above half an ulp, [1 - p] stays below 1. *)
Lemma roundFinite_one_minus (p : R) :
  bpow (-54) < p <= 1 -> 0 <= roundFinite (1 - p) < 1.
Proof.
  intros [Hp H1].
  split; [apply roundFinite_nonneg; lra|].
  destruct bpow_53_facts as (P53 & E53 & E54 & Em1 & EZ).
  set (B := bpow 53) in *.
  assert (Hp' : / 2 < p * B).
  { rewrite E54 in Hp.
    apply (Rmult_lt_compat_r B) in Hp; [|lra].
    replace (/ (2 * B) * B) with (/ 2) in Hp by (field; lra). exact Hp. }
  assert (Hp0 : 0 < p) by nra.
  destruct (Rle_lt_dec (/ 2) (1 - p)) as [Hbig|Hsmall].
  - assert (Hm : mag (1 - p) = (-1)%Z).
    { apply mag_unique. rewrite Rabs_pos_eq by lra.
      rewrite Em1. change (-1 + 1)%Z with 0%Z. rewrite bpow_0. lra. }
    unfold roundFinite, quantumExp. rewrite Hm.
    change (Z.max (-1) (-1022) - 52)%Z with (-53)%Z. rewrite E53.
    set (m := (1 - p) / / B).
    assert (Hmv : m = B - p * B) by (unfold m; field; lra).
    enough (Hn : (nearestEven m <= 2 ^ 53 - 1)%Z).
    { apply IZR_le in Hn. rewrite minus_IZR, <- EZ in Hn.
      assert (0 < / B) by (apply Rinv_0_lt_compat; lra).
      assert (IZR (nearestEven m) * / B <= (B - 1) * / B)
        by (apply Rmult_le_compat_r; lra).
      replace ((B - 1) * / B) with (1 - / B) in H0 by (field; lra).
      lra. }
    destruct (Zfloor_bound m) as [Flo Fhi].
    assert (Hf : (Zfloor m <= 2 ^ 53 - 1)%Z).
    { assert (IZR (Zfloor m) < IZR (2 ^ 53)) by (rewrite <- EZ; lra).
      apply lt_IZR in H. lia. }
    unfold nearestEven.
    destruct (total_order_T _ _) as [[Hlt|Heq]|Hgt]; [exact Hf| |].
    + assert (Zfloor m <> 2 ^ 53 - 1)%Z.
      { intros E. rewrite E, minus_IZR, <- EZ in Heq. lra. }
      destruct (Z.even _); lia.
    + assert (Zfloor m <> 2 ^ 53 - 1)%Z.
      { intros E. rewrite E, minus_IZR, <- EZ in Hgt. lra. }
      lia.
  - assert (roundFinite (1 - p) <= bpow (-1)).
    { apply roundFinite_le_bpow; [|lia]. rewrite Em1. lra. }
    rewrite Em1 in H. lra.
Qed.

Lemma fpRound_finite (x : R) :
  0 <= x <= bpow 1023 -> fpRound x = Fin (roundFinite x).
Proof.
  intros Hx. unfold fpRound.
  pose proof (roundFinite_nonneg x (proj1 Hx)) as Hn.
  pose proof (roundFinite_le_bpow x 1023 Hx ltac:(lia)) as Hu.
  pose proof (bpow_lt 1023 1024 ltac:(lia)).
  rewrite Rabs_pos_eq by assumption.
  destruct (Rle_dec _ _); [lra|reflexivity].
Qed.


Lemma fpRound_exact (n e : Z) :
  (0 <= n < 2 ^ 53)%Z -> (-1074 <= e <= 970)%Z ->
  fpRound (IZR n * bpow e) = Fin (IZR n * bpow e).
Proof.
  intros Hn He.
  assert (Hx : 0 <= IZR n * bpow e <= bpow 1023).
  { pose proof (bpow_pos e) as Hb.
    assert (0 <= IZR n) by (apply IZR_le; lia).
    split; [apply Rmult_le_pos; lra|].
    assert (IZR n <= bpow 53) by (rewrite bpow_IZR by lia; apply IZR_le; lia).
    assert (bpow e <= bpow 970) by (apply bpow_le; lia).
    replace 1023%Z with (53 + 970)%Z by reflexivity. rewrite bpow_add.
    pose proof (bpow_pos 970). pose proof (bpow_pos 53).
    apply Rmult_le_compat; lra. }
  rewrite (fpRound_finite _ Hx). f_equal.
  apply roundFinite_exact; lia.
Qed.

Lemma fpRound_IZR (z : Z) :
  (0 <= z < 2 ^ 53)%Z -> fpRound (IZR z) = Fin (IZR z).
Proof.
  intros H. pose proof (fpRound_exact z 0 H ltac:(lia)) as E.
  now rewrite bpow_0, Rmult_1_r in E.
Qed.

(** A negative result is rounded within its binade. *)
Lemma fpRound_negative (x : R) (e : Z) :
  - bpow (e + 1) < x <= - bpow e -> (-1022 <= e < 1023)%Z ->
  exists r, fpRound x = Fin r /\ - bpow (e + 1) <= r <= - bpow e.
Proof.
  intros [Hlo Hhi] He.
  pose proof (bpow_pos e) as Pe.
  assert (Hm : mag x = e).
  { apply mag_unique. rewrite Rabs_left by lra. split; lra. }
  set (c := (e - 52)%Z).
  assert (Hq : quantumExp x = c) by (unfold quantumExp, c; rewrite Hm; lia).
  pose proof (bpow_pos c) as Pc.
  assert (E1 : bpow (e + 1) = IZR (2 ^ 53) * bpow c).
  { rewrite <- (bpow_IZR 53), <- bpow_add by lia. f_equal. unfold c. lia. }
  assert (E0 : bpow e = IZR (2 ^ 52) * bpow c).
  { rewrite <- (bpow_IZR 52), <- bpow_add by lia. f_equal. unfold c. lia. }
  set (m := x / bpow c).
  assert (Hx : x = m * bpow c) by (unfold m; field; lra).
  assert (Hm1 : IZR (- 2 ^ 53) <= m).
  { rewrite opp_IZR. apply (Rmult_le_reg_r (bpow c)); [assumption|].
    rewrite <- Hx. lra. }
  assert (Hm0 : m <= IZR (- 2 ^ 52)).
  { rewrite opp_IZR. apply (Rmult_le_reg_r (bpow c)); [assumption|].
    rewrite <- Hx. lra. }
  apply nearestEven_ge in Hm1. apply nearestEven_le in Hm0.
  apply IZR_le in Hm1, Hm0. rewrite opp_IZR in Hm1, Hm0.
  set (r := IZR (nearestEven m) * bpow c).
  assert (Hr : roundFinite x = r) by (unfold roundFinite; rewrite Hq; reflexivity).
  assert (Hb : - bpow (e + 1) <= r <= - bpow e).
  { unfold r. rewrite E1, E0. split.
    - replace (- (IZR (2 ^ 53) * bpow c)) with ((- IZR (2 ^ 53)) * bpow c) by ring.
      apply Rmult_le_compat_r; lra.
    - replace (- (IZR (2 ^ 52) * bpow c)) with ((- IZR (2 ^ 52)) * bpow c) by ring.
      apply Rmult_le_compat_r; lra. }
  exists r. split; [|exact Hb].
  unfold fpRound. rewrite Hr.
  assert (bpow (e + 1) < bpow 1024) by (apply bpow_lt; lia).
  rewrite Rabs_left by lra.
  destruct (Rle_dec _ _); [lra|reflexivity].
Qed.

Lemma roundFinite_exact_le (n e : Z) :
  (Z.abs n <= 2 ^ 53)%Z -> (-1074 <= e)%Z ->
  roundFinite (IZR n * bpow e) = IZR n * bpow e.
Proof.
  intros Hn He.
  destruct (Z_lt_le_dec (Z.abs n) (2 ^ 53)) as [Hlt|Hge];
    [now apply roundFinite_exact|].
  assert (E : IZR n * bpow e = IZR (n / 2) * bpow (e + 1)).
  { rewrite bpow_succ.
    assert (Hn2 : (n = 2 * (n / 2))%Z).
    { assert (Hc : (n = 2 ^ 53 \/ n = - 2 ^ 53)%Z) by lia.
      destruct Hc as [-> | ->]; reflexivity. }
    rewrite Hn2 at 1. rewrite mult_IZR. ring. }
  rewrite E. apply roundFinite_exact; [|lia].
  assert (Hc : (n = 2 ^ 53 \/ n = - 2 ^ 53)%Z) by lia.
  destruct Hc as [-> | ->]; reflexivity.
Qed.

(** Every double is a whole number of at most 53 bits times a power of
    two that is at least 2^-1074. *)
Lemma roundFinite_structure (x : R) :
  exists n c : Z,
    roundFinite x = IZR n * bpow c /\
    (Z.abs n <= 2 ^ 53)%Z /\ (-1074 <= c)%Z.
Proof.
  exists (nearestEven (x / bpow (quantumExp x))), (quantumExp x).
  split; [reflexivity|]. split; [|unfold quantumExp; lia].
  destruct (Req_dec x 0) as [->|Hx].
  - unfold Rdiv. rewrite Rmult_0_l, (nearestEven_IZR 0). cbn. lia.
  - destruct (mag_bracket x Hx) as [_ Hhi].
    set (c := quantumExp x).
    pose proof (bpow_pos c) as Pc.
    assert (Hb : Rabs x < IZR (2 ^ 53) * bpow c).
    { rewrite <- (bpow_IZR 53), <- bpow_add by lia.
      apply (Rlt_le_trans _ _ _ Hhi). apply bpow_le.
      unfold c, quantumExp. lia. }
    set (m := x / bpow c).
    assert (Hxm : x = m * bpow c) by (unfold m; field; lra).
    assert (Hm : IZR (- 2 ^ 53) <= m <= IZR (2 ^ 53)).
    { rewrite opp_IZR. apply Rabs_def2 in Hb. destruct Hb as [Hb1 Hb2].
      rewrite Hxm in Hb1, Hb2. split.
      - apply (Rmult_le_reg_r (bpow c)); [assumption|]. lra.
      - apply (Rmult_le_reg_r (bpow c)); [assumption|]. lra. }
    destruct Hm as [Hm1 Hm2].
    apply nearestEven_ge in Hm1. apply nearestEven_le in Hm2. lia.
Qed.

Lemma nearestEven_near (m : R) (n : Z) :
  Rabs (m - IZR n) < 1 / 2 -> nearestEven m = n.
Proof.
  intros H. apply Rabs_def2 in H. destruct H as [H1 H2].
  unfold nearestEven.
  destruct (Rle_lt_dec (IZR n) m) as [Hge|Hlt].
  - assert (Hf : Zfloor m = n) by (apply Zfloor_eq; lra).
    rewrite Hf. destruct (total_order_T _ _) as [[|]|]; [reflexivity|lra|lra].
  - assert (Hf : Zfloor m = (n - 1)%Z) by (apply Zfloor_eq; rewrite minus_IZR; lra).
    rewrite Hf, minus_IZR.
    destruct (total_order_T _ _) as [[|]|]; [lra|lra|lia].
Qed.

(** A result within half a last place of a double of the same binade is
    rounded to it. *)
Lemma roundFinite_near (x : R) (n c : Z) :
  (-1074 <= c)%Z ->
  bpow (c + 52) <= x < bpow (c + 53) ->
  Rabs (x - IZR n * bpow c) < bpow c / 2 ->
  roundFinite x = IZR n * bpow c.
Proof.
  intros Hc Hx Hnear.
  pose proof (bpow_pos (c + 52)).
  assert (Hm : mag x = (c + 52)%Z).
  { apply mag_unique. rewrite Rabs_pos_eq by lra.
    replace (c + 52 + 1)%Z with (c + 53)%Z by lia. exact Hx. }
  unfold roundFinite, quantumExp. rewrite Hm.
  replace (Z.max (c + 52) (-1022) - 52)%Z with c by lia.
  pose proof (bpow_pos c) as Pc.
  rewrite (nearestEven_near _ n); [reflexivity|].
  replace (x / bpow c - IZR n) with ((x - IZR n * bpow c) / bpow c)
    by (field; lra).
  unfold Rdiv at 1. rewrite Rabs_mult, (Rabs_pos_eq (/ bpow c))
    by (left; now apply Rinv_0_lt_compat).
  apply (Rmult_lt_reg_r (bpow c)); [assumption|].
  rewrite Rmult_assoc, Rinv_l by lra. lra.
Qed.

Lemma fpRound_Fin (x r : R) : fpRound x = Fin r -> r = roundFinite x.
Proof.
  unfold fpRound. destruct (Rle_dec _ _); [destruct (Rlt_dec _ _); discriminate|].
  now intros [= <-].
Qed.

(** *** The operations of line 229 *)

Lemma ddiv_nonzero (x y : R) :
  y <> 0 -> ddiv (Fin x) (Fin y) = fpRound (x / y).
Proof.
  intros H. unfold ddiv.
  destruct (total_order_T y 0) as [[Hlt|Heq]|Hgt]; [reflexivity|contradiction|reflexivity].
Qed.

Lemma ddiv_neg_zero (x : R) : x < 0 -> ddiv (Fin x) (Fin 0) = NInf.
Proof.
  intros H. unfold ddiv.
  destruct (total_order_T 0 0) as [[Hlt|Heq]|Hgt]; [lra| |lra].
  destruct (total_order_T x 0) as [[Hlt|Hx]|Hgt]; [reflexivity|lra|lra].
Qed.

Lemma ddiv_same (x : R) : x <> 0 -> ddiv (Fin x) (Fin x) = Fin 1.
Proof.
  intros H. rewrite ddiv_nonzero by assumption.
  replace (x / x) with (IZR 1) by (field; assumption).
  apply fpRound_IZR. cbn. lia.
Qed.

(** The quotient of two negative values is rounded to a double that is
    not negative, and no larger than a power of two that bounds it. *)
Lemma ddiv_negatives (x y : R) (e : Z) :
  x < 0 -> y < 0 -> x / y <= bpow e -> (-1022 <= e <= 1023)%Z ->
  ddiv (Fin x) (Fin y) = Fin (roundFinite (x / y)) /\
  0 <= roundFinite (x / y) <= bpow e.
Proof.
  intros Hx Hy Hq He.
  assert (H0 : 0 < x / y) by now apply Rdiv_neg_neg.
  rewrite ddiv_nonzero by lra.
  assert (bpow e <= bpow 1023) by (apply bpow_le; lia).
  rewrite fpRound_finite by lra.
  split; [reflexivity|].
  split; [apply roundFinite_nonneg; lra|apply roundFinite_le_bpow; [lra|lia]].
Qed.

Lemma dsub_one_tiny (p : R) : 0 <= p <= bpow (-54) -> dsub 1 p = Fin 1.
Proof.
  intros Hp. unfold dsub.
  assert (Hx : 0 <= 1 - p <= bpow 1023).
  { pose proof (bpow_pos (-54)).
    assert (bpow (-54) <= bpow 0) by (apply bpow_le; lia).
    assert (bpow 0 <= bpow 1023) by (apply bpow_le; lia).
    rewrite bpow_0 in *. lra. }
  rewrite (fpRound_finite _ Hx). f_equal.
  now apply roundFinite_one_minus_tiny.
Qed.

Lemma dsub_one_below (p : R) :
  bpow (-54) < p <= 1 ->
  exists q, dsub 1 p = Fin q /\ 0 <= q < 1.
Proof.
  intros Hp. unfold dsub.
  assert (Hx : 0 <= 1 - p <= bpow 1023).
  { pose proof (bpow_pos (-54)).
    assert (bpow 0 <= bpow 1023) by (apply bpow_le; lia).
    rewrite bpow_0 in *. lra. }
  rewrite (fpRound_finite _ Hx). eexists. split; [reflexivity|].
  now apply roundFinite_one_minus.
Qed.

Lemma dsub_one_half : dsub 1 (1 / 2) = Fin (1 / 2).
Proof.
  unfold dsub. replace (1 - 1 / 2) with (IZR 1 * bpow (-1)).
  - rewrite fpRound_exact by lia. f_equal.
    change (bpow (-1)) with (/ (2 * 1)). field.
  - change (bpow (-1)) with (/ (2 * 1)). field.
Qed.

Lemma dsucc_whole (z : Z) :
  (0 <= z < 2 ^ 53 - 1)%Z -> dsucc (Fin (IZR z)) = Fin (IZR (z + 1)).
Proof.
  intros H. cbn [dsucc]. rewrite <- plus_IZR. apply fpRound_IZR. lia.
Qed.

(** One more than a whole number is, as a double, a whole number or an
    infinity. *)
Lemma dsucc_integer (z : Z) (x : R) :
  dsucc (Fin (IZR z)) = Fin x -> exists k : Z, x = IZR k.
Proof.
  cbn [dsucc]. rewrite <- plus_IZR. unfold fpRound.
  destruct (Rle_dec _ _); [destruct (Rlt_dec _ _); discriminate|].
  intros [= <-]. apply roundFinite_integer.
Qed.

(** *** The sample logarithm *)

Lemma ln_2_lt_1 : ln 2 < 1.
Proof.
  rewrite <- (ln_exp 1). apply ln_increasing; [lra|].
  pose proof (exp_ineq1 1 ltac:(lra)). lra.
Qed.

Lemma sampleLog_one : sampleLog 1 = Fin 0.
Proof.
  unfold sampleLog.
  destruct (total_order_T 0 1) as [[_|H]|H]; [|lra|lra].
  rewrite ln_1. apply (fpRound_IZR 0). cbn. lia.
Qed.

Lemma sampleLog_half : exists l, sampleLog (1 / 2) = Fin l /\ l < 0.
Proof.
  unfold sampleLog.
  destruct (total_order_T 0 (1 / 2)) as [[_|H]|H]; [|lra|lra].
  assert (E : ln (1 / 2) = - ln 2).
  { unfold Rdiv. rewrite Rmult_1_l. apply ln_Rinv. lra. }
  pose proof ln_lt_2. pose proof ln_2_lt_1.
  destruct (fpRound_negative (ln (1 / 2)) (-1)) as (r & Hr & Hb).
  - change (-1 + 1)%Z with 0%Z. rewrite bpow_0.
    change (bpow (-1)) with (/ (2 * 1)). rewrite E.
    replace (/ (2 * 1)) with (/ 2) by (f_equal; lra). lra.
  - lia.
  - exists r. split; [exact Hr|]. pose proof (bpow_pos (-1)). lra.
Qed.

End DoubleRoundingFacts.

(** ** Properties of the Bernoulli client *)

Section BernoulliClientFacts.

Import BernoulliClient.
Local Open Scope Z_scope.

(** *** The arrival interval *)

Lemma Rltb_true (a b : R) : (a < b)%R -> Rltb a b = true.
Proof. intros H. unfold Rltb. destruct (Rlt_dec a b); [reflexivity|contradiction]. Qed.

Lemma Rltb_false (a b : R) : ~ (a < b)%R -> Rltb a b = false.
Proof. intros H. unfold Rltb. destruct (Rlt_dec a b); [contradiction|reflexivity]. Qed.

Lemma dpositive_IZR (k : Z) : 1 <= k -> dpositive (Fin (IZR k)) = true.
Proof.
  intros H. cbn. destruct (Rlt_dec 0 (IZR k)) as [|Hn]; [reflexivity|].
  exfalso. apply Hn. apply IZR_lt. lia.
Qed.

Lemma fitsTime_spec (z : Z) : fitsTime z = true <-> - 2 ^ 63 < z < 2 ^ 63.
Proof. unfold fitsTime. rewrite andb_true_iff, !Z.ltb_lt. tauto. Qed.

Lemma slotsOf_bounds (quotient : R) :
  (0 <= quotient <= bpow 52)%R -> 1 <= slotsOf quotient <= 2 ^ 52 + 1.
Proof.
  intros [H0 H1]. unfold slotsOf.
  pose proof (Zfloor_lub 0 quotient H0).
  rewrite (bpow_IZR 52) in H1 by lia.
  pose proof (Zfloor_le _ _ H1) as Hle. rewrite ZfloorZ in Hle. lia.
Qed.

(** The slot count of a quotient that is not negative and at most 2^52:
    its floor plus one, exactly. *)
Lemma numInterval_quotient (cfg : Config) (u quotient : R) :
  logQuotient cfg u = Fin quotient -> (0 <= quotient <= bpow 52)%R ->
  numInterval cfg u = Fin (IZR (slotsOf quotient)).
Proof.
  intros Hq Hb. pose proof (slotsOf_bounds quotient Hb) as Hk.
  unfold numInterval. rewrite Hq. cbn [dfloor]. unfold slotsOf in *.
  apply dsucc_whole. change (2 ^ 53) with (2 * 2 ^ 52). lia.
Qed.

Lemma nextInterval_quotient (cfg : Config) (u quotient : R) :
  (m_bernoulliPr cfg < 1)%R ->
  logQuotient cfg u = Fin quotient -> (0 <= quotient <= bpow 52)%R ->
  fitsTime (slotsOf quotient * m_timeSlot cfg) = true ->
  nextInterval cfg u = Done (slotsOf quotient * m_timeSlot cfg).
Proof.
  intros Hp Hq Hb Hfit. pose proof (slotsOf_bounds quotient Hb) as Hk.
  unfold nextInterval. rewrite Rltb_true by assumption. cbn [assert bind].
  rewrite (numInterval_quotient cfg u quotient Hq Hb).
  rewrite dpositive_IZR by lia. cbn [assert bind scaleTime].
  rewrite ZfloorZ, Hfit.
  assert (Hk' : fitsTime (slotsOf quotient) = true).
  { apply fitsTime_spec. change (2 ^ 63) with (2048 * 2 ^ 52). lia. }
  now rewrite Hk'.
Qed.

(** A sample that yields an interval: a whole, positive number of slots. *)
Lemma nextInterval_yields (cfg : Config) (u : R) :
  (m_bernoulliPr cfg < 1)%R -> yieldsInterval cfg u ->
  exists k, 1 <= k /\ nextInterval cfg u = Done (k * m_timeSlot cfg).
Proof.
  intros Hp (quotient & Hq & Hb & Hfit).
  exists (slotsOf quotient). split; [apply (slotsOf_bounds _ Hb)|].
  now apply nextInterval_quotient.
Qed.

(** An interval that has been computed: both assertions have passed, and
    it is a whole, positive number of slots. *)
Lemma nextInterval_inv (cfg : Config) (u : R) (interval : Z) :
  nextInterval cfg u = Done interval ->
  (m_bernoulliPr cfg < 1)%R /\
  exists k,
    1 <= k /\ numInterval cfg u = Fin (IZR k) /\
    interval = k * m_timeSlot cfg.
Proof.
  unfold nextInterval, Rltb.
  destruct (Rlt_dec (m_bernoulliPr cfg) 1) as [Hp|]; [|discriminate].
  cbn [assert bind]. intros H. split; [exact Hp|].
  destruct (dpositive (numInterval cfg u)) eqn:Hpos; [|discriminate].
  cbn [assert bind] in H.
  unfold numInterval in *.
  destruct (logQuotient cfg u) as [q| | |]; cbn [dfloor] in *;
    try (cbn in H; discriminate).
  destruct (dsucc (Fin (IZR (Zfloor q)))) as [x| | |] eqn:Hs;
    try (cbn in H; discriminate).
  destruct (dsucc_integer _ _ Hs) as [k ->].
  cbn [scaleTime] in H. rewrite ZfloorZ in H.
  destruct (fitsTime k && fitsTime (k * m_timeSlot cfg)); [|discriminate].
  injection H as <-. exists k. split; [|split; reflexivity].
  cbn in Hpos. destruct (Rlt_dec 0 (IZR k)) as [Hk|]; [|discriminate].
  apply lt_IZR in Hk. lia.
Qed.

Lemma nextInterval_pr_ge_1 (cfg : Config) (u : R) :
  (1 <= m_bernoulliPr cfg)%R ->
  nextInterval cfg u = Abort BernoulliPrNotBelowOne.
Proof.
  intros Hp. unfold nextInterval. rewrite Rltb_false by lra. reflexivity.
Qed.

(** When the double [1 - m_bernoulliPr] is 1, its logarithm is 0 and the
    quotient, of a negative logarithm by zero, is minus infinity: the
    second assertion fails. *)
Lemma nextInterval_one_minus_is_one (cfg : Config) (u l : R) :
  (m_bernoulliPr cfg < 1)%R -> dsub 1 (m_bernoulliPr cfg) = Fin 1 ->
  stdLog cfg 1 = Fin 0 -> stdLog cfg u = Fin l -> (l < 0)%R ->
  nextInterval cfg u = Abort NumIntervalNotPositive.
Proof.
  intros Hp Hq H1 Hu Hl. unfold nextInterval.
  rewrite Rltb_true by assumption. cbn [assert bind].
  unfold numInterval, logQuotient. rewrite Hq. cbn [dlog].
  rewrite H1, Hu, ddiv_neg_zero by assumption. reflexivity.
Qed.

Lemma nextInterval_tiny (cfg : Config) (u l : R) :
  (0 <= m_bernoulliPr cfg <= bpow (-54))%R ->
  stdLog cfg 1 = Fin 0 -> stdLog cfg u = Fin l -> (l < 0)%R ->
  nextInterval cfg u = Abort NumIntervalNotPositive.
Proof.
  intros Hp H1 Hu Hl.
  apply (nextInterval_one_minus_is_one cfg u l); try assumption.
  - assert (bpow (-54) < bpow 0)%R by (apply bpow_lt; lia).
    rewrite bpow_0 in H. lra.
  - now apply dsub_one_tiny.
Qed.

(** The quotient of line 229 when the library's logarithm is negative at
    the sample and at the double [1 - m_bernoulliPr]. *)
Lemma logQuotient_negatives (cfg : Config) (u q lu lq : R) :
  dsub 1 (m_bernoulliPr cfg) = Fin q ->
  stdLog cfg u = Fin lu -> stdLog cfg q = Fin lq ->
  (lu < 0)%R -> (lq < 0)%R -> (lu / lq <= bpow 52)%R ->
  logQuotient cfg u = Fin (roundFinite (lu / lq)) /\
  (0 <= roundFinite (lu / lq) <= bpow 52)%R.
Proof.
  intros Hq Hu Hlq Hlu0 Hlq0 Hb. unfold logQuotient.
  rewrite Hq. cbn [dlog]. rewrite Hu, Hlq.
  apply ddiv_negatives; try assumption. lia.
Qed.

(** *** One execution of [Send] *)

(** What [transmit] changes and what it leaves alone. *)
Lemma transmit_frame (cfg : Config) (s : State) (sk : Socket) :
  let s' := fst (transmit cfg s sk) in
  m_sent s' = m_sent s + 1 /\
  m_priority s' = m_priority s /\
  m_sendEvent s' = m_sendEvent s /\
  intervalDraws s' = intervalDraws s /\
  now s' = now s /\ queue s' = queue s /\ nextUid s' = nextUid s /\
  exists sk',
    m_socket s' = Some sk' /\ sk_closed sk' = sk_closed sk /\
    sk_sendCalls sk' = S (sk_sendCalls sk).
Proof.
  unfold transmit, choosePriority.
  destruct (negb (m_optionalTid cfg =? m_priority s));
    [destruct (Rltb _ _)|]; cbn; repeat split; eexists; repeat split.
Qed.

Lemma armNext_frame (cfg : Config) (interval : Z) (s : State) :
  let s' := fst (armNext cfg interval s) in
  m_sent s' = m_sent s /\ m_priority s' = m_priority s /\
  m_socket s' = m_socket s /\ intervalDraws s' = intervalDraws s /\
  tidDraws s' = tidDraws s /\ now s' = now s.
Proof.
  unfold armNext.
  destruct ((m_sent s <? m_maxPackets cfg) || (m_maxPackets cfg =? 0));
    cbn; repeat split.
Qed.

Lemma mayRearm_spec (cfg : Config) (s : State) :
  (m_sent s <? m_maxPackets cfg) || (m_maxPackets cfg =? 0) = true <->
  mayRearm cfg s.
Proof.
  unfold mayRearm. rewrite orb_true_iff, Z.ltb_lt, Z.eqb_eq. tauto.
Qed.

Lemma armNext_armed (cfg : Config) (interval : Z) (s : State) :
  mayRearm cfg s ->
  armNext cfg interval s =
    (set_sendEvent (Some (nextUid s))
       (set_nextUid (nextUid s + 1)
          (set_queue
             (insertEvent (mkSimEvent (now s + interval) (nextUid s)) (queue s))
             s)),
     [SimSchedule interval (nextUid s)]).
Proof.
  intros H. apply mayRearm_spec in H. unfold armNext. now rewrite H.
Qed.

Lemma armNext_quiescent (cfg : Config) (interval : Z) (s : State) :
  ~ mayRearm cfg s -> armNext cfg interval s = (s, []).
Proof.
  intros H. unfold armNext.
  destruct ((m_sent s <? m_maxPackets cfg) || (m_maxPackets cfg =? 0)) eqn:E;
    [|reflexivity].
  apply mayRearm_spec in E. contradiction.
Qed.

Lemma Send_unfold (cfg : Config) (s : State) (sk : Socket) :
  m_socket s = Some sk -> IsExpired (m_sendEvent s) s = true ->
  Send cfg s =
    (let t := transmit cfg s sk in
     let s3 := set_intervalDraws (S (intervalDraws s)) (fst t) in
     interval <- nextInterval cfg (uniformForInterval cfg (intervalDraws s)) ;;
     Done (fst (armNext cfg interval s3), snd t ++ snd (armNext cfg interval s3))).
Proof.
  intros Hsk Hexp. unfold Send. rewrite Hexp, Hsk. cbn [assert bind].
  destruct (transmit_frame cfg s sk) as (_ & _ & _ & Hd & _).
  destruct (transmit cfg s sk) as [s2 calls]. cbn [fst snd] in *. rewrite Hd.
  destruct (nextInterval cfg _) as [interval|f]; [|reflexivity]. cbn [bind].
  now destruct (armNext cfg interval _).
Qed.

(** A [Send] that returns has passed its assertions, found its socket and
    computed an interval. *)
Lemma Send_inv (cfg : Config) (s s' : State) (calls : list Call) :
  Send cfg s = Done (s', calls) ->
  exists sk interval,
    m_socket s = Some sk /\ IsExpired (m_sendEvent s) s = true /\
    nextInterval cfg (uniformForInterval cfg (intervalDraws s)) = Done interval /\
    let t := transmit cfg s sk in
    let a := armNext cfg interval
               (set_intervalDraws (S (intervalDraws s)) (fst t)) in
    s' = fst a /\ calls = snd t ++ snd a.
Proof.
  intros H.
  destruct (IsExpired (m_sendEvent s) s) eqn:Hexp;
    [|unfold Send in H; rewrite Hexp in H; discriminate].
  destruct (m_socket s) as [sk|] eqn:Hsk;
    [|unfold Send in H; rewrite Hexp, Hsk in H; discriminate].
  rewrite (Send_unfold cfg s sk Hsk Hexp) in H. cbn zeta in H.
  destruct (nextInterval cfg _) as [interval|f]; [|discriminate].
  cbn [bind] in H. injection H as <- <-.
  exists sk, interval. repeat split.
Qed.

(** With valid draws, a [Send] that finds its socket and no pending event
    returns, having computed a whole, positive number of slots. *)
Lemma Send_ok (cfg : Config) (s : State) (sk : Socket) :
  validDraws cfg ->
  m_socket s = Some sk -> IsExpired (m_sendEvent s) s = true ->
  exists k,
    1 <= k /\
    nextInterval cfg (uniformForInterval cfg (intervalDraws s))
      = Done (k * m_timeSlot cfg) /\
    let t := transmit cfg s sk in
    let a := armNext cfg (k * m_timeSlot cfg)
               (set_intervalDraws (S (intervalDraws s)) (fst t)) in
    Send cfg s = Done (fst a, snd t ++ snd a).
Proof.
  intros [Hp Hu] Hsk Hexp.
  destruct (nextInterval_yields cfg _ Hp (Hu (intervalDraws s))) as (k & Hk & Hi).
  exists k. split; [exact Hk|]. split; [exact Hi|]. cbn zeta.
  rewrite (Send_unfold cfg s sk Hsk Hexp). cbn zeta.
  now rewrite Hi.
Qed.

Lemma countCalls_app (f : Call -> bool) (l1 l2 : list Call) :
  countCalls f (l1 ++ l2) = (countCalls f l1 + countCalls f l2)%nat.
Proof. unfold countCalls. now rewrite filter_app, length_app. Qed.

Lemma sendPriorities_app (l1 l2 : list Call) :
  sendPriorities (l1 ++ l2) = sendPriorities l1 ++ sendPriorities l2.
Proof.
  induction l1 as [|c l1 IH]; [reflexivity|].
  destruct c; cbn; rewrite ?IH; reflexivity.
Qed.

(** The calls of [transmit]: one packet, tagged as [choosePriority] left
    the socket, and a priority call only when the two classes differ. *)
Lemma transmit_calls (cfg : Config) (s : State) (sk : Socket) :
  let t := transmit cfg s sk in
  let v := uniformForTid cfg (tidDraws s) in
  countCalls isSockSend (snd t) = 1%nat /\
  (m_optionalTid cfg = m_priority s ->
   tidDraws (fst t) = tidDraws s /\
   countCalls isSetPriority (snd t) = 0%nat /\
   sendPriorities (snd t) = [sk_priority sk] /\
   option_map sk_priority (m_socket (fst t)) = Some (sk_priority sk)) /\
  (m_optionalTid cfg <> m_priority s ->
   tidDraws (fst t) = S (tidDraws s) /\
   countCalls isSetPriority (snd t) = 1%nat /\
   ((v < m_optionalTidPr cfg)%R ->
    sendPriorities (snd t) = [m_optionalTid cfg] /\
    option_map sk_priority (m_socket (fst t)) = Some (m_optionalTid cfg)) /\
   (~ (v < m_optionalTidPr cfg)%R ->
    sendPriorities (snd t) = [m_priority s] /\
    option_map sk_priority (m_socket (fst t)) = Some (m_priority s))).
Proof.
  unfold transmit, choosePriority, reportSend.
  destruct (Z.eqb_spec (m_optionalTid cfg) (m_priority s)) as [He|Hn]; cbn [negb].
  - destruct (0 <=? _); cbn; repeat split; congruence.
  - unfold Rltb.
    destruct (Rlt_dec (uniformForTid cfg (tidDraws s)) (m_optionalTidPr cfg));
      destruct (0 <=? _); cbn; repeat split; intros; try congruence; try contradiction.
Qed.

Lemma armNext_calls (cfg : Config) (interval : Z) (s : State) :
  countCalls isSockSend (snd (armNext cfg interval s)) = 0%nat /\
  countCalls isSetPriority (snd (armNext cfg interval s)) = 0%nat /\
  sendPriorities (snd (armNext cfg interval s)) = [].
Proof.
  unfold armNext.
  destruct ((m_sent s <? m_maxPackets cfg) || (m_maxPackets cfg =? 0));
    cbn; repeat split.
Qed.

Lemma sampleConfig_quotient (maxPackets optionalTid : Z) (optionalTidPr : R) :
  logQuotient (sampleConfig maxPackets optionalTid optionalTidPr) (1 / 2)
    = Fin 1.
Proof.
  unfold logQuotient. cbn [m_bernoulliPr stdLog sampleConfig].
  rewrite dsub_one_half. cbn [dlog].
  destruct sampleLog_half as (l & -> & Hl). apply ddiv_same. lra.
Qed.

Lemma slotsOf_one : slotsOf 1 = 2.
Proof. unfold slotsOf. now rewrite (ZfloorZ 1). Qed.

Lemma sampleConfig_yields (maxPackets optionalTid : Z) (optionalTidPr : R)
  (f : nat -> Z) :
  yieldsInterval
    (withSendResult f (sampleConfig maxPackets optionalTid optionalTidPr))
    (1 / 2).
Proof.
  exists 1%R. split; [apply sampleConfig_quotient|]. split.
  - rewrite (bpow_IZR 52) by lia. split; [lra|]. apply (IZR_le 1). cbn. lia.
  - rewrite slotsOf_one. reflexivity.
Qed.

Lemma sampleConfig_valid (maxPackets optionalTid : Z) (optionalTidPr : R) :
  validDraws (sampleConfig maxPackets optionalTid optionalTidPr).
Proof.
  split; [cbn; lra|]. intros n.
  apply (sampleConfig_yields maxPackets optionalTid optionalTidPr (fun _ => 0)).
Qed.

Lemma sampleConfig_interval (maxPackets optionalTid : Z) (optionalTidPr : R) :
  nextInterval (sampleConfig maxPackets optionalTid optionalTidPr) (1 / 2)
    = Done 18000.
Proof.
  rewrite (nextInterval_quotient _ _ 1%R).
  - now rewrite slotsOf_one.
  - cbn. lra.
  - apply sampleConfig_quotient.
  - rewrite (bpow_IZR 52) by lia. split; [lra|]. apply (IZR_le 1). cbn. lia.
  - rewrite slotsOf_one. reflexivity.
Qed.

Lemma firingState_expired : IsExpired (m_sendEvent firingState) firingState = true.
Proof. reflexivity. Qed.

Lemma startedState_reached :
  StartApplication (SetRemote (construct 0)) =
    Done (startedState,
          [SockBind; SockConnect; SockSetRecvCallback; SimScheduleNow 0]).
Proof. reflexivity. Qed.

Lemma firingState_reached (cfg : Config) :
  processOneEvent cfg startedState = Send cfg firingState.
Proof. reflexivity. Qed.




(** *** The tag of the socket when the two classes coincide *)

Lemma perform_primary (cfg : Config) (op : Op) (s s' : State) (calls : list Call) :
  m_optionalTid cfg = m_priority s -> socketTagged s ->
  perform cfg op s = Done (s', calls) ->
  m_priority s' = m_priority s /\ socketTagged s' /\
  tidDraws s' = tidDraws s /\
  Forall (fun tag => tag = m_priority s) (sendPriorities calls).
Proof.
  intros Hopt Htag Hdone. destruct op; cbn [perform] in Hdone.
  - unfold StartApplication in Hdone.
    destruct (m_peerAddressSet s); [|discriminate]. cbn [assert bind] in Hdone.
    unfold socketTagged in *.
    destruct (m_socket s) as [sk|].
    + cbn in Hdone. injection Hdone as <- <-. cbn. repeat split; auto.
    + destruct (Z.eqb_spec (m_priority s) 0) as [E|E]; cbn in Hdone;
        injection Hdone as <- <-; cbn; repeat split; auto;
        intros sk' [= <-]; cbn; congruence.
  - unfold processOneEvent in Hdone.
    destruct (queue s) as [|e q]; [injection Hdone as <- <-; cbn; auto|].
    destruct (Send_inv _ _ _ _ Hdone) as (sk & interval & Hsk & _ & _ & Hs' & Hcalls).
    cbn [intervalDraws set_now set_queue] in Hs', Hcalls.
    set (s0 := set_now (ev_ts e) (set_queue q s)) in *.
    set (s3 := set_intervalDraws _ (fst (transmit cfg s0 sk))) in *.
    destruct (transmit_frame cfg s0 sk) as (_ & Hp & _).
    destruct (armNext_frame cfg interval s3) as (_ & Hp' & Hsock & _ & Htid & _).
    destruct (transmit_calls cfg s0 sk) as (_ & Heq & _).
    destruct (armNext_calls cfg interval s3) as (_ & _ & Hnone).
    destruct (Heq ltac:(cbn; congruence)) as (Hdraws & _ & Hsent & Hkeep).
    assert (Hsk0 : sk_priority sk = m_priority s) by (apply Htag; exact Hsk).
    assert (Hprio : m_priority s' = m_priority s)
      by (rewrite Hs', Hp'; unfold s3; cbn; rewrite Hp; reflexivity).
    split; [exact Hprio|]. split; [|split].
    + intros sk' Hsk'. rewrite Hprio, <- Hsk0.
      rewrite Hs', Hsock in Hsk'. unfold s3 in Hsk'. cbn in Hsk'.
      rewrite Hsk' in Hkeep. cbn in Hkeep. congruence.
    + rewrite Hs', Htid. unfold s3. cbn. rewrite Hdraws. reflexivity.
    + rewrite Hcalls, sendPriorities_app, Hnone, Hsent, app_nil_r, Hsk0.
      now constructor.
  - unfold StopApplication in Hdone. cbn in Hdone.
    unfold socketTagged in *.
    destruct (m_socket s) as [sk|]; [|discriminate].
    injection Hdone as <- <-. cbn in *. repeat split; auto.
    intros sk' [= <-]. cbn. now apply Htag.
Qed.

Lemma exec_primary (cfg : Config) (ops : list Op) :
  forall (s s' : State) (calls : list Call),
    m_optionalTid cfg = m_priority s -> socketTagged s ->
    exec cfg ops s = Done (s', calls) ->
    tidDraws s' = tidDraws s /\
    Forall (fun tag => tag = m_priority s) (sendPriorities calls).
Proof.
  induction ops as [|op ops IH]; intros s s' calls Hopt Htag Hdone.
  - injection Hdone as <- <-. cbn. auto.
  - cbn [exec] in Hdone.
    destruct (perform cfg op s) as [[s1 calls1]|f] eqn:Hstep; [|discriminate].
    cbn [bind fst snd] in Hdone.
    destruct (exec cfg ops s1) as [[s2 calls2]|f] eqn:Hrest; [|discriminate].
    cbn [bind fst snd] in Hdone. injection Hdone as <- <-.
    destruct (perform_primary cfg op s s1 calls1 Hopt Htag Hstep)
      as (Hp1 & Htag1 & Hd1 & Hall1).
    destruct (IH s1 s2 calls2 ltac:(congruence) Htag1 Hrest) as [Hd2 Hall2].
    split; [congruence|].
    rewrite sendPriorities_app. apply Forall_app. split; [assumption|].
    now rewrite <- Hp1.
Qed.

(** C4.  When the optional class equals the primary one, a [Send] draws
    nothing from the priority stream and makes no priority call, whatever
    the optional probability: the packet leaves with the socket's tag,
    which is the primary priority, and this holds for every packet over
    the whole life of the client.  Otherwise exactly one sample [v] is
    drawn and the packet leaves with the optional priority when
    [v < optionalProbability] and with the primary priority when not. *)
Theorem priority_selection :
  (forall (cfg : Config) (s s' : State) (sk : Socket) (calls : list Call),
     m_socket s = Some sk -> Send cfg s = Done (s', calls) ->
     let v := uniformForTid cfg (tidDraws s) in
     (m_optionalTid cfg = m_priority s ->
      tidDraws s' = tidDraws s /\
      countCalls isSetPriority calls = 0%nat /\
      sendPriorities calls = [sk_priority sk] /\
      (sk_priority sk = m_priority s -> sendPriorities calls = [m_priority s])) /\
     (m_optionalTid cfg <> m_priority s ->
      tidDraws s' = S (tidDraws s) /\
      ((v < m_optionalTidPr cfg)%R ->
       sendPriorities calls = [m_optionalTid cfg]) /\
      (~ (v < m_optionalTidPr cfg)%R ->
       sendPriorities calls = [m_priority s]))) /\
  (forall (cfg : Config) (priority : Z) (ops : list Op) (s' : State)
          (calls : list Call),
     m_optionalTid cfg = priority ->
     exec cfg ops (SetRemote (construct priority)) = Done (s', calls) ->
     tidDraws s' = 0%nat /\
     Forall (fun tag => tag = priority) (sendPriorities calls)).
Proof.
  split.
  - intros cfg s s' sk calls Hsk Hsend v.
    destruct (Send_inv _ _ _ _ Hsend)
      as (sk0 & interval & Hsk0 & _ & _ & Hs' & Hcalls).
    assert (sk0 = sk) by congruence. subst sk0.
    set (s3 := set_intervalDraws (S (intervalDraws s)) (fst (transmit cfg s sk))) in *.
    destruct (armNext_frame cfg interval s3) as (_ & _ & _ & _ & Htid & _).
    destruct (armNext_calls cfg interval s3) as (_ & Hset & Hprio).
    destruct (transmit_calls cfg s sk) as (_ & Heq & Hne).
    assert (Hdraws : tidDraws s' = tidDraws (fst (transmit cfg s sk)))
      by (rewrite Hs', Htid; reflexivity).
    rewrite Hcalls, countCalls_app, sendPriorities_app, Hset, Hprio, app_nil_r,
      Hdraws.
    split.
    + intros E. destruct (Heq E) as (-> & -> & -> & _).
      repeat split. intros ->. reflexivity.
    + intros E. destruct (Hne E) as (-> & _ & Hlt & Hge).
      repeat split; intros Hv; [apply (Hlt Hv)|apply (Hge Hv)].
  - intros cfg priority ops s' calls Hopt Hdone.
    apply (exec_primary cfg ops (SetRemote (construct priority)) s' calls);
      [exact Hopt|intros sk; discriminate|exact Hdone].
Qed.

Lemma priority_selection_witness :
  m_socket firingState = Some newSocket /\
  exists s' calls,
    Send (sampleConfig 0 0 1) firingState = Done (s', calls) /\
    tidDraws s' = tidDraws firingState /\
    countCalls isSetPriority calls = 0%nat /\
    sendPriorities calls = [0].
Proof.
  split; [reflexivity|].
  destruct (Send_ok (sampleConfig 0 0 1) firingState newSocket
              (sampleConfig_valid 0 0 1) eq_refl firingState_expired)
    as (k & _ & _ & H).
  cbn zeta in H. eexists. eexists. split; [exact H|].
  destruct (proj1 priority_selection _ _ _ _ _
              (eq_refl : m_socket firingState = Some newSocket) H)
    as [Heq _].
  destruct (Heq eq_refl) as (H1 & H2 & H3 & _).
  repeat split; assumption.
Defined.

Lemma Send_withSendResult_unfold (cfg : Config) (f : nat -> Z) (s : State) (sk : Socket) :
  fst (transmit (withSendResult f cfg) s sk) = fst (transmit cfg s sk) /\
  withoutReports (snd (transmit (withSendResult f cfg) s sk)) =
  withoutReports (snd (transmit cfg s sk)).
Proof.
  unfold transmit, choosePriority, reportSend, withoutReports. cbn.
  destruct (negb (m_optionalTid cfg =? m_priority s));
    [destruct (Rltb _ _)|]; cbn;
    destruct (0 <=? f _); destruct (0 <=? socketSendResult cfg _);
    split; reflexivity.
Qed.

Lemma withoutReports_app (l1 l2 : list Call) :
  withoutReports (l1 ++ l2) = withoutReports l1 ++ withoutReports l2.
Proof. apply filter_app. Qed.

Lemma isPending_insert (e : SimEvent) (q : list SimEvent) :
  isPending (Some (ev_uid e)) (insertEvent e q) = true.
Proof.
  cbn. induction q as [|e' q IH]; cbn.
  - now rewrite Z.eqb_refl.
  - destruct (ev_before e e'); cbn; [now rewrite Z.eqb_refl|].
    rewrite IH. apply orb_true_r.
Qed.

Lemma scheduleDelays_app (l1 l2 : list Call) :
  scheduleDelays (l1 ++ l2) = scheduleDelays l1 ++ scheduleDelays l2.
Proof.
  induction l1 as [|c l1 IH]; [reflexivity|].
  destruct c; cbn; rewrite ?IH; reflexivity.
Qed.

Lemma transmit_no_schedule (cfg : Config) (s : State) (sk : Socket) :
  scheduleDelays (snd (transmit cfg s sk)) = [].
Proof.
  unfold transmit, choosePriority, reportSend.
  destruct (negb _); [destruct (Rltb _ _)|]; destruct (0 <=? _); reflexivity.
Qed.

Lemma reportSend_calls (cfg : Config) (s : State) (result : Z) :
  (result < 0 -> In (LogError (m_size cfg)) (reportSend cfg s result)) /\
  (0 <= result -> In (TxTrace (m_size cfg)) (reportSend cfg s result)).
Proof.
  unfold reportSend.
  destruct (Z.leb_spec 0 result); split; intros; try lia; cbn; auto.
Qed.

(** What [transmit] reports for the answer of the socket. *)
Lemma transmit_reports (cfg : Config) (s : State) (sk : Socket) :
  let result := socketSendResult cfg (sk_sendCalls sk) in
  (result < 0 -> In (LogError (m_size cfg)) (snd (transmit cfg s sk))) /\
  (0 <= result -> In (TxTrace (m_size cfg)) (snd (transmit cfg s sk))).
Proof.
  unfold transmit, choosePriority.
  destruct (negb (m_optionalTid cfg =? m_priority s));
    [destruct (Rltb _ _)|]; cbn [fst snd sk_sendCalls sockSetPriority];
    match goal with
    | |- context [reportSend cfg ?s1 ?r] =>
        destruct (reportSend_calls cfg s1 r) as [Hneg Hpos]
    end;
    split; intros H; apply in_or_app; right; right; auto.
Qed.

(** The state a [Send] leaves behind when it returns. *)
Lemma Send_post (cfg : Config) (s s' : State) (calls : list Call) :
  Send cfg s = Done (s', calls) ->
  exists sk interval,
    m_socket s = Some sk /\ IsExpired (m_sendEvent s) s = true /\
    nextInterval cfg (uniformForInterval cfg (intervalDraws s)) = Done interval /\
    m_sent s' = m_sent s + 1 /\
    m_priority s' = m_priority s /\
    now s' = now s /\
    (exists sk', m_socket s' = Some sk' /\ sk_closed sk' = sk_closed sk) /\
    countCalls isSockSend calls = 1%nat /\
    (mayRearm cfg s' ->
     m_sendEvent s' = Some (nextUid s) /\
     queue s' =
       insertEvent (mkSimEvent (now s + interval) (nextUid s)) (queue s) /\
     In (SimSchedule interval (nextUid s)) calls /\
     scheduleDelays calls = [interval]) /\
    (~ mayRearm cfg s' ->
     queue s' = queue s /\ m_sendEvent s' = m_sendEvent s /\
     scheduleDelays calls = []).
Proof.
  intros Hsend.
  destruct (Send_inv _ _ _ _ Hsend)
    as (sk & interval & Hsk & Hexp & Hint & Hs' & Hcalls).
  set (s3 := set_intervalDraws (S (intervalDraws s)) (fst (transmit cfg s sk))) in *.
  destruct (transmit_frame cfg s sk)
    as (Hsent & Hprio & Hev & _ & Hnow & Hq & Huid & sk' & Hsk' & Hcl & _).
  destruct (transmit_calls cfg s sk) as (Hcount & _).
  destruct (armNext_frame cfg interval s3)
    as (Hsent' & Hprio' & Hsock' & _ & _ & Hnow').
  destruct (armNext_calls cfg interval s3) as (Hcount' & _).
  exists sk, interval.
  split; [exact Hsk|]. split; [exact Hexp|]. split; [exact Hint|].
  rewrite Hs', Hcalls.
  split; [rewrite Hsent'; exact Hsent|].
  split; [rewrite Hprio'; exact Hprio|].
  split; [rewrite Hnow'; exact Hnow|].
  split; [exists sk'; rewrite Hsock'; auto|].
  split; [rewrite countCalls_app, Hcount, Hcount'; reflexivity|].
  assert (Hiff : mayRearm cfg (fst (armNext cfg interval s3)) <-> mayRearm cfg s3)
    by (unfold mayRearm; rewrite Hsent'; tauto).
  split; intros Harm.
  - apply Hiff in Harm. rewrite (armNext_armed _ _ _ Harm). cbn [fst snd].
    unfold s3. cbn. rewrite Huid, Hnow, Hq.
    split; [reflexivity|]. split; [reflexivity|].
    split; [apply in_or_app; right; now left|].
    now rewrite scheduleDelays_app, transmit_no_schedule.
  - rewrite Hiff in Harm. rewrite (armNext_quiescent _ _ _ Harm). cbn [fst snd].
    unfold s3. cbn. split; [exact Hq|]. split; [exact Hev|].
    rewrite app_nil_r. apply transmit_no_schedule.
Qed.

(** C6.  On a running client whose draws are valid, [Send] returns
    whatever the socket answers, a refusal included: the sent counter has
    grown by exactly one, the next interval is the one computed from the
    sample, and the next [Send] is armed after it exactly when line 233
    allows another packet.  Two runs of [Send] that differ only in the
    answers of the socket end in the same state and make the same calls
    apart from the reports of the outcome, an error being logged for a
    refusal; on any state at all they return alike or fail alike. *)
Theorem sent_counter_ignores_transport :
  (forall (cfg : Config) (f : nat -> Z) (s : State) (sk : Socket),
     validDraws cfg ->
     m_socket s = Some sk -> IsExpired (m_sendEvent s) s = true ->
     exists s' calls calls' interval,
       Send cfg s = Done (s', calls) /\
       Send (withSendResult f cfg) s = Done (s', calls') /\
       nextInterval cfg (uniformForInterval cfg (intervalDraws s))
         = Done interval /\
       m_sent s' = m_sent s + 1 /\
       countCalls isSockSend calls' = 1%nat /\
       withoutReports calls = withoutReports calls' /\
       (f (sk_sendCalls sk) < 0 -> In (LogError (m_size cfg)) calls') /\
       (0 <= f (sk_sendCalls sk) -> In (TxTrace (m_size cfg)) calls') /\
       (mayRearm cfg s' ->
        isPending (m_sendEvent s') (queue s') = true /\
        queue s' =
          insertEvent (mkSimEvent (now s + interval) (nextUid s)) (queue s) /\
        In (SimSchedule interval (nextUid s)) calls') /\
       (~ mayRearm cfg s' ->
        isPending (m_sendEvent s') (queue s') = false /\
        queue s' = queue s /\ scheduleDelays calls' = [])) /\
  (forall (cfg : Config) (f : nat -> Z) (s : State),
     match Send cfg s, Send (withSendResult f cfg) s with
     | Done (s1, calls1), Done (s2, calls2) =>
         m_sent s1 = m_sent s + 1 /\ s1 = s2 /\
         withoutReports calls1 = withoutReports calls2
     | Abort f1, Abort f2 => f1 = f2
     | _, _ => False
     end).
Proof.
  assert (Hcmp : forall (cfg : Config) (f : nat -> Z) (s : State),
     match Send cfg s, Send (withSendResult f cfg) s with
     | Done (s1, calls1), Done (s2, calls2) =>
         m_sent s1 = m_sent s + 1 /\ s1 = s2 /\
         withoutReports calls1 = withoutReports calls2
     | Abort f1, Abort f2 => f1 = f2
     | _, _ => False
     end).
  { intros cfg f s. unfold Send.
    destruct (IsExpired (m_sendEvent s) s); cbn [assert bind]; [|reflexivity].
    destruct (m_socket s) as [sk|]; [|reflexivity].
    destruct (Send_withSendResult_unfold cfg f s sk) as [Hst Hcalls].
    destruct (transmit_frame cfg s sk) as (Hsent & _).
    destruct (transmit (withSendResult f cfg) s sk) as [s2' calls'].
    destruct (transmit cfg s sk) as [s2 calls]. cbn [fst snd] in *. subst s2'.
    change (nextInterval (withSendResult f cfg)) with (nextInterval cfg).
    change (uniformForInterval (withSendResult f cfg)) with (uniformForInterval cfg).
    destruct (nextInterval cfg _) as [interval|fl]; cbn [bind]; [|reflexivity].
    change (armNext (withSendResult f cfg)) with (armNext cfg).
    pose proof (armNext_frame cfg interval
                  (set_intervalDraws (S (intervalDraws s2)) s2)) as (Hsent' & _).
    destruct (armNext cfg interval _) as [s4 calls3]. cbn [fst] in Hsent'.
    split; [rewrite Hsent'; exact Hsent|]. split; [reflexivity|].
    rewrite !withoutReports_app. now rewrite Hcalls. }
  split; [|exact Hcmp].
  intros cfg f s sk Hv Hsk Hexp.
  destruct (Send_ok cfg s sk Hv Hsk Hexp) as (k & _ & Hint & Hsend).
  cbn zeta in Hsend.
  specialize (Hcmp cfg f s). rewrite Hsend in Hcmp.
  destruct (Send (withSendResult f cfg) s) as [[s2 calls2]|] eqn:Hsend2;
    [|contradiction].
  destruct Hcmp as (Hsent & <- & Hcalls).
  eexists. eexists. exists calls2, (k * m_timeSlot cfg).
  split; [exact Hsend|]. split; [reflexivity|]. split; [exact Hint|].
  split; [exact Hsent|].
  destruct (Send_post _ _ _ _ Hsend2)
    as (sk2 & interval2 & Hsk2 & _ & Hint2 & _ & _ & _ & _ & Hcount & Harm
        & Hquiet).
  change (nextInterval (withSendResult f cfg)) with (nextInterval cfg) in Hint2.
  change (uniformForInterval (withSendResult f cfg)) with (uniformForInterval cfg)
    in Hint2.
  rewrite Hint in Hint2. injection Hint2 as <-.
  assert (sk2 = sk) by congruence. subst sk2.
  split; [exact Hcount|]. split; [exact Hcalls|].
  destruct (Send_inv _ _ _ _ Hsend2) as (sk3 & i3 & Hsk3 & _ & _ & _ & Hc2).
  assert (sk3 = sk) by congruence. subst sk3.
  destruct (transmit_reports (withSendResult f cfg) s sk) as [Hneg Hpos].
  cbn [socketSendResult withSendResult m_size] in Hneg, Hpos.
  split; [intros H; rewrite Hc2; apply in_or_app; left; now apply Hneg|].
  split; [intros H; rewrite Hc2; apply in_or_app; left; now apply Hpos|].
  change (mayRearm (withSendResult f cfg)) with (mayRearm cfg) in Harm, Hquiet.
  split.
  - intros H. destruct (Harm H) as (Hev & Hq & Hin & _).
    split; [|split; assumption].
    rewrite Hev, Hq. apply (isPending_insert (mkSimEvent _ (nextUid s))).
  - intros H. destruct (Hquiet H) as (Hq & Hev & Hnone).
    split; [|split; assumption].
    rewrite Hq, Hev. unfold IsExpired in Hexp.
    now destruct (isPending (m_sendEvent s) (queue s)).
Qed.

Lemma sent_counter_ignores_transport_witness :
  validDraws (sampleConfig 3 0 0) /\
  m_socket firingState = Some newSocket /\
  IsExpired (m_sendEvent firingState) firingState = true /\
  exists s' calls,
    Send (refusedConfig 3) firingState = Done (s', calls) /\
    m_sent s' = 1 /\
    In (LogError 1500) calls /\ In (SimSchedule 18000 1) calls.
Proof.
  split; [apply sampleConfig_valid|]. split; [reflexivity|].
  split; [reflexivity|].
  destruct (proj1 sent_counter_ignores_transport (sampleConfig 3 0 0)
              (fun _ => -1) firingState newSocket (sampleConfig_valid 3 0 0)
              eq_refl firingState_expired)
    as (s' & calls & calls' & interval & _ & Hsend & Hint & Hsent & _ & _
        & Hneg & _ & Harm & _).
  exists s', calls'. split; [exact Hsend|]. split; [exact Hsent|].
  split; [apply Hneg; reflexivity|].
  cbn [intervalDraws firingState uniformForInterval sampleConfig] in Hint.
  rewrite sampleConfig_interval in Hint. injection Hint as <-.
  apply Harm. right. rewrite Hsent. reflexivity.
Defined.

(** C9, as stated, fails: with probability 0, which is below 1, the first
    assertion passes and the second one, [numInterval > 0], fails; the
    interval computation is not completed. *)
Lemma zero_probability_aborts :
  ~ (forall (cfg : Config) (u : R),
       stdLog cfg 1 = Fin 0 ->
       (exists l, stdLog cfg u = Fin l /\ (l < 0)%R) ->
       (m_bernoulliPr cfg < 1)%R -> (0 < u < 1)%R ->
       exists interval, nextInterval cfg u = Done interval).
Proof.
  intros H.
  assert (Hb : (0 < bpow (-54))%R) by apply bpow_pos.
  destruct sampleLog_half as (l & Hl & Hneg).
  destruct (H (mkConfig 0 9000 0 1500 0 0 (fun _ => (1 / 2)%R)
                 (fun _ => (1 / 2)%R) (fun _ => 0) sampleLog) (1 / 2)%R)
    as [interval Hi].
  - apply sampleLog_one.
  - exists l. split; assumption.
  - cbn; lra.
  - lra.
  - rewrite (nextInterval_tiny _ _ l) in Hi;
      [discriminate|cbn [m_bernoulliPr]; lra|apply sampleLog_one|exact Hl|exact Hneg].
Qed.

Lemma Send_aborts (cfg : Config) (s : State) (f : Failure) :
  nextInterval cfg (uniformForInterval cfg (intervalDraws s)) = Abort f ->
  exists f', Send cfg s = Abort f'.
Proof.
  intros Hi. unfold Send.
  destruct (IsExpired (m_sendEvent s) s) eqn:Hexp; cbn [assert bind]; [|eauto].
  destruct (m_socket s) as [sk|] eqn:Hsk; [|eauto].
  pose proof (Send_unfold cfg s sk Hsk Hexp) as Hu. unfold Send in Hu.
  rewrite Hexp, Hsk in Hu. cbn [assert bind] in Hu. rewrite Hu. cbn zeta.
  rewrite Hi. cbn. eauto.
Qed.

(** C9, amended.  The interval computation fails on the assertion
    [m_bernoulliPr < 1] whenever the probability is 1 or more, and then no
    [Send] returns.  Below 1 the second assertion can still fail: for a
    probability from 0 to 2^-54 the double [1 - p] is 1, its logarithm is
    0, and with a negative logarithm of the sample [numInterval] is minus
    infinity, so that [numInterval > 0] fails and no [Send] returns.  For
    a probability above 2^-54 and below 1 the double [1 - p] is below 1,
    and when [std::log] is finite and negative at the sample and at that
    double, with a quotient of at most 2^52 and an interval that fits a
    [Time], no assertion fails and the interval is computed, so that a
    [Send] that finds its socket and no pending event returns. *)
Theorem interval_assertions (cfg : Config) (u : R) :
  ((1 <= m_bernoulliPr cfg)%R ->
   nextInterval cfg u = Abort BernoulliPrNotBelowOne /\
   forall s, exists f, Send cfg s = Abort f) /\
  ((0 <= m_bernoulliPr cfg <= bpow (-54))%R ->
   forall l,
     stdLog cfg 1 = Fin 0 -> stdLog cfg u = Fin l -> (l < 0)%R ->
     nextInterval cfg u = Abort NumIntervalNotPositive /\
     forall s,
       uniformForInterval cfg (intervalDraws s) = u ->
       exists f, Send cfg s = Abort f) /\
  ((bpow (-54) < m_bernoulliPr cfg < 1)%R ->
   exists q,
     dsub 1 (m_bernoulliPr cfg) = Fin q /\ (0 <= q < 1)%R /\
     forall lu lq,
       stdLog cfg u = Fin lu -> stdLog cfg q = Fin lq ->
       (lu < 0)%R -> (lq < 0)%R -> (lu / lq <= bpow 52)%R ->
       fitsTime (slotsOf (roundFinite (lu / lq)) * m_timeSlot cfg) = true ->
       nextInterval cfg u
         = Done (slotsOf (roundFinite (lu / lq)) * m_timeSlot cfg) /\
       forall s sk,
         uniformForInterval cfg (intervalDraws s) = u ->
         m_socket s = Some sk -> IsExpired (m_sendEvent s) s = true ->
         exists s' calls, Send cfg s = Done (s', calls)).
Proof.
  split; [|split].
  - intros Hp. split; [now apply nextInterval_pr_ge_1|].
    intros s. apply (Send_aborts cfg s BernoulliPrNotBelowOne).
    now apply nextInterval_pr_ge_1.
  - intros Hp l H1 Hu Hl.
    pose proof (nextInterval_tiny cfg u l Hp H1 Hu Hl) as Hi.
    split; [exact Hi|]. intros s Hdraw.
    apply (Send_aborts cfg s NumIntervalNotPositive). now rewrite Hdraw.
  - intros Hp. destruct (dsub_one_below (m_bernoulliPr cfg)) as (q & Hq & Hb);
      [lra|].
    exists q. split; [exact Hq|]. split; [exact Hb|].
    intros lu lq Hu Hlq Hlu0 Hlq0 Hquot Hfit.
    destruct (logQuotient_negatives cfg u q lu lq Hq Hu Hlq Hlu0 Hlq0 Hquot)
      as [HQ HQb].
    assert (Hi : nextInterval cfg u
                 = Done (slotsOf (roundFinite (lu / lq)) * m_timeSlot cfg))
      by (apply nextInterval_quotient; [lra|assumption..]).
    split; [exact Hi|].
    intros s sk Hdraw Hsk Hexp.
    rewrite (Send_unfold cfg s sk Hsk Hexp). cbn zeta.
    rewrite Hdraw, Hi. cbn [bind]. eauto.
Qed.

Lemma interval_assertions_witness :
  (bpow (-54) < m_bernoulliPr (sampleConfig 3 0 0) < 1)%R /\
  nextInterval (sampleConfig 3 0 0) (1 / 2) = Done 18000.
Proof.
  assert (Hp : (bpow (-54) < m_bernoulliPr (sampleConfig 3 0 0) < 1)%R).
  { cbn [m_bernoulliPr sampleConfig]. split; [|lra].
    apply (Rlt_le_trans _ (bpow (-1))); [apply bpow_lt; lia|].
    change (bpow (-1)) with (/ (2 * 1))%R.
    replace (/ (2 * 1))%R with (1 / 2)%R by field. lra. }
  split; [exact Hp|].
  destruct (interval_assertions (sampleConfig 3 0 0) (1 / 2)) as (_ & _ & H).
  destruct (H Hp) as (q & Hq & _ & Hrun).
  cbn [m_bernoulliPr sampleConfig] in Hq. rewrite dsub_one_half in Hq.
  injection Hq as <-.
  destruct sampleLog_half as (l & Hl & Hneg).
  assert (E : (l / l)%R = 1%R) by (field; lra).
  assert (Er : roundFinite (l / l) = 1%R)
    by (rewrite E; apply (roundFinite_small_int 1); cbn; lia).
  destruct (Hrun l l Hl Hl Hneg Hneg) as [Hi _].
  - rewrite E, (bpow_IZR 52) by lia. apply (IZR_le 1). cbn. lia.
  - rewrite Er, slotsOf_one. reflexivity.
  - rewrite Er, slotsOf_one in Hi. exact Hi.
Defined.

(** *** The scheduler's loop *)

Lemma lifecycle_closed (s s' : State) (sk sk' : Socket) :
  m_socket s = Some sk -> m_socket s' = Some sk' ->
  sk_closed sk' = sk_closed sk -> lifecycle s' = lifecycle s.
Proof. intros H H' Hc. unfold lifecycle. now rewrite H, H', Hc. Qed.

Lemma mayRearm_dec (cfg : Config) (s : State) :
  {mayRearm cfg s} + {~ mayRearm cfg s}.
Proof.
  destruct ((m_sent s <? m_maxPackets cfg) || (m_maxPackets cfg =? 0)) eqn:E.
  - left. now apply mayRearm_spec.
  - right. intros H. apply mayRearm_spec in H. congruence.
Qed.

Lemma exec_cons (cfg : Config) (op : Op) (ops : list Op) (s s1 s2 : State)
  (calls1 calls2 : list Call) :
  perform cfg op s = Done (s1, calls1) ->
  exec cfg ops s1 = Done (s2, calls2) ->
  exec cfg (op :: ops) s = Done (s2, calls1 ++ calls2).
Proof. intros H1 H2. cbn [exec]. rewrite H1. cbn. now rewrite H2. Qed.

Lemma exec_inv (cfg : Config) (op : Op) (ops : list Op) (s s' : State)
  (calls : list Call) :
  exec cfg (op :: ops) s = Done (s', calls) ->
  exists s1 calls1 calls2,
    perform cfg op s = Done (s1, calls1) /\
    exec cfg ops s1 = Done (s', calls2) /\
    calls = calls1 ++ calls2.
Proof.
  intros Hdone. cbn [exec] in Hdone.
  destruct (perform cfg op s) as [[s1 calls1]|f] eqn:H1; [|discriminate].
  cbn [bind fst snd] in Hdone.
  destruct (exec cfg ops s1) as [[s2 calls2]|f] eqn:H2; [|discriminate].
  cbn [bind fst snd] in Hdone. injection Hdone as <- <-.
  exists s1, calls1, calls2. repeat split. exact H2.
Qed.

(** One turn of the loop that returns, on a running client with its
    [Send] pending. *)
Lemma event_turn_inv (cfg : Config) (s s' : State) (e : SimEvent) (sk : Socket)
  (calls : list Call) :
  m_socket s = Some sk -> sk_closed sk = false -> queue s = [e] ->
  processOneEvent cfg s = Done (s', calls) ->
  exists k,
    1 <= k /\
    m_sent s' = m_sent s + 1 /\
    m_priority s' = m_priority s /\
    countCalls isSockSend calls = 1%nat /\
    runningInv cfg s' /\
    (mayRearm cfg s' ->
     scheduleDelays calls = [k * m_timeSlot cfg] /\
     timeline s' = ev_ts e + k * m_timeSlot cfg) /\
    (~ mayRearm cfg s' ->
     scheduleDelays calls = [] /\ timeline s' = ev_ts e).
Proof.
  intros Hsk Hopen Hq Hstep. unfold processOneEvent in Hstep.
  rewrite Hq in Hstep.
  destruct (Send_post _ _ _ _ Hstep)
    as (sk0 & interval & Hsk0 & _ & Hint & Hsent & Hprio & Hnow
        & (sk' & Hsk' & Hcl) & Hcount & Harm & Hquiet).
  cbn [m_socket m_sent m_priority now queue nextUid set_now set_queue] in *.
  assert (sk0 = sk) by congruence. subst sk0.
  destruct (nextInterval_inv _ _ _ Hint) as (_ & k & Hk & _ & ->).
  exists k. split; [exact Hk|]. split; [exact Hsent|]. split; [exact Hprio|].
  split; [exact Hcount|]. split; [|split].
  - split; [exists sk'; split; [assumption|congruence]|]. split.
    + intros H. destruct (Harm H) as (Hev & Hqueue & _).
      eexists. split; [exact Hqueue|exact Hev].
    + intros H. exact (proj1 (Hquiet H)).
  - intros H. destruct (Harm H) as (_ & Hqueue & _ & Hd).
    split; [exact Hd|]. unfold timeline. rewrite Hqueue. reflexivity.
  - intros H. destruct (Hquiet H) as (Hqueue & _ & Hd).
    split; [exact Hd|]. unfold timeline. rewrite Hqueue. exact Hnow.
Qed.

(** With valid draws that turn returns. *)
Lemma event_turn (cfg : Config) (s : State) (e : SimEvent) (sk : Socket) :
  validDraws cfg -> m_socket s = Some sk -> queue s = [e] ->
  exists s' calls, processOneEvent cfg s = Done (s', calls).
Proof.
  intros Hv Hsk Hq. unfold processOneEvent. rewrite Hq.
  set (s0 := set_now (ev_ts e) (set_queue [] s)).
  assert (Hexp : IsExpired (m_sendEvent s0) s0 = true)
    by (unfold IsExpired; cbn; now destruct (m_sendEvent s)).
  destruct (Send_ok cfg s0 sk Hv Hsk Hexp) as (k & _ & _ & Hsend).
  cbn zeta in Hsend. eauto.
Qed.

(** Any number of turns of the loop on a running client, when they
    return. *)
Lemma run_turns_inv (cfg : Config) :
  0 <= m_maxPackets cfg ->
  forall (n : nat) (s s' : State) (calls : list Call),
    runningInv cfg s -> (0 < m_maxPackets cfg -> m_sent s <= m_maxPackets cfg) ->
    exec cfg (repeat OpEvent n) s = Done (s', calls) ->
    runningInv cfg s' /\
    m_priority s' = m_priority s /\
    m_sent s' = sentAfter cfg (m_sent s) n /\
    Z.of_nat (countCalls isSockSend calls) = m_sent s' - m_sent s /\
    timeline s' = timeline s + DelayDecomposition.Zsum (scheduleDelays calls) /\
    Forall (wholeSlots cfg) (scheduleDelays calls).
Proof.
  intros Hmax. induction n as [|n IH]; intros s s' calls Hinv Hle Hrun.
  - injection Hrun as <- <-. split; [exact Hinv|]. split; [reflexivity|].
    split.
    { unfold sentAfter. destruct (Z.eqb_spec (m_maxPackets cfg) 0); [lia|].
      assert (m_sent s <= m_maxPackets cfg) by (apply Hle; lia). lia. }
    split; [cbn; lia|]. split; [cbn; lia|constructor].
  - cbn [repeat] in Hrun.
    destruct (exec_inv _ _ _ _ _ _ Hrun) as (s1 & calls1 & calls2 & Hstep & Hrest & ->).
    cbn [perform] in Hstep.
    destruct (mayRearm_dec cfg s) as [Harm|Hquiet].
    + destruct Hinv as ((sk & Hsk & Hopen) & Hq & _).
      destruct (Hq Harm) as (e & Hqueue & _).
      destruct (event_turn_inv cfg s s1 e sk calls1 Hsk Hopen Hqueue Hstep)
        as (k & Hk & Hsent & Hprio & Hcount & Hinv1 & Harmed & Hstill).
      assert (Hlt : 0 < m_maxPackets cfg -> m_sent s1 <= m_maxPackets cfg)
        by (destruct Harm; lia).
      destruct (IH s1 s' calls2 Hinv1 Hlt Hrest)
        as (Hinv2 & Hprio2 & Hsent2 & Hcount2 & Htime2 & Hall2).
      split; [assumption|]. split; [congruence|].
      split.
      { rewrite Hsent2, Hsent. unfold sentAfter.
        destruct (Z.eqb_spec (m_maxPackets cfg) 0); lia. }
      split; [rewrite countCalls_app; lia|].
      rewrite scheduleDelays_app, Zsum_app.
      assert (Ht : timeline s = ev_ts e) by (unfold timeline; now rewrite Hqueue).
      destruct (mayRearm_dec cfg s1) as [H1|H1].
      * destruct (Harmed H1) as [Hd Ht1]. rewrite Hd. split.
        -- rewrite Htime2, Ht1, Ht. unfold DelayDecomposition.Zsum.
           cbn [fold_right]. lia.
        -- apply Forall_app. split; [|assumption].
           constructor; [|constructor]. now exists k.
      * destruct (Hstill H1) as [Hd Ht1]. rewrite Hd. split.
        -- rewrite Htime2, Ht1, Ht. unfold DelayDecomposition.Zsum.
           cbn [fold_right]. lia.
        -- apply Forall_app. split; [constructor|assumption].
    + destruct Hinv as (Hsock & Harmed & Hq).
      pose proof (Hq Hquiet) as Hqueue.
      unfold processOneEvent in Hstep. rewrite Hqueue in Hstep.
      injection Hstep as <- <-.
      destruct (IH s s' calls2 (conj Hsock (conj Harmed Hq)) Hle Hrest)
        as (Hinv2 & Hprio2 & Hsent2 & Hcount2 & Htime2 & Hall2).
      cbn [app]. repeat split; try assumption; try apply Hinv2.
      rewrite Hsent2. unfold sentAfter, mayRearm in *.
      destruct (Z.eqb_spec (m_maxPackets cfg) 0); lia.
Qed.

(** With valid draws they return. *)
Lemma run_returns (cfg : Config) :
  validDraws cfg ->
  forall (n : nat) (s : State),
    runningInv cfg s ->
    exists s' calls, exec cfg (repeat OpEvent n) s = Done (s', calls).
Proof.
  intros Hv. induction n as [|n IH]; intros s Hinv.
  - exists s, []. reflexivity.
  - destruct (mayRearm_dec cfg s) as [Harm|Hquiet].
    + pose proof Hinv as ((sk & Hsk & Hopen) & Hq & _).
      destruct (Hq Harm) as (e & Hqueue & _).
      destruct (event_turn cfg s e sk Hv Hsk Hqueue) as (s1 & calls1 & Hstep).
      destruct (event_turn_inv cfg s s1 e sk calls1 Hsk Hopen Hqueue Hstep)
        as (_ & _ & _ & _ & _ & Hinv1 & _).
      destruct (IH s1 Hinv1) as (s2 & calls2 & Hrest).
      exists s2, (calls1 ++ calls2).
      exact (exec_cons cfg OpEvent _ _ _ _ _ _ Hstep Hrest).
    + pose proof Hinv as (_ & _ & Hq).
      assert (Hstep : perform cfg OpEvent s = Done (s, []))
        by (cbn; unfold processOneEvent; now rewrite (Hq Hquiet)).
      destruct (IH s Hinv) as (s2 & calls2 & Hrest).
      exists s2, ([] ++ calls2).
      exact (exec_cons cfg OpEvent _ _ _ _ _ _ Hstep Hrest).
Qed.

Lemma StartApplication_fresh (priority : Z) :
  exists calls,
    StartApplication (SetRemote (construct priority)) =
      Done (mkState priority 0
              (Some (if priority =? 0 then newSocket
                     else sockSetPriority priority newSocket))
              (Some 0) true 0 0 0 [mkSimEvent 0 0] 1, calls) /\
    countCalls isSockSend calls = 0%nat /\
    scheduleDelays calls = [].
Proof.
  unfold StartApplication, SetRemote, construct. cbn.
  destruct (priority =? 0); eexists; repeat split; reflexivity.
Qed.

Lemma StopApplication_post (s : State) (sk : Socket) :
  m_socket s = Some sk ->
  StopApplication s =
    Done (set_socket (Some (sockClose sk)) (Cancel (m_sendEvent s) s),
          [SimCancel (m_sendEvent s); SockClose]).
Proof. intros H. unfold StopApplication. cbn. now rewrite H. Qed.

(** The client once started: running, nothing sent, one [Send] pending
    at time 0. *)
Lemma started_runningInv (cfg : Config) (priority : Z) :
  0 <= m_maxPackets cfg ->
  runningInv cfg
    (mkState priority 0
       (Some (if priority =? 0 then newSocket
              else sockSetPriority priority newSocket))
       (Some 0) true 0 0 0 [mkSimEvent 0 0] 1).
Proof.
  intros Hmax. split; [|split].
  - eexists. split; [reflexivity|]. now destruct (priority =? 0).
  - intros _. eexists. split; reflexivity.
  - intros H. exfalso. apply H. unfold mayRearm. cbn. lia.
Qed.

(** A new client, started, [n] turns later, when the run returns. *)
Lemma started_turns_inv (cfg : Config) (priority : Z) (n : nat)
  (s' : State) (calls : list Call) :
  0 <= m_maxPackets cfg ->
  exec cfg (OpStart :: repeat OpEvent n) (SetRemote (construct priority))
    = Done (s', calls) ->
  runningInv cfg s' /\
  m_sent s' = sentAfter cfg 0 n /\
  Z.of_nat (countCalls isSockSend calls) = m_sent s' /\
  timeline s' = DelayDecomposition.Zsum (scheduleDelays calls) /\
  Forall (wholeSlots cfg) (scheduleDelays calls).
Proof.
  intros Hmax Hrun.
  destruct (StartApplication_fresh priority) as (calls0 & Hstart & Hcount0 & Hd0).
  destruct (exec_inv _ _ _ _ _ _ Hrun) as (s1 & calls1 & calls2 & Hstep & Hrest & ->).
  cbn [perform] in Hstep. rewrite Hstart in Hstep. injection Hstep as <- <-.
  destruct (run_turns_inv cfg Hmax n _ s' calls2
              (started_runningInv cfg priority Hmax) ltac:(cbn; lia) Hrest)
    as (Hinv & _ & Hsent & Hcount & Htime & Hall).
  cbn [m_sent timeline queue ev_ts] in Hsent, Hcount, Htime.
  split; [assumption|]. split; [assumption|].
  split; [rewrite countCalls_app; lia|].
  rewrite scheduleDelays_app, Hd0. cbn [app].
  split; [rewrite Htime; reflexivity|assumption].
Qed.

(** With valid draws that run returns. *)
Lemma started_returns (cfg : Config) (priority : Z) (n : nat) :
  validDraws cfg -> 0 <= m_maxPackets cfg ->
  exists s' calls,
    exec cfg (OpStart :: repeat OpEvent n) (SetRemote (construct priority))
      = Done (s', calls).
Proof.
  intros Hv Hmax.
  destruct (StartApplication_fresh priority) as (calls0 & Hstart & _).
  destruct (run_returns cfg Hv n _ (started_runningInv cfg priority Hmax))
    as (s' & calls & Hrun).
  exists s', (calls0 ++ calls).
  exact (exec_cons cfg OpStart _ _ _ _ _ _ Hstart Hrun).
Qed.

(** A freshly started client, [n] turns of the loop later. *)
Lemma started_run (cfg : Config) (priority : Z) (n : nat) :
  validDraws cfg -> 0 < m_maxPackets cfg ->
  exists s' calls,
    exec cfg (OpStart :: repeat OpEvent n) (SetRemote (construct priority))
      = Done (s', calls) /\
    runningInv cfg s' /\
    m_sent s' = Z.min (Z.of_nat n) (m_maxPackets cfg) /\
    Z.of_nat (countCalls isSockSend calls) = m_sent s'.
Proof.
  intros Hv Hmax.
  destruct (started_returns cfg priority n Hv ltac:(lia)) as (s' & calls & Hrun).
  destruct (started_turns_inv cfg priority n s' calls ltac:(lia) Hrun)
    as (Hinv & Hsent & Hcount & _).
  exists s', calls. split; [exact Hrun|]. split; [exact Hinv|].
  split; [|exact Hcount].
  rewrite Hsent. unfold sentAfter.
  destruct (Z.eqb_spec (m_maxPackets cfg) 0); [lia|reflexivity].
Qed.

(** C5.  A [Send] that returns has computed an interval and has a pending
    next [Send] exactly when [maxPackets] is 0 or the sent counter is
    still below [maxPackets]; that event is then due at the current time
    plus the interval.  With valid draws a [Send] on a running client does
    return, and with [maxPackets = 3] the started client has, after [n]
    turns of the scheduler that return, sent [min n 3] packets; from the
    third turn on nothing is pending any more, and the client is still
    running: it is stopped only by [StopApplication]; with valid draws
    those turns do return. *)
Theorem rearm_until_max_packets :
  (forall (cfg : Config) (s s' : State) (calls : list Call),
     Send cfg s = Done (s', calls) ->
     exists interval,
       nextInterval cfg (uniformForInterval cfg (intervalDraws s))
         = Done interval /\
       m_sent s' = m_sent s + 1 /\
       lifecycle s' = lifecycle s /\
       (isPending (m_sendEvent s') (queue s') = true <-> mayRearm cfg s') /\
       (mayRearm cfg s' ->
        m_sendEvent s' = Some (nextUid s) /\
        queue s' =
          insertEvent (mkSimEvent (now s + interval) (nextUid s)) (queue s)) /\
       (~ mayRearm cfg s' -> queue s' = queue s)) /\
  (forall (cfg : Config) (s : State) (sk : Socket),
     validDraws cfg ->
     m_socket s = Some sk -> IsExpired (m_sendEvent s) s = true ->
     exists s' calls, Send cfg s = Done (s', calls)) /\
  (forall (cfg : Config) (priority : Z) (n : nat),
     m_maxPackets cfg = 3 ->
     (forall s' calls,
        exec cfg (OpStart :: repeat OpEvent n) (SetRemote (construct priority))
          = Done (s', calls) ->
        m_sent s' = Z.min (Z.of_nat n) 3 /\
        countCalls isSockSend calls = Nat.min n 3 /\
        ((3 <= n)%nat ->
         queue s' = [] /\ IsExpired (m_sendEvent s') s' = true) /\
        lifecycle s' = Running /\
        exists s'' calls',
          StopApplication s' = Done (s'', calls') /\ lifecycle s'' = Stopped) /\
     (validDraws cfg ->
      exists s' calls,
        exec cfg (OpStart :: repeat OpEvent n) (SetRemote (construct priority))
          = Done (s', calls))).
Proof.
  split; [|split].
  - intros cfg s s' calls Hsend.
    destruct (Send_post _ _ _ _ Hsend)
      as (sk & interval & Hsk & Hexp & Hint & Hsent & _ & _ & (sk' & Hsk' & Hcl)
          & _ & Harm & Hquiet).
    exists interval. split; [assumption|]. split; [assumption|].
    split; [exact (lifecycle_closed _ _ _ _ Hsk Hsk' Hcl)|].
    split; [|split].
    + split.
      * intros Hpend. destruct (mayRearm_dec cfg s') as [H|H]; [assumption|].
        destruct (Hquiet H) as (Hq & Hev & _). rewrite Hq, Hev in Hpend.
        unfold IsExpired in Hexp. rewrite Hpend in Hexp. discriminate.
      * intros H. destruct (Harm H) as (-> & -> & _).
        apply (isPending_insert (mkSimEvent _ (nextUid s))).
    + intros H. destruct (Harm H) as (Hev & Hq & _). split; assumption.
    + intros H; exact (proj1 (Hquiet H)).
  - intros cfg s sk Hv Hsk Hexp.
    destruct (Send_ok cfg s sk Hv Hsk Hexp) as (k & _ & _ & Hsend).
    cbn zeta in Hsend. eauto.
  - intros cfg priority n Hmax.
    split; [|intros Hv; apply started_returns; [exact Hv|lia]].
    intros s' calls Hrun.
    destruct (started_turns_inv cfg priority n s' calls ltac:(lia) Hrun)
      as (Hinv & Hsent & Hcount & _).
    unfold sentAfter in Hsent. rewrite Hmax in Hsent. cbn [Z.eqb] in Hsent.
    split; [lia|]. split; [lia|].
    destruct Hinv as ((sk & Hsk & Hopen) & _ & Hq).
    split.
    + intros Hn.
      assert (Hqueue : queue s' = [])
        by (apply Hq; unfold mayRearm; rewrite Hmax; lia).
      split; [assumption|].
      unfold IsExpired. rewrite Hqueue. now destruct (m_sendEvent s').
    + split; [unfold lifecycle; now rewrite Hsk, Hopen|].
      eexists. eexists. split; [exact (StopApplication_post s' sk Hsk)|].
      reflexivity.
Qed.

Lemma rearm_until_max_packets_witness :
  validDraws (sampleConfig 3 0 0) /\
  m_maxPackets (sampleConfig 3 0 0) = 3 /\
  exists s' calls,
    exec (sampleConfig 3 0 0) (OpStart :: repeat OpEvent 5)
         (SetRemote (construct 0)) = Done (s', calls) /\
    m_sent s' = 3 /\ countCalls isSockSend calls = 3%nat /\
    queue s' = [] /\ lifecycle s' = Running.
Proof.
  split; [apply sampleConfig_valid|]. split; [reflexivity|].
  destruct (proj2 (proj2 rearm_until_max_packets) (sampleConfig 3 0 0) 0 5%nat
              eq_refl) as [Hinv Hret].
  destruct (Hret (sampleConfig_valid 3 0 0)) as (s' & calls & Hrun).
  destruct (Hinv s' calls Hrun) as (Hsent & Hcount & Hq & Hlife & _).
  exists s', calls. split; [exact Hrun|].
  split; [exact Hsent|]. split; [exact Hcount|].
  split; [apply Hq; lia|exact Hlife].
Defined.

Lemma removeEvent_singlePending (s : State) :
  singlePending s -> removeEvent (m_sendEvent s) (queue s) = [].
Proof.
  intros [Hq|(e & Hq & Hev)]; rewrite Hq.
  - now destruct (m_sendEvent s).
  - rewrite Hev. cbn. now rewrite Z.eqb_refl.
Qed.

Lemma idle_loop (cfg : Config) (n : nat) (s : State) :
  queue s = [] -> exec cfg (repeat OpEvent n) s = Done (s, []).
Proof.
  intros Hq. induction n as [|n IH]; [reflexivity|].
  cbn [repeat exec perform]. unfold processOneEvent. rewrite Hq.
  cbn [bind fst snd]. rewrite IH. reflexivity.
Qed.

(** C7.  On a started client with at most one pending [Send],
    [StopApplication] cancels [m_sendEvent] and closes the socket: nothing
    is pending afterwards (and the queue is untouched when nothing was),
    so however long the scheduler runs no [Send] executes, and a second
    [StopApplication] leaves the state exactly as the first one left it. *)
Theorem stop_cancels_and_is_idempotent (s : State) (sk : Socket) :
  m_socket s = Some sk -> singlePending s ->
  exists s1,
    StopApplication s = Done (s1, [SimCancel (m_sendEvent s); SockClose]) /\
    queue s1 = [] /\
    IsExpired (m_sendEvent s1) s1 = true /\
    (queue s = [] -> queue s1 = queue s) /\
    m_socket s1 = Some (sockClose sk) /\
    lifecycle s1 = Stopped /\
    m_sent s1 = m_sent s /\
    (forall (cfg : Config) (n : nat),
       exec cfg (repeat OpEvent n) s1 = Done (s1, [])) /\
    StopApplication s1 = Done (s1, [SimCancel (m_sendEvent s1); SockClose]).
Proof.
  intros Hsk Hsingle.
  pose proof (removeEvent_singlePending s Hsingle) as Hrem.
  eexists. split; [exact (StopApplication_post s sk Hsk)|].
  set (s1 := set_socket (Some (sockClose sk)) (Cancel (m_sendEvent s) s)).
  assert (Hq1 : queue s1 = []) by exact Hrem.
  split; [exact Hq1|].
  split; [unfold IsExpired; rewrite Hq1; now destruct (m_sendEvent s1)|].
  split; [intros ->; exact Hq1|].
  split; [reflexivity|]. split; [reflexivity|]. split; [reflexivity|].
  split; [intros cfg n; now apply idle_loop|].
  rewrite (StopApplication_post s1 (sockClose sk) eq_refl).
  f_equal. f_equal.
  unfold s1, set_socket, Cancel, set_queue. cbn. rewrite Hrem.
  now destruct (m_sendEvent s).
Qed.

Lemma stop_cancels_and_is_idempotent_witness :
  m_socket startedState = Some newSocket /\
  singlePending startedState /\
  exists s1,
    StopApplication startedState = Done (s1, [SimCancel (Some 0); SockClose]) /\
    queue s1 = [] /\ lifecycle s1 = Stopped /\
    StopApplication s1 = Done (s1, [SimCancel (m_sendEvent s1); SockClose]).
Proof.
  assert (Hs : singlePending startedState)
    by (right; eexists; split; reflexivity).
  split; [reflexivity|]. split; [exact Hs|].
  destruct (stop_cancels_and_is_idempotent startedState newSocket eq_refl Hs)
    as (s1 & Hstop & Hq & _ & _ & _ & Hlife & _ & _ & Hagain).
  exists s1. repeat split; assumption.
Defined.

(** The invariant of C7 holds all along the life of a started client. *)
Lemma singlePending_running (cfg : Config) (s : State) :
  runningInv cfg s -> singlePending s.
Proof.
  intros (_ & Harm & Hquiet).
  destruct (mayRearm_dec cfg s) as [H|H]; [right; exact (Harm H)|left; exact (Hquiet H)].
Qed.

(** *** No priority call for priority 0 *)

Lemma StartApplication_quiet (s s' : State) (calls : list Call) :
  m_priority s = 0 ->
  StartApplication s = Done (s', calls) ->
  m_priority s' = 0 /\ countCalls isSetPriority calls = 0%nat.
Proof.
  intros Hprio Hdone. unfold StartApplication in Hdone.
  destruct (m_peerAddressSet s); [|discriminate]. cbn [assert bind] in Hdone.
  rewrite Hprio in Hdone. cbn [Z.eqb] in Hdone.
  destruct (m_socket s); cbn in Hdone; injection Hdone as <- <-;
    split; [exact Hprio|reflexivity|exact Hprio|reflexivity].
Qed.

Lemma perform_quiet (cfg : Config) (op : Op) (s s' : State) (calls : list Call) :
  m_optionalTid cfg = 0 -> m_priority s = 0 ->
  perform cfg op s = Done (s', calls) ->
  m_priority s' = 0 /\ countCalls isSetPriority calls = 0%nat.
Proof.
  intros Hopt Hprio Hdone. destruct op; cbn [perform] in Hdone.
  - exact (StartApplication_quiet s s' calls Hprio Hdone).
  - unfold processOneEvent in Hdone.
    destruct (queue s) as [|e q]; [injection Hdone as <- <-; auto|].
    destruct (Send_inv _ _ _ _ Hdone) as (sk & interval & Hsk & _ & _ & Hs' & Hcalls).
    cbn [intervalDraws set_now set_queue] in Hs', Hcalls.
    set (s0 := set_now (ev_ts e) (set_queue q s)) in *.
    set (s3 := set_intervalDraws _ (fst (transmit cfg s0 sk))) in *.
    destruct (transmit_frame cfg s0 sk) as (_ & Hp & _).
    destruct (armNext_frame cfg interval s3) as (_ & Hp' & _).
    destruct (transmit_calls cfg s0 sk) as (_ & Heq & _).
    destruct (armNext_calls cfg interval s3) as (_ & Hset & _).
    destruct (Heq ltac:(cbn; congruence)) as (_ & Hnone & _).
    rewrite Hs', Hcalls, countCalls_app, Hset, Hnone, Hp'.
    split; [|reflexivity]. unfold s3. cbn [m_priority set_intervalDraws].
    rewrite Hp. exact Hprio.
  - unfold StopApplication in Hdone. cbn in Hdone.
    destruct (m_socket s); [|discriminate].
    injection Hdone as <- <-. split; [exact Hprio|reflexivity].
Qed.

Lemma exec_quiet (cfg : Config) (ops : list Op) :
  m_optionalTid cfg = 0 ->
  forall (s s' : State) (calls : list Call),
    m_priority s = 0 ->
    exec cfg ops s = Done (s', calls) ->
    countCalls isSetPriority calls = 0%nat.
Proof.
  intros Hopt. induction ops as [|op ops IH]; intros s s' calls Hprio Hdone.
  - injection Hdone as <- <-. reflexivity.
  - cbn [exec] in Hdone.
    destruct (perform cfg op s) as [[s1 calls1]|f] eqn:Hstep; [|discriminate].
    cbn [bind fst snd] in Hdone.
    destruct (exec cfg ops s1) as [[s2 calls2]|f] eqn:Hrest; [|discriminate].
    cbn [bind fst snd] in Hdone. injection Hdone as <- <-.
    destruct (perform_quiet cfg op s s1 calls1 Hopt Hprio Hstep) as [Hprio1 Hc1].
    rewrite countCalls_app, Hc1.
    exact (IH s1 s2 calls2 Hprio1 Hrest).
Qed.

(** C10.  When the optional class equals the primary one a [Send] makes no
    priority call and leaves the socket's priority as it was; when the
    primary priority is 0, [StartApplication] makes no priority call
    either; so a client configured with priority 0 and optional class 0
    makes no priority call over any sequence of starts, scheduler turns
    and stops. *)
Theorem priority_never_set_for_class_zero :
  (forall (cfg : Config) (s s' : State) (calls : list Call),
     m_optionalTid cfg = m_priority s ->
     Send cfg s = Done (s', calls) ->
     countCalls isSetPriority calls = 0%nat /\
     option_map sk_priority (m_socket s') = option_map sk_priority (m_socket s)) /\
  (forall (s s' : State) (calls : list Call),
     m_priority s = 0 ->
     StartApplication s = Done (s', calls) ->
     countCalls isSetPriority calls = 0%nat) /\
  (forall (cfg : Config) (ops : list Op) (s' : State) (calls : list Call),
     m_optionalTid cfg = 0 ->
     exec cfg ops (SetRemote (construct 0)) = Done (s', calls) ->
     countCalls isSetPriority calls = 0%nat).
Proof.
  split; [|split].
  - intros cfg s s' calls Hopt Hdone.
    destruct (Send_inv _ _ _ _ Hdone) as (sk & interval & Hsk & _ & _ & Hs' & Hcalls).
    set (s3 := set_intervalDraws _ (fst (transmit cfg s sk))) in *.
    destruct (armNext_frame cfg interval s3) as (_ & _ & Hsock & _).
    destruct (transmit_calls cfg s sk) as (_ & Heq & _).
    destruct (armNext_calls cfg interval s3) as (_ & Hset & _).
    destruct (Heq Hopt) as (_ & Hnone & _ & Htag).
    rewrite Hs', Hcalls, countCalls_app, Hset, Hnone, Hsock, Hsk.
    split; [reflexivity|exact Htag].
  - intros s s' calls Hprio Hdone.
    exact (proj2 (StartApplication_quiet s s' calls Hprio Hdone)).
  - intros cfg ops s' calls Hopt Hdone.
    exact (exec_quiet cfg ops Hopt (SetRemote (construct 0)) _ _ eq_refl Hdone).
Qed.

Lemma priority_never_set_for_class_zero_witness :
  m_optionalTid (sampleConfig 3 0 1) = 0 /\
  exists s' calls,
    exec (sampleConfig 3 0 1) (OpStart :: repeat OpEvent 2)
         (SetRemote (construct 0)) = Done (s', calls) /\
    countCalls isSetPriority calls = 0%nat.
Proof.
  split; [reflexivity|].
  destruct (started_run (sampleConfig 3 0 1) 0 2 (sampleConfig_valid 3 0 1) eq_refl)
    as (s' & calls & Hrun & _).
  exists s', calls. split; [exact Hrun|].
  exact (proj2 (proj2 priority_never_set_for_class_zero)
           (sampleConfig 3 0 1) _ _ _ eq_refl Hrun).
Defined.
End BernoulliClientFacts.

(** ** More on the delay decomposition *)

Section DelaySeriesFacts.

Import DelayDecomposition.
Local Open Scope Q_scope.

Lemma std_max_ge_l (a b : Q) : a <= std_max a b.
Proof.
  unfold std_max. destruct (Qlt_le_dec a b) as [H|H];
    [now apply Qlt_le_weak|apply Qle_refl].
Qed.

Lemma std_max_ge_r (a b : Q) : b <= std_max a b.
Proof.
  unfold std_max. destruct (Qlt_le_dec a b) as [H|H];
    [apply Qle_refl|assumption].
Qed.

Lemma std_max_lub (a b c : Q) : a <= c -> b <= c -> std_max a b <= c.
Proof. intros Ha Hb. unfold std_max. now destruct (Qlt_le_dec a b). Qed.

Lemma std_max_is_l (a b : Q) : std_max a b - a == 0 <-> b <= a.
Proof.
  unfold std_max. destruct (Qlt_le_dec a b) as [H|H]; split; intros E.
  - assert (b == a) as -> by (rewrite <- (Qplus_0_r a), <- E; ring).
    apply Qle_refl.
  - exfalso. apply (Qlt_not_le _ _ H E).
  - assumption.
  - ring.
Qed.

Lemma nth_tl (A : Type) (l : list A) (i : nat) (d : A) :
  nth i (tl l) d = nth (S i) l d.
Proof. destruct l; [now destruct i|reflexivity]. Qed.

Lemma Qsum_map_nonneg (f : nat -> Q) (l : list nat) :
  (forall i, In i l -> 0 <= f i) -> 0 <= Qsum (map f l).
Proof.
  induction l as [|x l IH]; intros H; cbn; [apply Qle_refl|].
  change (0 <= f x + Qsum (map f l)).
  rewrite <- (Qplus_0_r 0). apply Qplus_le_compat.
  - apply H. now left.
  - apply IH. intros i Hi. apply H. now right.
Qed.

Lemma Qsum_map_plus (f g : nat -> Q) (l : list nat) :
  Qsum (map (fun i => f i + g i) l) == Qsum (map f l) + Qsum (map g l).
Proof.
  unfold Qsum. induction l as [|x l IH]; cbn; [ring|]. rewrite IH. ring.
Qed.

Lemma Qsum_map_ext (f g : nat -> Q) (l : list nat) :
  (forall i, f i == g i) -> Qsum (map f l) == Qsum (map g l).
Proof.
  intros H. unfold Qsum. induction l as [|x l IH]; cbn; [reflexivity|].
  now rewrite IH, H.
Qed.

(** The two vectors the accumulation loop appends to. *)
Lemma accumulate_vectors (s : Series) (n a : nat) (t : Totals) :
  let t' := fold_left (accumulateAt s) (seq a n) t in
  accessDelays t' =
    accessDelays t
    ++ map (fun i => nth i (s_dequeue s) 0 - nth i (s_hol s) 0) (seq a n) /\
  e2eDelays t' =
    e2eDelays t
    ++ map (fun i => nth i (s_dequeue s) 0 - nth i (s_enqueue s) 0) (seq a n).
Proof.
  revert a t. induction n as [|n IH]; intros a t; cbn.
  - now rewrite !app_nil_r.
  - destruct (IH (S a) (accumulateAt s t a)) as [Ha He].
    cbn in Ha, He. rewrite Ha, He. cbn. now rewrite <- !app_assoc.
Qed.

Lemma holTimeAt_ge_enqueue (enq deq : list Q) (i : nat) :
  nth i enq 0 <= holTimeAt enq deq i.
Proof.
  unfold holTimeAt. destruct (i =? 0)%nat; [apply Qle_refl|apply std_max_ge_l].
Qed.

Lemma trimmed_series (recs : list TxRecord) :
  recs <> [] ->
  let enq := enqueueTimes recs in
  let deq := dequeueTimes recs in
  let hol := holTimes enq deq in
  bucketTotals recs = accumulate (mkSeries (tl enq) (tl deq) (tl hol)) /\
  length (tl enq) = (length recs - 1)%nat /\
  length (tl deq) = (length recs - 1)%nat /\
  length (tl hol) = (length recs - 1)%nat.
Proof.
  intros Hne. cbn zeta. unfold bucketTotals.
  rewrite (buildSeries_nonempty recs Hne). split; [reflexivity|].
  destruct recs as [|r recs]; [congruence|].
  unfold holTimes, enqueueTimes, dequeueTimes. cbn.
  rewrite !length_map, length_seq. repeat split; lia.
Qed.

(** X1.  In every bucket the head-of-line time of a packet is no earlier
    than its enqueue time and, from the second packet on, no earlier than
    its predecessor's dequeue time; the queuing delay of a packet is zero
    exactly when its predecessor had left before it was enqueued; and the
    total queuing delay of the bucket is never negative. *)
Theorem queuing_delay_never_negative (recs : list TxRecord) :
  let enq := enqueueTimes recs in
  let deq := dequeueTimes recs in
  let hol := holTimes enq deq in
  (forall i, (i < length recs)%nat -> nth i enq 0 <= nth i hol 0) /\
  (forall i, (0 < i < length recs)%nat ->
     nth (i - 1) deq 0 <= nth i hol 0 /\
     (nth i hol 0 - nth i enq 0 == 0 <-> nth (i - 1) deq 0 <= nth i enq 0)) /\
  0 <= totalQueuingDelay (bucketTotals recs).
Proof.
  intros enq deq hol.
  assert (Hlen : length enq = length recs) by apply length_map.
  assert (Hge : forall i, (i < length recs)%nat -> nth i enq 0 <= nth i hol 0).
  { intros i Hi. unfold hol. rewrite holTimes_nth by lia.
    apply holTimeAt_ge_enqueue. }
  split; [exact Hge|]. split.
  - intros i Hi. unfold hol. rewrite holTimes_nth by lia.
    unfold holTimeAt. destruct (Nat.eqb_spec i 0); [lia|].
    split; [apply std_max_ge_r|apply std_max_is_l].
  - destruct recs as [|r recs]; [cbn; apply Qle_refl|].
    destruct (trimmed_series (r :: recs)) as (Ht & He & Hd & Hh); [discriminate|].
    rewrite Ht. unfold accumulate. cbn [s_enqueue].
    match goal with |- context [fold_left ?f (seq 0 ?n) totals0] =>
      destruct (accumulate_from
                  (mkSeries (tl (enqueueTimes (r :: recs)))
                            (tl (dequeueTimes (r :: recs)))
                            (tl (holTimes (enqueueTimes (r :: recs))
                                          (dequeueTimes (r :: recs)))))
                  n 0 totals0) as [Hq _] end.
    cbn zeta in Hq. rewrite Hq. cbn [totalQueuingDelay totals0 s_hol s_enqueue].
    rewrite Qplus_0_l. apply Qsum_map_nonneg.
    intros i Hi. apply in_seq in Hi. rewrite !nth_tl.
    apply (proj1 (Qle_minus_iff _ _)).
    apply Hge. rewrite He in Hi. cbn [length] in *. lia.
Qed.

Lemma queuing_delay_never_negative_witness :
  0 <= totalQueuingDelay (bucketTotals sampleBucket).
Proof.
  exact (proj2 (proj2 (queuing_delay_never_negative sampleBucket))).
Defined.

(** The vectors and totals of a non-empty bucket, index by index over the
    trimmed series. *)
Lemma bucket_vectors (recs : list TxRecord) :
  recs <> [] ->
  let enq := tl (enqueueTimes recs) in
  let deq := tl (dequeueTimes recs) in
  let hol := tl (holTimes (enqueueTimes recs) (dequeueTimes recs)) in
  let idx := seq 0 (length recs - 1) in
  accessDelays (bucketTotals recs) =
    map (fun i => nth i deq 0 - nth i hol 0) idx /\
  e2eDelays (bucketTotals recs) =
    map (fun i => nth i deq 0 - nth i enq 0) idx /\
  totalQueuingDelay (bucketTotals recs) ==
    Qsum (map (fun i => nth i hol 0 - nth i enq 0) idx) /\
  totalAccessDelay (bucketTotals recs) ==
    Qsum (map (fun i => nth i deq 0 - nth i hol 0) idx).
Proof.
  intros Hne. cbn zeta.
  destruct (trimmed_series recs Hne) as (Ht & He & _ & _).
  rewrite Ht. unfold accumulate. cbn [s_enqueue]. rewrite He.
  set (s := mkSeries _ _ _).
  destruct (accumulate_vectors s (length recs - 1) 0 totals0) as [Ha Hee].
  destruct (accumulate_from s (length recs - 1) 0 totals0) as [Hq Hac].
  cbn zeta in *. rewrite Ha, Hee, Hq, Hac. cbn. repeat split; ring.
Qed.

(** X2.  When every packet of a bucket leaves no earlier than it entered
    and no earlier than its predecessor left, its head-of-line time is no
    later than its dequeue time, so that no access delay and no end-to-end
    delay of the bucket is negative, and neither is the total access
    delay. *)
Theorem access_delay_nonnegative_when_ordered (recs : list TxRecord) :
  orderedBucket recs ->
  (forall i, (i < length recs)%nat ->
     nth i (holTimes (enqueueTimes recs) (dequeueTimes recs)) 0
     <= nth i (dequeueTimes recs) 0) /\
  Forall (fun d => 0 <= d) (accessDelays (bucketTotals recs)) /\
  Forall (fun d => 0 <= d) (e2eDelays (bucketTotals recs)) /\
  0 <= totalAccessDelay (bucketTotals recs).
Proof.
  intros [Hown Hpred].
  assert (Hlen : length (enqueueTimes recs) = length recs) by apply length_map.
  assert (Hed : forall i, (i < length recs)%nat ->
                nth i (enqueueTimes recs) 0 <= nth i (dequeueTimes recs) 0).
  { intros i Hi. unfold enqueueTimes, dequeueTimes.
    rewrite (nth_indep _ 0 (m_enqueueMs (mkTxRecord 0 0 0)))
      by now rewrite length_map.
    rewrite (nth_indep (map m_dequeueMs recs) 0 (m_dequeueMs (mkTxRecord 0 0 0)))
      by now rewrite length_map.
    rewrite !map_nth. rewrite Forall_forall in Hown. apply Hown.
    now apply nth_In. }
  assert (Hhol : forall i, (i < length recs)%nat ->
            nth i (holTimes (enqueueTimes recs) (dequeueTimes recs)) 0
            <= nth i (dequeueTimes recs) 0).
  { intros i Hi. rewrite holTimes_nth by lia. unfold holTimeAt.
    destruct (Nat.eqb_spec i 0) as [->|Hnz]; [now apply Hed|].
    apply std_max_lub; [now apply Hed|].
    replace i with (S (i - 1)) at 2 by lia. apply Hpred. lia. }
  split; [exact Hhol|].
  destruct recs as [|r recs];
    [cbn; repeat split; try constructor; apply Qle_refl|].
  destruct (bucket_vectors (r :: recs)) as (Ha & He & _ & Hac); [discriminate|].
  cbn zeta in *.
  assert (Hacc : forall i, In i (seq 0 (length (r :: recs) - 1)) ->
            0 <= nth i (tl (dequeueTimes (r :: recs))) 0
                 - nth i (tl (holTimes (enqueueTimes (r :: recs))
                                       (dequeueTimes (r :: recs)))) 0).
  { intros i Hi. apply in_seq in Hi. rewrite !nth_tl.
    apply (proj1 (Qle_minus_iff _ _)). apply Hhol. cbn [length] in *. lia. }
  split; [|split].
  - rewrite Ha. apply Forall_forall. intros d Hd.
    apply in_map_iff in Hd. destruct Hd as (i & <- & Hi). now apply Hacc.
  - rewrite He. apply Forall_forall. intros d Hd.
    apply in_map_iff in Hd. destruct Hd as (i & <- & Hi).
    apply in_seq in Hi. rewrite !nth_tl.
    apply (proj1 (Qle_minus_iff _ _)). apply Hed. cbn [length] in *. lia.
  - rewrite Hac. now apply Qsum_map_nonneg.
Qed.

Lemma sampleBucket_ordered : orderedBucket sampleBucket.
Proof.
  split.
  - repeat constructor; cbn; discriminate.
  - intros [|[|i]] Hi; cbn in *; try lia; discriminate.
Qed.

Lemma access_delay_nonnegative_when_ordered_witness :
  orderedBucket sampleBucket /\
  Forall (fun d => 0 <= d) (accessDelays (bucketTotals sampleBucket)) /\
  0 <= totalAccessDelay (bucketTotals sampleBucket).
Proof.
  split; [exact sampleBucket_ordered|].
  destruct (access_delay_nonnegative_when_ordered sampleBucket sampleBucket_ordered)
    as (_ & Ha & _ & Ht).
  split; assumption.
Defined.

Lemma zipWith_pointwise (l1 l2 : list Q) (n : nat) :
  length l1 = n -> length l2 = n ->
  zipWith Qminus l1 l2 = map (fun i => nth i l1 0 - nth i l2 0) (seq 0 n).
Proof. intros H1 H2. symmetry. now apply pointwise_zipWith. Qed.

(** The end-to-end delays of any bucket add up to its two totals. *)
Lemma fold_left_Qsum (l : list Q) (a : Q) :
  fold_left Qplus l a == a + Qsum l.
Proof.
  unfold Qsum. revert a. induction l as [|x l IH]; intros a; cbn.
  - ring.
  - rewrite IH. ring.
Qed.

(** X3.  For a non-empty bucket of N records the loop leaves N - 1 access
    delays and N - 1 end-to-end delays, the pairwise differences of the
    trimmed dequeue series with the trimmed head-of-line and enqueue
    series; the total access delay is the sum of the recorded access
    delays, added from the first to the last as the loop adds them, and
    the total queuing delay is the sum, in the same order, of the
    differences of the trimmed head-of-line and enqueue series. *)
Theorem delay_vectors_of_bucket (recs : list TxRecord) :
  recs <> [] ->
  let enq := tl (enqueueTimes recs) in
  let deq := tl (dequeueTimes recs) in
  let hol := tl (holTimes (enqueueTimes recs) (dequeueTimes recs)) in
  let t := bucketTotals recs in
  accessDelays t = zipWith Qminus deq hol /\
  e2eDelays t = zipWith Qminus deq enq /\
  length (accessDelays t) = (length recs - 1)%nat /\
  length (e2eDelays t) = (length recs - 1)%nat /\
  totalAccessDelay t == fold_left Qplus (accessDelays t) 0 /\
  totalQueuingDelay t == fold_left Qplus (zipWith Qminus hol enq) 0.
Proof.
  intros Hne enq deq hol t.
  destruct (trimmed_series recs Hne) as (_ & He & Hd & Hh).
  destruct (bucket_vectors recs Hne) as (Ha & Hee & Hq & Hac).
  cbn zeta in *. fold enq deq hol t in Ha, Hee, Hq, Hac, He, Hd, Hh.
  rewrite (zipWith_pointwise deq hol _ Hd Hh),
    (zipWith_pointwise deq enq _ Hd He),
    (zipWith_pointwise hol enq _ Hh He).
  split; [exact Ha|]. split; [exact Hee|].
  split; [now rewrite Ha, length_map, length_seq|].
  split; [now rewrite Hee, length_map, length_seq|].
  rewrite !fold_left_Qsum, !Qplus_0_l.
  split; [now rewrite Ha, Hac|now rewrite Hq].
Qed.

Lemma delay_vectors_of_bucket_witness :
  sampleBucket <> [] /\
  accessDelays (bucketTotals sampleBucket) = [4; 3] /\
  e2eDelays (bucketTotals sampleBucket) = [5; 4] /\
  totalAccessDelay (bucketTotals sampleBucket) == 7.
Proof.
  assert (Hne : sampleBucket <> []) by discriminate.
  split; [exact Hne|].
  destruct (delay_vectors_of_bucket sampleBucket Hne)
    as (_ & _ & _ & _ & Ht & _).
  split; [reflexivity|]. split; [reflexivity|].
  rewrite Ht. reflexivity.
Defined.


(** *** The summary line *)

Lemma fold_links_flat (A : Type) (step : A -> TxRecord -> A)
  (links : LinkMap (list TxRecord)) (a : A) :
  fold_left (fun acc' records => fold_left step (snd records) acc') links a =
  fold_left step (concat (map snd links)) a.
Proof.
  revert a. induction links as [|l links IH]; intros a; cbn; [reflexivity|].
  now rewrite fold_left_app, IH.
Qed.

Lemma fold_nodes_flat (A : Type) (step : A -> TxRecord -> A)
  (successInfo : NodeLinkMap (list TxRecord)) (nodes : list Z) (a : A) :
  fold_left
    (fun acc i =>
       fold_left (fun acc' records => fold_left step (snd records) acc')
                 (at_node successInfo i) acc)
    nodes a =
  fold_left step
    (concat (flat_map (fun i => map snd (at_node successInfo i)) nodes)) a.
Proof.
  revert a. induction nodes as [|i nodes IH]; intros a; cbn; [reflexivity|].
  now rewrite concat_app, fold_left_app, IH, fold_links_flat.
Qed.

Lemma numSldAttempts_flat (successInfo : NodeLinkMap (list TxRecord)) (n : nat) :
  numSldAttempts successInfo n =
  fold_left (fun acc pkt => u64 (acc + (1 + m_failures pkt))%Z)
            (concat (groupBuckets successInfo n)) 0%Z.
Proof. unfold numSldAttempts, groupBuckets. apply fold_nodes_flat. Qed.

Lemma attempts_no_wrap (l : list TxRecord) (a : Z) :
  (0 <= a)%Z -> failuresInRange l ->
  (a + attemptsOf l < 2 ^ 64)%Z ->
  fold_left (fun acc pkt => u64 (acc + (1 + m_failures pkt))%Z) l a
  = (a + attemptsOf l)%Z.
Proof.
  unfold attemptsOf, Zsum.
  revert a. induction l as [|r l IH]; intros a Ha Hr Hlt;
    cbn [fold_left map fold_right] in *; [lia|].
  inversion Hr as [|? ? Hr1 Hr2]; subst.
  assert (Hrest : (0 <= fold_right Z.add 0 (map (fun r => 1 + m_failures r) l))%Z).
  { clear - Hr2. induction Hr2 as [|x l Hx Hl IHl]; cbn [map fold_right]; lia. }
  rewrite u64_small by lia.
  rewrite IH by (try assumption; lia). lia.
Qed.

Lemma attempts_flat (buckets : list (list TxRecord)) :
  Zsum (map attemptsOf buckets) = attemptsOf (concat buckets).
Proof.
  induction buckets as [|b bs IH]; [reflexivity|].
  cbn [map concat]. unfold attemptsOf in *.
  rewrite map_app, Zsum_app. unfold Zsum in *. cbn [fold_right]. now rewrite IH.
Qed.

Lemma counts_flat (buckets : list (list TxRecord)) :
  Zsum (map successCountOf buckets) = successCountOf (concat buckets).
Proof.
  induction buckets as [|b bs IH]; [reflexivity|].
  cbn [map concat]. unfold successCountOf, Zsum in *. cbn [fold_right].
  rewrite IH, length_app. lia.
Qed.

Lemma attempts_vs_count (l : list TxRecord) :
  failuresInRange l ->
  (successCountOf l <= attemptsOf l)%Z /\
  (attemptsOf l = successCountOf l <-> Forall (fun r => m_failures r = 0%Z) l).
Proof.
  unfold attemptsOf, successCountOf, Zsum.
  induction 1 as [|r l Hr Hl [IHle IHeq]]; cbn [map fold_right length].
  - split; [lia|]. split; [constructor|reflexivity].
  - rewrite Nat2Z.inj_succ. split; [lia|]. split.
    + intros E. constructor; [lia|]. apply IHeq. lia.
    + intros F. inversion F as [|? ? F1 F2]; subst.
      apply IHeq in F2. lia.
Qed.

(** X5.  With failure counts in range and at most 2^53 attempts in all
    (so that a quotient below 1 stays below 1 as a double), and at least
    one delivery counted for the stations of link 1, the success
    probability of the summary line is the number of deliveries divided by
    the number of attempts: a finite value above 0 and at most 1, which is
    1 exactly when no delivered packet had a failure.  Neither the
    invalid-operation nor the divide-by-zero flag is raised; the other
    flags of the division are not kept by [fenv]. *)
Theorem success_probability_range
  (successInfo : NodeLinkMap (list TxRecord)) (n : nat) :
  let buckets := groupBuckets successInfo n in
  Forall failuresInRange buckets ->
  (Zsum (map attemptsOf buckets) <= 2 ^ 53)%Z ->
  (0 < numSldSuccess successInfo n)%Z ->
  exists q,
    sldLink1SuccPr successInfo n = (Fin q, fe_clear) /\
    fe_invalid (snd (sldLink1SuccPr successInfo n)) = false /\
    fe_divbyzero (snd (sldLink1SuccPr successInfo n)) = false /\
    q == inject_Z (Zsum (map successCountOf buckets))
         / inject_Z (Zsum (map attemptsOf buckets)) /\
    0 < q /\ q <= 1 /\
    (q == 1 <->
     Forall (Forall (fun r => m_failures r = 0%Z)) buckets).
Proof.
  intros buckets Hrange Hle53 Hpos.
  assert (Hlt : (Zsum (map attemptsOf buckets) < 2 ^ 64)%Z).
  { assert ((2 ^ 53 < 2 ^ 64)%Z) by reflexivity. lia. }
  clear Hle53.
  assert (Hflat : failuresInRange (concat buckets))
    by (apply Forall_concat; exact Hrange).
  rewrite attempts_flat in Hlt.
  assert (Hatt : numSldAttempts successInfo n = attemptsOf (concat buckets)).
  { rewrite numSldAttempts_flat. fold buckets.
    rewrite attempts_no_wrap by (try assumption; lia). lia. }
  pose proof (numSldSuccess_sum successInfo n) as Hsucc.
  fold buckets in Hsucc. rewrite counts_flat in Hsucc.
  destruct (attempts_vs_count _ Hflat) as [Hle Heq].
  rewrite attempts_flat, counts_flat.
  set (S := successCountOf (concat buckets)) in *.
  set (A := attemptsOf (concat buckets)) in *.
  unfold sldLink1SuccPr. rewrite Hatt, Hsucc.
  assert (HA : (0 < A)%Z) by lia.
  assert (HAq : 0 < inject_Z A) by (unfold Qlt; cbn; lia).
  rewrite ddiv_finite by (apply inject_Z_nonzero; lia).
  eexists. split; [reflexivity|]. split; [reflexivity|].
  split; [reflexivity|]. split; [reflexivity|].
  split; [|split].
  - apply Qlt_shift_div_l; [exact HAq|]. rewrite Qmult_0_l.
    unfold Qlt; cbn; lia.
  - apply Qle_shift_div_r; [exact HAq|]. rewrite Qmult_1_l.
    unfold Qle; cbn; lia.
  - rewrite <- Forall_concat, <- Heq. split.
    + intros E.
      assert (E' : inject_Z S == inject_Z A).
      { rewrite <- (Qmult_1_l (inject_Z A)), <- E. field.
        apply inject_Z_nonzero. lia. }
      unfold Qeq in E'. cbn in E'. lia.
    + intros E. rewrite E. field. apply inject_Z_nonzero. lia.
Qed.

Lemma success_probability_range_witness :
  Forall failuresInRange (groupBuckets retriedInfo 1) /\
  (Zsum (map attemptsOf (groupBuckets retriedInfo 1)) <= 2 ^ 53)%Z /\
  (0 < numSldSuccess retriedInfo 1)%Z /\
  exists q, sldLink1SuccPr retriedInfo 1 = (Fin q, fe_clear) /\ q == 1 # 2.
Proof.
  assert (Hr : Forall failuresInRange (groupBuckets retriedInfo 1))
    by (repeat constructor; cbn; lia).
  assert (Hlt : (Zsum (map attemptsOf (groupBuckets retriedInfo 1)) <= 2 ^ 53)%Z)
    by discriminate.
  assert (Hpos : (0 < numSldSuccess retriedInfo 1)%Z) by reflexivity.
  split; [exact Hr|]. split; [exact Hlt|]. split; [exact Hpos|].
  destruct (success_probability_range retriedInfo 1 Hr Hlt Hpos)
    as (q & Hq & _ & _ & Hval & _).
  exists q. split; [exact Hq|]. rewrite Hval. reflexivity.
Defined.





(** X7.  The summary line and the per-bucket statistics normalise the same
    total differently.  When the stations of link 1 hold a single bucket
    of N >= 2 records (N in the counter's range), the per-link mean delay
    is the bucket's total divided by N and the per-bucket mean is that
    same total divided by N - 1, for the queuing and for the access
    delay. *)
Theorem link_mean_divides_by_all_records
  (successInfo : NodeLinkMap (list TxRecord)) (n : nat) (recs : list TxRecord) :
  groupBuckets successInfo n = [recs] ->
  (2 <= successCountOf recs < 2 ^ 64)%Z ->
  let t := bucketTotals recs in
  exists a a' b b' bs,
    sldMeanQueDelayLink1 successInfo n = (Fin a, fe_clear) /\
    sldMeanAccDelayLink1 successInfo n = (Fin a', fe_clear) /\
    processBucket recs (successCountOf recs) = Some bs /\
    meanQueuingDelay bs = (Fin b, fe_clear) /\
    meanAccessDelay bs = (Fin b', fe_clear) /\
    a == totalQueuingDelay t / inject_Z (successCountOf recs) /\
    b == totalQueuingDelay t / inject_Z (successCountOf recs - 1) /\
    a' == totalAccessDelay t / inject_Z (successCountOf recs) /\
    b' == totalAccessDelay t / inject_Z (successCountOf recs - 1).
Proof.
  intros Hg HN t.
  assert (Hne : recs <> [])
    by (intros ->; unfold successCountOf in HN; cbn in HN; lia).
  assert (Hs : numSldSuccess successInfo n = successCountOf recs)
    by (rewrite numSldSuccess_sum, Hg; unfold Zsum; cbn; lia).
  assert (HnzN : ~ inject_Z (successCountOf recs) == 0)
    by (apply inject_Z_nonzero; lia).
  assert (HnzM : ~ inject_Z (successCountOf recs - 1) == 0)
    by (apply inject_Z_nonzero; lia).
  unfold sldMeanQueDelayLink1, sldMeanAccDelayLink1, processBucket.
  rewrite Hs, !ddiv_finite by exact HnzN.
  pose proof (buildSeries_nonempty recs Hne) as Hb.
  assert (Ht : bucketTotals recs =
               accumulate (mkSeries (tl (enqueueTimes recs)) (tl (dequeueTimes recs))
                             (tl (holTimes (enqueueTimes recs) (dequeueTimes recs)))))
    by (unfold bucketTotals; now rewrite Hb).
  rewrite Hb, <- Ht. unfold meanDelay.
  rewrite u64_small by lia. rewrite !ddiv_finite by exact HnzM.
  do 5 eexists. repeat (split; [reflexivity|]).
  unfold totalQueuingDelayPerNodeLink, totalAccessDelayPerNodeLink.
  rewrite !sldDelayTotal_sum, Hg. unfold Qsum. cbn [map fold_right].
  fold t. repeat split; try reflexivity; field; assumption.
Qed.

Lemma link_mean_divides_by_all_records_witness :
  groupBuckets [(1%Z, [(0%Z, sampleBucket)])] 1 = [sampleBucket] /\
  (2 <= successCountOf sampleBucket < 2 ^ 64)%Z /\
  exists a b bs,
    sldMeanQueDelayLink1 [(1%Z, [(0%Z, sampleBucket)])] 1 = (Fin a, fe_clear) /\
    processBucket sampleBucket 3 = Some bs /\
    meanQueuingDelay bs = (Fin b, fe_clear) /\
    a == 2 # 3 /\ b == 1.
Proof.
  assert (HN : (2 <= successCountOf sampleBucket < 2 ^ 64)%Z)
    by (split; [discriminate|reflexivity]).
  split; [reflexivity|]. split; [exact HN|].
  destruct (link_mean_divides_by_all_records
              [(1%Z, [(0%Z, sampleBucket)])] 1 sampleBucket eq_refl HN)
    as (a & _ & b & _ & bs & Ha & _ & Hb & Hm & _ & Heq & Heq' & _).
  exists a, b, bs. split; [exact Ha|]. split; [exact Hb|]. split; [exact Hm|].
  split; [rewrite Heq; reflexivity|rewrite Heq'; reflexivity].
Defined.

End DelaySeriesFacts.

(** ** The set-up arithmetic *)

Section SingleBssSetupFacts.

Import Binary64 SingleBssSetup.
Local Open Scope Z_scope.

Lemma roundUnsigned_small (n : Z) : n < 2 ^ 53 -> roundUnsigned n = n.
Proof.
  intros H. unfold roundUnsigned.
  destruct (Z.ltb_spec n (2 ^ 53)); [reflexivity|lia].
Qed.

(** The conversion is the rounding of the doubles. *)
Lemma roundUnsigned_roundFinite (n : Z) :
  0 <= n -> IZR (roundUnsigned n) = roundFinite (IZR n).
Proof.
  intros H0.
  destruct (Z_lt_le_dec n (2 ^ 53)) as [Hs|Hb].
  - rewrite roundUnsigned_small by assumption.
    symmetry. apply roundFinite_small_int. lia.
  - assert (P53 : 0 < 2 ^ 53) by reflexivity.
    assert (Hn : n <> 0) by lia.
    assert (Hl : 53 <= Z.log2 n) by (apply Z.log2_le_pow2; lia).
    pose proof (mag_scaled n 0 Hn) as Hm.
    rewrite bpow_0, Rmult_1_r, Z.add_0_r, Z.abs_eq in Hm by lia.
    unfold roundUnsigned.
    destruct (Z.ltb_spec n (2 ^ 53)); [lia|].
    set (e := Z.log2 n - 52).
    assert (He : 1 <= e) by (unfold e; lia).
    assert (Pe : 0 < 2 ^ e) by (apply Z.pow_pos_nonneg; lia).
    assert (Hhalf : 2 ^ e = 2 * 2 ^ (e - 1)).
    { replace e with (Z.succ (e - 1)) at 1 by lia.
      rewrite Z.pow_succ_r by lia. reflexivity. }
    pose proof (Z.div_mod n (2 ^ e) ltac:(lia)) as Hdm.
    pose proof (Z.mod_pos_bound n (2 ^ e) Pe) as Hr.
    set (q := n / 2 ^ e) in *. set (r := n mod 2 ^ e) in *.
    unfold roundFinite, quantumExp. rewrite Hm.
    replace (Z.max (Z.log2 n) (-1022) - 52) with e by (unfold e; lia).
    rewrite (bpow_IZR e) by lia.
    assert (PeR : (0 < IZR (2 ^ e))%R) by (apply IZR_lt; lia).
    set (m := (IZR n / IZR (2 ^ e))%R).
    assert (Hmv : (m = IZR q + IZR r / IZR (2 ^ e))%R).
    { unfold m. rewrite Hdm at 1. rewrite plus_IZR, mult_IZR. field. lra. }
    assert (Hfrac : (0 <= IZR r / IZR (2 ^ e) < 1)%R).
    { split.
      - apply Rmult_le_pos; [apply IZR_le; lia|].
        left. now apply Rinv_0_lt_compat.
      - apply (Rmult_lt_reg_r (IZR (2 ^ e))); [assumption|].
        unfold Rdiv. rewrite Rmult_assoc, Rinv_l by lra.
        rewrite Rmult_1_r, Rmult_1_l. apply IZR_lt. lia. }
    assert (Hfl : Zfloor m = q) by (apply Zfloor_eq; lra).
    assert (Hcmp : (m - IZR q = IZR r / IZR (2 ^ e))%R) by lra.
    assert (Hscale : forall a : Z,
               (IZR r / IZR (2 ^ e) - 1 / 2
                = (IZR (r - 2 ^ (e - 1))) / IZR (2 ^ e))%R).
    { intros _. rewrite minus_IZR, Hhalf at 1.
      rewrite Hhalf, mult_IZR.
      assert (0 < IZR (2 ^ (e - 1)))%R
        by (apply IZR_lt; apply Z.pow_pos_nonneg; lia).
      field. lra. }
    assert (Hsign : forall z : Z,
               (0 < IZR z / IZR (2 ^ e) <-> 0 < IZR z)%R).
    { intros z. split; intros Hz.
      - apply (Rmult_lt_compat_r (IZR (2 ^ e))) in Hz; [|assumption].
        unfold Rdiv in Hz. rewrite Rmult_assoc, Rinv_l in Hz; lra.
      - apply Rmult_lt_0_compat; [assumption|now apply Rinv_0_lt_compat]. }
    rewrite <- mult_IZR. f_equal. f_equal.
    unfold nearestEven. rewrite Hfl, Hcmp.
    destruct (total_order_T _ _) as [[Hlt|Heq]|Hgt].
    + assert (Hz : (IZR (r - 2 ^ (e - 1)) < 0)%R).
      { destruct (Rlt_dec (IZR (r - 2 ^ (e - 1))) 0) as [|Hn0]; [assumption|].
        exfalso. apply Rnot_lt_le in Hn0. destruct Hn0 as [Hp|Hz0].
        - apply Hsign in Hp. rewrite <- (Hscale 0) in Hp. lra.
        - pose proof (Hscale 0) as Hs. rewrite <- Hz0 in Hs.
          unfold Rdiv at 3 in Hs. rewrite Rmult_0_l in Hs. lra. }
      apply lt_IZR in Hz.
      destruct (Z.ltb_spec r (2 ^ (e - 1))); [reflexivity|lia].
    + assert (Hz : r = 2 ^ (e - 1)).
      { pose proof (Hscale 0) as Hs. rewrite Heq in Hs.
        replace (1 / 2 - 1 / 2)%R with 0%R in Hs by lra.
        destruct (Z.eq_dec (r - 2 ^ (e - 1)) 0) as [|Hne]; [lia|exfalso].
        destruct (Z_lt_le_dec 0 (r - 2 ^ (e - 1))) as [Hp|Hn0].
        - apply IZR_lt in Hp. apply Hsign in Hp. lra.
        - assert (Hp : 0 < - (r - 2 ^ (e - 1))) by lia.
          apply IZR_lt in Hp. apply Hsign in Hp.
          rewrite opp_IZR in Hp. unfold Rdiv in Hp, Hs.
          rewrite <- Ropp_mult_distr_l in Hp. lra. }
      destruct (Z.ltb_spec r (2 ^ (e - 1))); [lia|].
      destruct (Z.ltb_spec (2 ^ (e - 1)) r); [lia|reflexivity].
    + assert (Hz : (0 < IZR (r - 2 ^ (e - 1)))%R).
      { apply Hsign. rewrite <- (Hscale 0). lra. }
      apply lt_IZR in Hz.
      destruct (Z.ltb_spec r (2 ^ (e - 1))); [lia|].
      destruct (Z.ltb_spec (2 ^ (e - 1)) r); [reflexivity|lia].
Qed.

(** X8.  For a contention window minimum from 1 to 2^53, whose conversion
    to a double is exact, and a product with 2^stage that stays below
    2^64, the adjusted pair satisfies
    [cwmax + 1 = (cwmin + 1) * 2^stage] with [cwmin <= cwmax]: the window
    doubles [stage] times from the minimum to the maximum.  A minimum of 0
    wraps both bounds around to 2^64 - 1.  Beyond 2^53 the conversion of
    the minimum is the rounding of the doubles, and the relation can
    fail: a minimum of 2^53 + 1 with stage 0 is left with a maximum below
    the minimum. *)
Theorem cw_bounds_double_per_stage :
  (forall cwmin stage : Z,
     1 <= cwmin <= 2 ^ 53 -> 0 <= stage <= 255 -> cwmin * 2 ^ stage < 2 ^ 64 ->
     exists lo hi,
       cwBounds cwmin stage = Some (lo, hi) /\
       lo = cwmin - 1 /\
       hi + 1 = (lo + 1) * 2 ^ stage /\
       0 <= lo <= hi /\ hi < 2 ^ 64) /\
  (forall stage : Z,
     0 <= stage <= 255 ->
     cwBounds 0 stage = Some (2 ^ 64 - 1, 2 ^ 64 - 1)) /\
  (forall cwmin : Z,
     0 <= cwmin -> IZR (roundUnsigned cwmin) = roundFinite (IZR cwmin)) /\
  cwBounds (2 ^ 53 + 1) 0 = Some (2 ^ 53, 2 ^ 53 - 1).
Proof.
  split; [|split; [|split]].
  - intros cwmin stage Hmin Hstage Hprod.
    pose proof (Z.pow_pos_nonneg 2 stage ltac:(lia) (proj1 Hstage)) as Hpow.
    assert (P : 2 ^ 53 < 2 ^ 64) by reflexivity.
    assert (Hr : roundUnsigned cwmin = cwmin).
    { destruct (Z.eq_dec cwmin (2 ^ 53)) as [->|]; [reflexivity|].
      apply roundUnsigned_small. lia. }
    unfold cwBounds. rewrite Hr.
    destruct (Z.leb_spec 0 cwmin); [|lia].
    destruct (Z.ltb_spec cwmin (2 ^ 64)); [|nia].
    destruct (Z.leb_spec 0 stage); [|lia].
    destruct (Z.leb_spec stage 255); [|lia].
    destruct (Z.ltb_spec (cwmin * 2 ^ stage) (2 ^ 64)); [|lia].
    cbn [andb]. rewrite !u64_small by nia.
    eexists. eexists. split; [reflexivity|]. repeat split; nia.
  - intros stage Hstage. unfold cwBounds.
    destruct (Z.leb_spec 0 stage); [|lia].
    destruct (Z.leb_spec stage 255); [|lia].
    reflexivity.
  - exact roundUnsigned_roundFinite.
  - reflexivity.
Qed.

Lemma cw_bounds_double_per_stage_witness :
  1 <= 16 <= 2 ^ 53 /\ 0 <= 6 <= 255 /\ 16 * 2 ^ 6 < 2 ^ 64 /\
  cwBounds 16 6 = Some (15, 1023).
Proof.
  assert (H1 : 1 <= 16 <= 2 ^ 53) by (split; discriminate).
  assert (H2 : 0 <= 6 <= 255) by lia.
  assert (H3 : 16 * 2 ^ 6 < 2 ^ 64) by reflexivity.
  split; [exact H1|]. split; [exact H2|]. split; [exact H3|].
  destruct (proj1 cw_bounds_double_per_stage 16 6 H1 H2 H3)
    as (lo & hi & Hc & Hlo & Hhi & _).
  rewrite Hc. f_equal. f_equal; lia.
Defined.

(** *** The beacon interval *)

Lemma beaconInterval_of_units (simulationTime microseconds : R) (z : Z) :
  fpRound (simulationTime * 1000000) = Fin microseconds ->
  fpRound (microseconds / 1024) = Fin (microseconds / 1024) ->
  Zceil (microseconds / 1024) = z -> 0 <= z <= 2 ^ 53 ->
  beaconInterval simulationTime = Some (Z.min (z * 1024) (65535 * 1024)).
Proof.
  intros Hus Hunits Hz Hzb. unfold beaconInterval.
  rewrite Hus, Hunits, Hz.
  assert (E : (IZR z * 1024 = IZR z * bpow 10)%R)
    by (rewrite (bpow_IZR 10) by lia; reflexivity).
  assert (Hfin : fpRound (IZR z * 1024) = Fin (IZR (z * 1024))).
  { assert (Hx : (0 <= IZR z * 1024 <= bpow 1023)%R).
    { assert (0 <= IZR z <= bpow 53)%R
        by (rewrite (bpow_IZR 53) by lia; split; apply IZR_le; lia).
      assert (bpow 63 <= bpow 1023)%R by (apply bpow_le; lia).
      replace 63 with (53 + 10) in H0 by reflexivity.
      rewrite bpow_add, (bpow_IZR 10) in H0 by lia.
      change (IZR (2 ^ 10)) with 1024%R in H0.
      pose proof (bpow_pos 53). nra. }
    rewrite (fpRound_finite _ Hx). f_equal.
    rewrite E, roundFinite_exact_le by lia.
    rewrite (bpow_IZR 10) by lia. now rewrite <- mult_IZR. }
  rewrite Hfin, ZfloorZ.
  assert (P : 2 ^ 53 * 1024 < 2 ^ 64) by reflexivity.
  destruct (Z.leb_spec 0 (z * 1024)); [|lia].
  destruct (Z.ltb_spec (z * 1024) (2 ^ 64)); [|lia].
  reflexivity.
Qed.

(** The quotient by 1024 of a double that is 0 or at least 2^-1000 is a
    double. *)
Lemma units_exact (x microseconds : R) :
  fpRound x = Fin microseconds ->
  (microseconds = 0 \/ bpow (-1000) <= microseconds < bpow 63)%R ->
  fpRound (microseconds / 1024) = Fin (microseconds / 1024).
Proof.
  intros Hus Hrange.
  assert (E1024 : (1024 = bpow 10)%R) by (rewrite (bpow_IZR 10) by lia; reflexivity).
  destruct Hrange as [->|[Hlo Hhi]].
  - replace (0 / 1024)%R with 0%R by (unfold Rdiv; ring).
    apply (fpRound_IZR 0). cbn. lia.
  - apply fpRound_Fin in Hus.
    destruct (roundFinite_structure x) as (n & c & Hs & Hn & Hc).
    rewrite <- Hus in Hs.
    pose proof (bpow_pos c) as Pc. pose proof (bpow_pos (-1000)) as P0.
    assert (Hc' : (-1053 <= c)%Z).
    { assert (Hle : (bpow (-1000) <= bpow (c + 53))%R).
      { apply (Rle_trans _ _ _ Hlo). rewrite Hs, bpow_add, Rmult_comm.
        apply Rmult_le_compat_l; [lra|].
        rewrite (bpow_IZR 53) by lia. apply IZR_le. lia. }
      destruct (Z_lt_le_dec (c + 53) (-1000)) as [Hlt|]; [|lia].
      apply bpow_lt in Hlt. lra. }
    assert (Eu : (microseconds / 1024 = IZR n * bpow (c - 10))%R).
    { rewrite Hs, E1024. replace c with ((c - 10) + 10)%Z at 1 by lia.
      rewrite bpow_add. pose proof (bpow_pos 10). field. lra. }
    assert (Hx : (0 <= microseconds / 1024 <= bpow 1023)%R).
    { assert (bpow 63 <= bpow 1023)%R by (apply bpow_le; lia).
      split; [apply Rmult_le_pos; lra|].
      apply (Rle_trans _ microseconds); [|lra].
      apply (Rmult_le_reg_r 1024); [lra|].
      unfold Rdiv. rewrite Rmult_assoc, Rinv_l by lra. lra. }
    rewrite (fpRound_finite _ Hx). f_equal.
    rewrite Eu. apply roundFinite_exact_le; lia.
Qed.

Lemma shortSimulationTime_microseconds :
  fpRound (shortSimulationTime * 1000000) = Fin 76800.
Proof.
  assert (E36 : (bpow (-36) = / 68719476736)%R)
    by (exact (bpow_neg_IZR 36 ltac:(lia))).
  assert (E16 : (bpow 16 = 65536)%R)
    by (rewrite (bpow_IZR 16) by lia; reflexivity).
  assert (E17 : (bpow 17 = 131072)%R)
    by (rewrite (bpow_IZR 17) by lia; reflexivity).
  assert (E1023 : (bpow 17 <= bpow 1023)%R) by (apply bpow_le; lia).
  assert (Ex : (shortSimulationTime * 1000000
                = 76800 + 515200 / 72057594037927936)%R).
  { unfold shortSimulationTime.
    change (IZR (2 ^ 56)) with 72057594037927936%R. field. }
  assert (Hpos : (0 < 515200 / 72057594037927936 < / 137438953472)%R).
  { split; [lra|].
    apply (Rmult_lt_reg_r 72057594037927936); [lra|].
    unfold Rdiv. rewrite Rmult_assoc, Rinv_l by lra.
    replace (/ 137438953472 * 72057594037927936)%R with 524288%R by field.
    lra. }
  set (d := (515200 / 72057594037927936)%R) in *.
  assert (Hx : (0 <= shortSimulationTime * 1000000 <= bpow 1023)%R)
    by (rewrite Ex; lra).
  rewrite (fpRound_finite _ Hx). f_equal.
  rewrite (roundFinite_near _ (76800 * 2 ^ 36) (-36)).
  - rewrite E36, mult_IZR. change (IZR (2 ^ 36)) with 68719476736%R. field.
  - lia.
  - change (-36 + 52)%Z with 16%Z. change (-36 + 53)%Z with 17%Z.
    rewrite E16, E17, Ex. lra.
  - rewrite E36, mult_IZR. change (IZR (2 ^ 36)) with 68719476736%R.
    replace (shortSimulationTime * 1000000 - 76800 * 68719476736 * / 68719476736)%R
      with d by (rewrite Ex; field).
    rewrite Rabs_pos_eq by lra.
    replace (/ 68719476736 / 2)%R with (/ 137438953472)%R by field. lra.
Qed.

(** X9.  Let the product [simulationTime * 1000000] be, as a double, a
    number of microseconds that is 0 or lies between 2^-1000 and 2^63.
    The beacon interval is then a whole number of 1024-microsecond time
    units, at most 65535 of them; when those microseconds fit in 65535
    time units the interval covers them and exceeds them by less than one
    time unit, and otherwise it is capped at 65535 time units.  It is the
    rounded product that is covered, not the simulation time: for the
    double 0x1.3a92a30553262p-4 seconds, a little more than 76800
    microseconds, the interval is 76800 microseconds. *)
Theorem beacon_interval_whole_time_units :
  (forall simulationTime microseconds : R,
     fpRound (simulationTime * 1000000) = Fin microseconds ->
     (microseconds = 0 \/ bpow (-1000) <= microseconds < bpow 63)%R ->
     exists b,
       beaconInterval simulationTime = Some b /\
       (1024 | b) /\ 0 <= b <= 65535 * 1024 /\
       ((microseconds <= IZR (65535 * 1024))%R ->
        (microseconds <= IZR b < microseconds + 1024)%R) /\
       ((IZR (65535 * 1024) < microseconds)%R -> b = 65535 * 1024)) /\
  beaconInterval shortSimulationTime = Some 76800 /\
  (76800 < shortSimulationTime * 1000000)%R.
Proof.
  split; [|split].
  - intros simulationTime us Hus Hrange.
    pose proof (units_exact _ _ Hus Hrange) as Hunits.
    set (units := (us / 1024)%R) in *.
    assert (Hu : (us = units * 1024)%R) by (unfold units; field).
    assert (Hu0 : (0 <= units < bpow 53)%R).
    { assert (E : (bpow 63 = bpow 53 * 1024)%R).
      { replace 63 with (53 + 10) by reflexivity.
        rewrite bpow_add, (bpow_IZR 10) by lia. reflexivity. }
      pose proof (bpow_pos (-1000)).
      destruct Hrange as [H0|[Hlo Hhi]]; [rewrite H0 in Hu|rewrite E in Hhi];
        pose proof (bpow_pos 53); lra. }
    destruct (Zceil_bound units) as [Hc1 Hc2].
    set (z := Zceil units) in *.
    assert (Hz0 : 0 <= z).
    { apply le_IZR. lra. }
    assert (Hz1 : z <= 2 ^ 53).
    { assert (IZR z < IZR (2 ^ 53) + 1)%R
        by (rewrite <- (bpow_IZR 53) by lia; lra).
      rewrite <- (plus_IZR _ 1) in H. apply lt_IZR in H. lia. }
    rewrite (beaconInterval_of_units simulationTime us z Hus Hunits eq_refl)
      by lia.
    eexists. split; [reflexivity|].
    assert (Hcov : (us <= IZR (z * 1024))%R) by (rewrite mult_IZR; lra).
    assert (Hnear : (IZR (z * 1024) < us + 1024)%R) by (rewrite mult_IZR; lra).
    split.
    + destruct (Z.le_ge_cases (z * 1024) (65535 * 1024)) as [Hle|Hge].
      * rewrite Z.min_l by assumption. exists z. reflexivity.
      * rewrite Z.min_r by assumption. exists 65535. reflexivity.
    + split; [lia|]. split.
      * intros Hfit.
        assert (Hle : z * 1024 <= 65535 * 1024).
        { assert (H' : (IZR (z * 1024) < IZR (65535 * 1024 + 1024))%R)
            by (rewrite plus_IZR; change (IZR 1024) with 1024%R; lra).
          apply lt_IZR in H'. lia. }
        rewrite Z.min_l by assumption. split; assumption.
      * intros Hover.
        assert (Hge : 65535 * 1024 <= z * 1024).
        { assert (H' : (IZR (65535 * 1024) < IZR (z * 1024))%R) by lra.
          apply lt_IZR in H'. lia. }
        now rewrite Z.min_r by assumption.
  - assert (E16 : (bpow 16 = 65536)%R)
      by (rewrite (bpow_IZR 16) by lia; reflexivity).
    assert (Hrange : (76800 = 0 \/ bpow (-1000) <= 76800 < bpow 63)%R).
    { right. split.
      - apply (Rle_trans _ (bpow 16)); [apply bpow_le; lia|lra].
      - apply (Rlt_le_trans _ (bpow 17)); [|apply bpow_le; lia].
        rewrite (bpow_IZR 17) by lia. change (IZR (2 ^ 17)) with 131072%R. lra. }
    rewrite (beaconInterval_of_units shortSimulationTime 76800 75
               shortSimulationTime_microseconds
               (units_exact _ _ shortSimulationTime_microseconds Hrange)).
    + reflexivity.
    + replace (76800 / 1024)%R with (IZR 75) by (cbn; field).
      apply Zceil_eq. lra.
    + assert (P : 0 < 2 ^ 53) by reflexivity. lia.
  - unfold shortSimulationTime.
    change (IZR (2 ^ 56)) with 72057594037927936%R.
    apply (Rmult_lt_reg_r 72057594037927936); [lra|].
    replace (5534023222112866 / 72057594037927936 * 1000000 * 72057594037927936)%R
      with (5534023222112866 * 1000000)%R by field.
    lra.
Qed.

Lemma beacon_interval_whole_time_units_witness :
  fpRound (20 * 1000000) = Fin 20000000 /\
  (20000000 = 0 \/ bpow (-1000) <= 20000000 < bpow 63)%R /\
  beaconInterval 20 = Some 20000768.
Proof.
  assert (H0 : fpRound (20 * 1000000) = Fin 20000000).
  { replace (20 * 1000000)%R with (IZR 20000000) by (cbn; ring).
    apply fpRound_IZR. split; [discriminate|reflexivity]. }
  assert (H1 : (20000000 = 0 \/ bpow (-1000) <= 20000000 < bpow 63)%R).
  { right. split.
    - apply (Rle_trans _ (bpow 0)); [apply bpow_le; lia|].
      rewrite bpow_0. lra.
    - apply (Rlt_le_trans _ (bpow 25)); [|apply bpow_le; lia].
      rewrite (bpow_IZR 25) by lia. change (IZR (2 ^ 25)) with 33554432%R. lra. }
  split; [exact H0|]. split; [exact H1|].
  destruct (proj1 beacon_interval_whole_time_units 20%R 20000000%R H0 H1)
    as (b & Hb & [k Hk] & Hrange & Hfit & _).
  rewrite Hb. f_equal.
  destruct (Hfit ltac:(apply (IZR_le 20000000); discriminate)) as [Hlo Hhi].
  assert (Hlo' : 20000000 <= b) by (apply le_IZR; exact Hlo).
  assert (Hhi' : b < 20000000 + 1024).
  { apply lt_IZR. rewrite plus_IZR. exact Hhi. }
  lia.
Defined.

End SingleBssSetupFacts.

(** ** More on the Bernoulli client *)

Section BernoulliClientLifeFacts.

Import BernoulliClient.
Local Open Scope Z_scope.

(** *** Starting, stopping, starting again *)

Lemma StartApplication_post (s : State) :
  m_peerAddressSet s = true ->
  exists sk calls,
    StartApplication s =
      Done (set_sendEvent (Some (nextUid s))
              (set_nextUid (nextUid s + 1)
                 (set_queue
                    (insertEvent (mkSimEvent (now s + 0) (nextUid s)) (queue s))
                    (set_socket (Some sk) s))),
            calls ++ [SockSetRecvCallback; SimScheduleNow (nextUid s)]) /\
    (forall sk0, m_socket s = Some sk0 -> sk = sk0 /\ calls = []) /\
    (m_socket s = None ->
     sk_closed sk = false /\ sk_sendCalls sk = 0%nat /\
     sk_priority sk = m_priority s /\
     calls = if m_priority s =? 0
             then [SockBind; SockConnect]
             else [SockBind; SockConnect; SockSetPriority (m_priority s)]).
Proof.
  intros Hpeer. unfold StartApplication. rewrite Hpeer. cbn [assert bind].
  destruct (m_socket s) as [sk0|].
  - exists sk0, []. split; [reflexivity|]. split; [|discriminate].
    intros ? [= <-]. auto.
  - destruct (Z.eqb_spec (m_priority s) 0) as [E|E].
    + exists newSocket, [SockBind; SockConnect].
      split; [reflexivity|]. split; [discriminate|]. cbn. auto.
    + eexists. eexists. split; [reflexivity|]. split; [discriminate|].
      cbn. auto.
Qed.

(** X10.  [StartApplication] fails on its assertion exactly when no peer
    has been set; once one is set it returns, leaves the sent counter
    alone and arms one [Send] at the current time, which [m_sendEvent]
    names.  [StopApplication] on a client that has never been started
    dereferences the null socket. *)
Theorem start_and_stop_preconditions (s : State) :
  (m_peerAddressSet s = false ->
   StartApplication s = Abort PeerAddressNotSet) /\
  (m_peerAddressSet s = true ->
   exists s' calls,
     StartApplication s = Done (s', calls) /\
     m_sent s' = m_sent s /\
     m_sendEvent s' = Some (nextUid s) /\
     queue s' = insertEvent (mkSimEvent (now s) (nextUid s)) (queue s) /\
     isPending (m_sendEvent s') (queue s') = true /\
     m_socket s' <> None) /\
  (m_socket s = None -> StopApplication s = Abort NullSocket).
Proof.
  split; [|split].
  - intros H. unfold StartApplication. now rewrite H.
  - intros H. destruct (StartApplication_post s H) as (sk & calls & Hs & _).
    eexists. eexists. split; [exact Hs|]. cbn.
    rewrite Z.add_0_r. repeat split; try discriminate.
    apply (isPending_insert (mkSimEvent (now s) (nextUid s))).
  - intros H. unfold StopApplication. cbn. now rewrite H.
Qed.

Lemma start_and_stop_preconditions_witness :
  m_peerAddressSet (construct 0) = false /\
  m_socket (construct 0) = None /\
  m_peerAddressSet (SetRemote (construct 0)) = true /\
  StartApplication (construct 0) = Abort PeerAddressNotSet /\
  StopApplication (construct 0) = Abort NullSocket /\
  exists s' calls, StartApplication (SetRemote (construct 0)) = Done (s', calls).
Proof.
  split; [reflexivity|]. split; [reflexivity|]. split; [reflexivity|].
  destruct (start_and_stop_preconditions (construct 0)) as (Hstart & _ & Hstop).
  destruct (start_and_stop_preconditions (SetRemote (construct 0)))
    as (_ & Hok & _).
  split; [exact (Hstart eq_refl)|]. split; [exact (Hstop eq_refl)|].
  destruct (Hok eq_refl) as (s' & calls & H & _). eauto.
Defined.

(** X11.  A second [StartApplication] while the first [Send] is still
    pending arms a second one, and [m_sendEvent] then names only that one:
    when the first fires, its assertion that [m_sendEvent] has expired
    fails. *)
Theorem second_start_trips_assertion (cfg : Config) (s : State) :
  m_peerAddressSet s = true -> queue s = [] ->
  exec cfg [OpStart; OpStart; OpEvent] s = Abort SendEventNotExpired.
Proof.
  intros Hpeer Hq.
  destruct (StartApplication_post s Hpeer) as (sk & calls & Hs & _).
  set (s1 := set_sendEvent _ _) in Hs.
  assert (Hpeer1 : m_peerAddressSet s1 = true) by exact Hpeer.
  destruct (StartApplication_post s1 Hpeer1) as (sk1 & calls1 & Hs1 & _).
  set (s2 := set_sendEvent _ _) in Hs1.
  cbn [exec perform]. rewrite Hs. cbn [bind fst snd]. rewrite Hs1.
  cbn [bind fst snd].
  assert (Hq2 : queue s2 =
                [mkSimEvent (now s + 0) (nextUid s);
                 mkSimEvent (now s + 0) (nextUid s + 1)]).
  { unfold s2, s1. cbn. rewrite Hq. cbn. unfold ev_before. cbn.
    replace (nextUid s + 1 <? nextUid s) with false
      by (symmetry; apply Z.ltb_ge; lia).
    now rewrite Z.ltb_irrefl, andb_false_r. }
  unfold processOneEvent. rewrite Hq2. unfold Send, IsExpired.
  cbn. now rewrite Z.eqb_refl.
Qed.

Lemma second_start_trips_assertion_witness :
  m_peerAddressSet (SetRemote (construct 0)) = true /\
  queue (SetRemote (construct 0)) = [] /\
  exec (sampleConfig 3 0 0) [OpStart; OpStart; OpEvent] (SetRemote (construct 0))
    = Abort SendEventNotExpired.
Proof.
  split; [reflexivity|]. split; [reflexivity|].
  exact (second_start_trips_assertion (sampleConfig 3 0 0)
           (SetRemote (construct 0)) eq_refl eq_refl).
Defined.

(** *** Counters, streams and the socket over any life *)

Lemma Send_accounting (cfg : Config) (s s' : State) (calls : list Call) :
  Send cfg s = Done (s', calls) ->
  countCalls isSockSend calls = 1%nat /\
  countCalls isSockBind calls = 0%nat /\
  m_sent s' = m_sent s + 1 /\
  m_priority s' = m_priority s /\
  socketSends s' = S (socketSends s) /\
  intervalDraws s' = S (intervalDraws s) /\
  tidDraws s' =
    (if m_optionalTid cfg =? m_priority s then tidDraws s else S (tidDraws s)) /\
  (m_socket s <> None /\ m_socket s' <> None) /\
  (socketClosed s -> socketClosed s').
Proof.
  intros Hdone.
  destruct (Send_inv _ _ _ _ Hdone) as (sk & interval & Hsk & _ & _ & Hs' & Hcalls).
  set (s3 := set_intervalDraws (S (intervalDraws s)) (fst (transmit cfg s sk))) in *.
  destruct (transmit_frame cfg s sk)
    as (Hsent & Hprio & _ & Hdraw & _ & _ & _ & sk' & Hsk' & Hcl & Hcnt).
  destruct (armNext_frame cfg interval s3)
    as (Hsent' & Hprio' & Hsock' & Hdraw' & Htid' & _).
  destruct (transmit_calls cfg s sk) as (Hone & Heq & Hne).
  destruct (armNext_calls cfg interval s3) as (Hzero & _).
  assert (Hsock : m_socket s' = Some sk')
    by (rewrite Hs', Hsock'; exact Hsk').
  assert (Hbind : countCalls isSockBind calls = 0%nat).
  { rewrite Hcalls, countCalls_app. unfold transmit, choosePriority, reportSend, armNext.
    destruct (negb _); [destruct (Rltb _ _)|]; destruct (0 <=? _);
      destruct (_ || _); reflexivity. }
  split; [rewrite Hcalls, countCalls_app, Hone, Hzero; reflexivity|].
  split; [exact Hbind|].
  split; [rewrite Hs', Hsent'; exact Hsent|].
  split; [rewrite Hs', Hprio'; exact Hprio|].
  split; [unfold socketSends; rewrite Hsock, Hsk, Hcnt; reflexivity|].
  split; [rewrite Hs', Hdraw'; reflexivity|].
  split.
  - rewrite Hs', Htid'. change (tidDraws s3) with (tidDraws (fst (transmit cfg s sk))).
    destruct (Z.eqb_spec (m_optionalTid cfg) (m_priority s)) as [E|E].
    + exact (proj1 (Heq E)).
    + exact (proj1 (Hne E)).
  - split; [split; congruence|].
    intros (sk0 & Hsk0 & Hclosed). exists sk'. split; [exact Hsock|].
    assert (sk0 = sk) by congruence. subst sk0. congruence.
Qed.

(** What one operation adds to the counters. *)
Lemma perform_accounting (cfg : Config) (op : Op) (s s' : State) (calls : list Call) :
  perform cfg op s = Done (s', calls) ->
  let sends := countCalls isSockSend calls in
  m_priority s' = m_priority s /\
  m_sent s' = m_sent s + Z.of_nat sends /\
  socketSends s' = (socketSends s + sends)%nat /\
  intervalDraws s' = (intervalDraws s + sends)%nat /\
  tidDraws s' =
    (tidDraws s + if (m_optionalTid cfg =? m_priority s)%Z then 0 else sends)%nat.
Proof.
  intros Hdone. destruct op; cbn [perform] in Hdone.
  - unfold StartApplication in Hdone.
    destruct (m_peerAddressSet s); [|discriminate]. cbn [assert bind] in Hdone.
    unfold socketSends.
    destruct (m_socket s) as [sk|]; [|destruct (m_priority s =? 0)];
      cbn in Hdone; injection Hdone as <- <-; cbn;
      destruct (m_optionalTid cfg =? m_priority s); repeat split; lia.
  - unfold processOneEvent in Hdone.
    destruct (queue s) as [|e q].
    + injection Hdone as <- <-. cbn.
      destruct (m_optionalTid cfg =? m_priority s); repeat split; lia.
    + destruct (Send_accounting _ _ _ _ Hdone)
        as (Hone & _ & Hsent & Hprio & Hsock & Hdraw & Htid & _).
      cbn zeta. rewrite Hone.
      cbn [m_sent m_priority intervalDraws tidDraws set_now set_queue] in *.
      change (socketSends (set_now (ev_ts e) (set_queue q s)))
        with (socketSends s) in Hsock.
      split; [exact Hprio|]. split; [rewrite Hsent; lia|].
      split; [rewrite Hsock; lia|]. split; [rewrite Hdraw; lia|].
      rewrite Htid. destruct (m_optionalTid cfg =? m_priority s); lia.
  - unfold StopApplication in Hdone. cbn in Hdone. unfold socketSends.
    destruct (m_socket s) as [sk|]; [|discriminate].
    injection Hdone as <- <-. cbn.
    destruct (m_optionalTid cfg =? m_priority s); repeat split; lia.
Qed.

Lemma exec_accounting (cfg : Config) (ops : list Op) :
  forall (s s' : State) (calls : list Call),
    exec cfg ops s = Done (s', calls) ->
    let sends := countCalls isSockSend calls in
    m_priority s' = m_priority s /\
    m_sent s' = m_sent s + Z.of_nat sends /\
    socketSends s' = (socketSends s + sends)%nat /\
    intervalDraws s' = (intervalDraws s + sends)%nat /\
    tidDraws s' =
      (tidDraws s + if (m_optionalTid cfg =? m_priority s)%Z then 0 else sends)%nat.
Proof.
  induction ops as [|op ops IH]; intros s s' calls Hdone.
  - injection Hdone as <- <-. cbn.
    destruct (m_optionalTid cfg =? m_priority s); repeat split; lia.
  - destruct (exec_inv _ _ _ _ _ _ Hdone) as (s1 & calls1 & calls2 & H1 & H2 & ->).
    destruct (perform_accounting _ _ _ _ _ H1) as (Hp1 & Hs1 & Hk1 & Hi1 & Ht1).
    destruct (IH _ _ _ H2) as (Hp2 & Hs2 & Hk2 & Hi2 & Ht2).
    cbn zeta in *. rewrite countCalls_app. rewrite Hp1 in Ht2.
    split; [congruence|]. split; [lia|]. split; [lia|]. split; [lia|].
    destruct (m_optionalTid cfg =? m_priority s); lia.
Qed.

(** X12.  Over any sequence of starts, scheduler turns and stops that runs
    to its end, the sent counter grows by exactly the number of packets
    handed to the socket, and so does the socket's own count: from a new
    client both equal the number of [Socket::Send] calls made. *)
Theorem sent_counter_counts_socket_sends
  (cfg : Config) (ops : list Op) (s s' : State) (calls : list Call) :
  exec cfg ops s = Done (s', calls) ->
  m_sent s' = m_sent s + Z.of_nat (countCalls isSockSend calls) /\
  socketSends s' = (socketSends s + countCalls isSockSend calls)%nat /\
  (forall priority, s = SetRemote (construct priority) ->
     m_sent s' = Z.of_nat (countCalls isSockSend calls) /\
     socketSends s' = countCalls isSockSend calls /\
     m_sent s' = Z.of_nat (socketSends s')).
Proof.
  intros Hdone.
  destruct (exec_accounting _ _ _ _ _ Hdone) as (_ & Hs & Hk & _).
  cbn zeta in *. split; [exact Hs|]. split; [exact Hk|].
  intros priority ->. cbn in Hs, Hk. rewrite Hs, Hk. repeat split; lia.
Qed.

(** X13.  Over any such sequence the interval stream is advanced once per
    packet sent, and the priority stream once per packet sent when the
    optional class differs from the primary one and not at all when they
    coincide: the two streams are consumed independently of each other and
    of the outcome of the transmissions. *)
Theorem streams_advance_once_per_packet
  (cfg : Config) (ops : list Op) (s s' : State) (calls : list Call) :
  exec cfg ops s = Done (s', calls) ->
  let sends := countCalls isSockSend calls in
  intervalDraws s' = (intervalDraws s + sends)%nat /\
  (m_optionalTid cfg = m_priority s -> tidDraws s' = tidDraws s) /\
  (m_optionalTid cfg <> m_priority s -> tidDraws s' = (tidDraws s + sends)%nat).
Proof.
  intros Hdone.
  destruct (exec_accounting _ _ _ _ _ Hdone) as (_ & _ & _ & Hi & Ht).
  cbn zeta in *. split; [exact Hi|].
  destruct (Z.eqb_spec (m_optionalTid cfg) (m_priority s)) as [E|E];
    split; intros E'; try contradiction; lia.
Qed.

Lemma sent_counter_counts_socket_sends_witness :
  exists s' calls,
    exec (sampleConfig 3 0 0) (OpStart :: repeat OpEvent 2)
         (SetRemote (construct 0)) = Done (s', calls) /\
    m_sent s' = Z.of_nat (countCalls isSockSend calls) /\
    socketSends s' = countCalls isSockSend calls.
Proof.
  destruct (started_run (sampleConfig 3 0 0) 0 2 (sampleConfig_valid 3 0 0) eq_refl)
    as (s' & calls & Hrun & _).
  exists s', calls. split; [exact Hrun|].
  destruct (sent_counter_counts_socket_sends _ _ _ _ _ Hrun) as (_ & _ & H).
  destruct (H 0 eq_refl) as (H1 & H2 & _). split; assumption.
Defined.

Lemma streams_advance_once_per_packet_witness :
  exists s' calls,
    exec (sampleConfig 3 3 (1 / 2)) (OpStart :: repeat OpEvent 2)
         (SetRemote (construct 0)) = Done (s', calls) /\
    intervalDraws s' = countCalls isSockSend calls /\
    tidDraws s' = countCalls isSockSend calls.
Proof.
  destruct (started_run (sampleConfig 3 3 (1 / 2)) 0 2
              (sampleConfig_valid 3 3 (1 / 2)) eq_refl)
    as (s' & calls & Hrun & _).
  exists s', calls. split; [exact Hrun|].
  destruct (streams_advance_once_per_packet _ _ _ _ _ Hrun) as (Hi & _ & Ht).
  split; [exact Hi|]. apply Ht. discriminate.
Defined.

Lemma perform_socket (cfg : Config) (op : Op) (s s' : State) (calls : list Call) :
  perform cfg op s = Done (s', calls) ->
  (m_socket s <> None ->
   m_socket s' <> None /\ countCalls isSockBind calls = 0%nat) /\
  (m_socket s = None ->
   (m_socket s' = None /\ countCalls isSockBind calls = 0%nat) \/
   (m_socket s' <> None /\ countCalls isSockBind calls = 1%nat)) /\
  (socketClosed s -> socketClosed s').
Proof.
  intros Hdone. destruct op; cbn [perform] in Hdone.
  - destruct (m_peerAddressSet s) eqn:Hpeer;
      [|unfold StartApplication in Hdone; rewrite Hpeer in Hdone; discriminate].
    destruct (StartApplication_post s Hpeer) as (sk & calls0 & Hs & Hold & Hnew).
    rewrite Hs in Hdone. injection Hdone as <- <-.
    rewrite countCalls_app. cbn [m_socket set_sendEvent set_nextUid set_queue set_socket].
    split; [|split].
    + intros H. split; [discriminate|].
      destruct (m_socket s) as [sk0|]; [|congruence].
      destruct (Hold sk0 eq_refl) as [_ ->]. reflexivity.
    + intros H. right. split; [discriminate|].
      destruct (Hnew H) as (_ & _ & _ & ->).
      now destruct (m_priority s =? 0).
    + intros (sk0 & Hsk0 & Hclosed). exists sk. split; [reflexivity|].
      destruct (Hold sk0 Hsk0) as [-> _]. exact Hclosed.
  - unfold processOneEvent in Hdone.
    destruct (queue s) as [|e q].
    + injection Hdone as <- <-. cbn. repeat split; auto.
    + destruct (Send_accounting _ _ _ _ Hdone)
        as (_ & Hbind & _ & _ & _ & _ & _ & (Hs & Hs') & Hclosed).
      cbn [m_socket set_now set_queue] in Hs.
      split; [intros _; auto|]. split; [intros H; contradiction|].
      exact Hclosed.
  - unfold StopApplication in Hdone. cbn in Hdone. unfold socketClosed.
    destruct (m_socket s) as [sk|]; [|discriminate].
    injection Hdone as <- <-. cbn.
    split; [intros _; split; [discriminate|reflexivity]|].
    split; [discriminate|]. intros _. eexists. split; reflexivity.
Qed.

(** X14.  Over any sequence of starts, scheduler turns and stops that runs
    to its end, the socket is bound at most once: exactly once when the
    client ends with a socket it did not begin with, never when it began
    with one.  A socket that has been closed is never opened again: a
    client started after a stop goes on with its closed socket. *)
Theorem socket_bound_once_never_reopened (cfg : Config) (ops : list Op) :
  forall (s s' : State) (calls : list Call),
    exec cfg ops s = Done (s', calls) ->
    (m_socket s <> None ->
     m_socket s' <> None /\ countCalls isSockBind calls = 0%nat) /\
    (m_socket s = None ->
     (m_socket s' = None /\ countCalls isSockBind calls = 0%nat) \/
     (m_socket s' <> None /\ countCalls isSockBind calls = 1%nat)) /\
    (socketClosed s -> socketClosed s').
Proof.
  induction ops as [|op ops IH]; intros s s' calls Hdone.
  - injection Hdone as <- <-. cbn. repeat split; auto.
  - destruct (exec_inv _ _ _ _ _ _ Hdone) as (s1 & calls1 & calls2 & H1 & H2 & ->).
    destruct (perform_socket _ _ _ _ _ H1) as (Hsome1 & Hnone1 & Hcl1).
    destruct (IH _ _ _ H2) as (Hsome2 & Hnone2 & Hcl2).
    rewrite countCalls_app.
    split; [|split].
    + intros H. destruct (Hsome1 H) as [Hs1 Hc1].
      destruct (Hsome2 Hs1) as [Hs2 Hc2]. split; [assumption|lia].
    + intros H. destruct (Hnone1 H) as [[Hs1 Hc1]|[Hs1 Hc1]].
      * destruct (Hnone2 Hs1) as [[Hs2 Hc2]|[Hs2 Hc2]];
          [left|right]; split; try assumption; lia.
      * destruct (Hsome2 Hs1) as [Hs2 Hc2]. right. split; [assumption|lia].
    + intros H. auto.
Qed.

Lemma restart_run (cfg : Config) :
  exec cfg [OpStart; OpStop; OpStart] (SetRemote (construct 0)) =
    Done (mkState 0 0 (Some (mkSocket 0 true 0)) (Some 1) true 0 0 0
                  [mkSimEvent 0 1] 2,
          [SockBind; SockConnect; SockSetRecvCallback; SimScheduleNow 0;
           SimCancel (Some 0); SockClose;
           SockSetRecvCallback; SimScheduleNow 1]).
Proof. reflexivity. Qed.

Lemma socket_bound_once_never_reopened_witness :
  m_socket (SetRemote (construct 0)) = None /\
  exists s' calls,
    exec (sampleConfig 3 0 0) [OpStart; OpStop; OpStart] (SetRemote (construct 0))
      = Done (s', calls) /\
    countCalls isSockBind calls = 1%nat /\
    m_socket s' <> None.
Proof.
  split; [reflexivity|].
  pose proof (restart_run (sampleConfig 3 0 0)) as Hrun.
  eexists. eexists. split; [exact Hrun|].
  destruct (socket_bound_once_never_reopened _ _ _ _ _ Hrun) as (_ & Hnone & _).
  destruct (Hnone eq_refl) as [[H _]|[H1 H2]]; [discriminate H|].
  split; assumption.
Defined.

(** X15.  [SetPriority] stores the priority that [GetPriority] returns and
    passes it on to the socket exactly when there is one, so that the
    socket's tag agrees with the stored priority afterwards; a client whose
    priority is set before it is first started gets its socket tagged by
    [StartApplication], with a priority call only for a priority other
    than 0. *)
Theorem set_priority_reaches_socket (priority : Z) (s : State) :
  let r := SetPriority priority s in
  GetPriority (fst r) = priority /\
  socketTagged (fst r) /\
  m_sent (fst r) = m_sent s /\ queue (fst r) = queue s /\
  (m_socket s = None -> snd r = []) /\
  (m_socket s <> None -> snd r = [SockSetPriority priority]) /\
  (m_socket s = None -> m_peerAddressSet s = true ->
   exists s' calls,
     StartApplication (fst r) = Done (s', calls) /\
     GetPriority s' = priority /\ socketTagged s' /\ m_socket s' <> None /\
     countCalls isSetPriority calls = (if priority =? 0 then 0%nat else 1%nat)).
Proof.
  cbn zeta. unfold SetPriority, GetPriority, socketTagged. cbn [m_socket set_priority].
  destruct (m_socket s) as [sk|] eqn:Hsk; cbn.
  - repeat split; try congruence. intros sk' [= <-]. reflexivity.
  - repeat split; try congruence; try discriminate.
    intros _ Hpeer. unfold StartApplication. cbn. rewrite Hpeer, Hsk. cbn.
    destruct (Z.eqb_spec priority 0) as [E|E]; cbn;
      eexists; eexists; (split; [reflexivity|]); cbn;
      repeat split; try discriminate; intros sk' [= <-]; cbn; congruence.
Qed.

Lemma set_priority_reaches_socket_witness :
  m_socket (SetRemote (construct 0)) = None /\
  m_peerAddressSet (SetRemote (construct 0)) = true /\
  exists s' calls,
    StartApplication (fst (SetPriority 3 (SetRemote (construct 0))))
      = Done (s', calls) /\
    GetPriority s' = 3 /\ countCalls isSetPriority calls = 1%nat.
Proof.
  split; [reflexivity|]. split; [reflexivity|].
  destruct (set_priority_reaches_socket 3 (SetRemote (construct 0)))
    as (_ & _ & _ & _ & _ & _ & H).
  destruct (H eq_refl eq_refl) as (s' & calls & Hs & Hp & _ & _ & Hc).
  exists s', calls. repeat split; assumption.
Defined.

(** *** The run of a started client, turn by turn *)

Lemma defaultConfig_valid (uniformT : nat -> R) (sendResult : nat -> Z) :
  validDraws (defaultConfig (fun _ => (1 / 2)%R) uniformT sendResult sampleLog).
Proof.
  split; [cbn; lra|]. intros n.
  exists 1%R. split.
  - unfold logQuotient. cbn [m_bernoulliPr stdLog defaultConfig uniformForInterval].
    rewrite dsub_one_half. cbn [dlog].
    destruct sampleLog_half as (l & -> & Hl). apply ddiv_same. lra.
  - split.
    + rewrite (bpow_IZR 52) by lia. split; [lra|]. apply (IZR_le 1). cbn. lia.
    + rewrite slotsOf_one. reflexivity.
Qed.

(** X16.  A new client, started and given [n] turns of the scheduler that
    return, has sent [n] packets when [MaxPackets] is 0 and
    [min n MaxPackets] packets otherwise; it is still running, and a next
    [Send] is pending exactly when [MaxPackets] is 0 or has not been
    reached.  With valid draws, that is when every sample of the interval
    stream yields an interval, those turns do return. *)
Theorem packets_sent_after_turns (cfg : Config) (priority : Z) (n : nat) :
  0 <= m_maxPackets cfg ->
  (forall s' calls,
     exec cfg (OpStart :: repeat OpEvent n) (SetRemote (construct priority))
       = Done (s', calls) ->
     m_sent s' = sentAfter cfg 0 n /\
     Z.of_nat (countCalls isSockSend calls) = sentAfter cfg 0 n /\
     lifecycle s' = Running /\
     (isPending (m_sendEvent s') (queue s') = true <->
      m_maxPackets cfg = 0 \/ Z.of_nat n < m_maxPackets cfg)) /\
  (validDraws cfg ->
   exists s' calls,
     exec cfg (OpStart :: repeat OpEvent n) (SetRemote (construct priority))
       = Done (s', calls)).
Proof.
  intros Hmax. split; [|intros Hv; now apply started_returns].
  intros s' calls Hrun.
  destruct (started_turns_inv cfg priority n s' calls Hmax Hrun)
    as (Hinv & Hsent & Hcount & _).
  split; [exact Hsent|]. split; [congruence|].
  destruct Hinv as ((sk & Hsk & Hopen) & Harm & Hquiet).
  split; [unfold lifecycle; now rewrite Hsk, Hopen|].
  assert (Hiff : mayRearm cfg s' <->
                 m_maxPackets cfg = 0 \/ Z.of_nat n < m_maxPackets cfg).
  { unfold mayRearm. rewrite Hsent. unfold sentAfter.
    destruct (Z.eqb_spec (m_maxPackets cfg) 0); lia. }
  rewrite <- Hiff. split.
  - intros Hpend. destruct (mayRearm_dec cfg s') as [H|H]; [assumption|].
    rewrite (Hquiet H) in Hpend. now destruct (m_sendEvent s').
  - intros H. destruct (Harm H) as (e & -> & ->). cbn. now rewrite Z.eqb_refl.
Qed.

Lemma packets_sent_after_turns_witness :
  0 <= m_maxPackets
         (defaultConfig (fun _ => (1 / 2)%R) (fun _ => 0%R) (fun _ => 0) sampleLog) /\
  validDraws
    (defaultConfig (fun _ => (1 / 2)%R) (fun _ => 0%R) (fun _ => 0) sampleLog) /\
  exists s' calls,
    exec (defaultConfig (fun _ => (1 / 2)%R) (fun _ => 0%R) (fun _ => 0) sampleLog)
         (OpStart :: repeat OpEvent 150) (SetRemote (construct 0))
      = Done (s', calls) /\
    m_sent s' = 100 /\ lifecycle s' = Running.
Proof.
  assert (Hv := defaultConfig_valid (fun _ => 0%R) (fun _ => 0)).
  assert (Hm : 0 <= m_maxPackets
                      (defaultConfig (fun _ => (1 / 2)%R) (fun _ => 0%R)
                         (fun _ => 0) sampleLog))
    by (cbn; lia).
  split; [exact Hm|]. split; [exact Hv|].
  destruct (packets_sent_after_turns _ 0 150 Hm) as [Hinv Hret].
  destruct (Hret Hv) as (s' & calls & Hrun).
  destruct (Hinv s' calls Hrun) as (Hsent & _ & Hlife & _).
  exists s', calls. split; [exact Hrun|]. split; [exact Hsent|exact Hlife].
Defined.

Lemma wholeSlots_sum (cfg : Config) (delays : list Z) :
  0 < m_timeSlot cfg -> Forall (wholeSlots cfg) delays ->
  Z.of_nat (length delays) * m_timeSlot cfg <= DelayDecomposition.Zsum delays.
Proof.
  intros HT. induction 1 as [|d delays (k & Hk & ->) Hall IH].
  - cbn. lia.
  - unfold DelayDecomposition.Zsum in *. cbn [length fold_right].
    rewrite Nat2Z.inj_succ. nia.
Qed.

(** X17.  For a new client with a positive time slot, started and given
    any number of turns that return: every delay it asked the scheduler
    for is a whole, positive number of time slots; the time of its pending
    [Send], or the current time once it has gone quiet, is the sum of
    those delays, and hence at least one time slot per delay.  With valid
    draws those turns do return. *)
Theorem send_times_accumulate_intervals (cfg : Config) (priority : Z) (n : nat) :
  0 <= m_maxPackets cfg -> 0 < m_timeSlot cfg ->
  (forall s' calls,
     exec cfg (OpStart :: repeat OpEvent n) (SetRemote (construct priority))
       = Done (s', calls) ->
     Forall (wholeSlots cfg) (scheduleDelays calls) /\
     timeline s' = DelayDecomposition.Zsum (scheduleDelays calls) /\
     Z.of_nat (length (scheduleDelays calls)) * m_timeSlot cfg <= timeline s') /\
  (validDraws cfg ->
   exists s' calls,
     exec cfg (OpStart :: repeat OpEvent n) (SetRemote (construct priority))
       = Done (s', calls)).
Proof.
  intros Hmax HT. split; [|intros Hv; now apply started_returns].
  intros s' calls Hrun.
  destruct (started_turns_inv cfg priority n s' calls Hmax Hrun)
    as (_ & _ & _ & Htime & Hall).
  split; [exact Hall|].
  split; [exact Htime|]. rewrite Htime. now apply wholeSlots_sum.
Qed.

Lemma send_times_accumulate_intervals_witness :
  0 <= m_maxPackets (sampleConfig 0 0 0) /\
  0 < m_timeSlot (sampleConfig 0 0 0) /\
  validDraws (sampleConfig 0 0 0) /\
  exists s' calls,
    exec (sampleConfig 0 0 0) (OpStart :: repeat OpEvent 4)
         (SetRemote (construct 0)) = Done (s', calls) /\
    timeline s' = DelayDecomposition.Zsum (scheduleDelays calls).
Proof.
  assert (Hv := sampleConfig_valid 0 0 0).
  assert (Hm : 0 <= m_maxPackets (sampleConfig 0 0 0)) by (cbn; lia).
  assert (HT : 0 < m_timeSlot (sampleConfig 0 0 0)) by reflexivity.
  split; [exact Hm|]. split; [exact HT|]. split; [exact Hv|].
  destruct (send_times_accumulate_intervals _ 0 4 Hm HT) as [Hinv Hret].
  destruct (Hret Hv) as (s' & calls & Hrun).
  destruct (Hinv s' calls Hrun) as (_ & Htime & _).
  exists s', calls. split; [exact Hrun|exact Htime].
Defined.

(** *** The stations of [main] *)

Lemma Send_tag (cfg : Config) (s s' : State) (calls : list Call) :
  Send cfg s = Done (s', calls) ->
  let v := uniformForTid cfg (tidDraws s) in
  m_priority s' = m_priority s /\
  (m_optionalTid cfg = m_priority s -> socketTagged s ->
   sendPriorities calls = [m_priority s] /\ socketTagged s') /\
  (m_optionalTid cfg <> m_priority s ->
   ((v < m_optionalTidPr cfg)%R -> sendPriorities calls = [m_optionalTid cfg]) /\
   (~ (v < m_optionalTidPr cfg)%R -> sendPriorities calls = [m_priority s])).
Proof.
  intros Hdone v.
  destruct (Send_inv _ _ _ _ Hdone) as (sk & interval & Hsk & _ & _ & Hs' & Hcalls).
  set (s3 := set_intervalDraws (S (intervalDraws s)) (fst (transmit cfg s sk))) in *.
  destruct (transmit_frame cfg s sk) as (_ & Hp & _).
  destruct (armNext_frame cfg interval s3) as (_ & Hp' & Hsock & _).
  destruct (transmit_calls cfg s sk) as (_ & Heq & Hne).
  destruct (armNext_calls cfg interval s3) as (_ & _ & Hnone).
  assert (Hprio : m_priority s' = m_priority s)
    by (rewrite Hs', Hp'; unfold s3; cbn; exact Hp).
  rewrite Hcalls, sendPriorities_app, Hnone, app_nil_r.
  split; [exact Hprio|]. split.
  - intros E Htag. destruct (Heq E) as (_ & _ & Hsent & Hkeep).
    assert (Hsk0 : sk_priority sk = m_priority s) by now apply Htag.
    split; [now rewrite Hsent, Hsk0|].
    intros sk' Hsk'. rewrite Hprio, <- Hsk0.
    rewrite Hs', Hsock in Hsk'. unfold s3 in Hsk'. cbn in Hsk'.
    rewrite Hsk' in Hkeep. cbn in Hkeep. congruence.
  - intros E. destruct (Hne E) as (_ & _ & Hlt & Hge).
    split; intros Hv; [exact (proj1 (Hlt Hv))|exact (proj1 (Hge Hv))].
Qed.

(** Every packet carries [tag] when the choice of lines 196-209 always
    falls on it. *)
Lemma exec_tag (cfg : Config) (tag : Z) (ops : list Op) :
  forall (s s' : State) (calls : list Call),
    (m_optionalTid cfg = m_priority s -> socketTagged s /\ tag = m_priority s) ->
    (m_optionalTid cfg <> m_priority s ->
     forall k,
       ((uniformForTid cfg k < m_optionalTidPr cfg)%R -> tag = m_optionalTid cfg) /\
       (~ (uniformForTid cfg k < m_optionalTidPr cfg)%R -> tag = m_priority s)) ->
    exec cfg ops s = Done (s', calls) ->
    Forall (eq tag) (sendPriorities calls).
Proof.
  induction ops as [|op ops IH]; intros s s' calls Heq Hne Hdone.
  - injection Hdone as <- <-. constructor.
  - destruct (exec_inv _ _ _ _ _ _ Hdone) as (s1 & calls1 & calls2 & H1 & H2 & ->).
    rewrite sendPriorities_app. apply Forall_app.
    assert (Hstep : m_priority s1 = m_priority s /\
                    (m_optionalTid cfg = m_priority s -> socketTagged s1) /\
                    Forall (eq tag) (sendPriorities calls1)).
    { destruct op; cbn [perform] in H1.
      - destruct (m_peerAddressSet s) eqn:Hpeer;
          [|unfold StartApplication in H1; rewrite Hpeer in H1; discriminate].
        destruct (StartApplication_post s Hpeer) as (sk & calls0 & Hs & Hold & Hnew).
        rewrite Hs in H1. injection H1 as <- <-.
        split; [reflexivity|]. split.
        + intros E sk' [= <-]. cbn.
          destruct (m_socket s) as [sk0|] eqn:Hsk0.
          * destruct (Hold sk0 eq_refl) as [-> _].
            now apply (proj1 (Heq E)).
          * exact (proj1 (proj2 (proj2 (Hnew eq_refl)))).
        + rewrite sendPriorities_app.
          destruct (m_socket s) as [sk0|] eqn:Hsk0.
          * destruct (Hold sk0 eq_refl) as [_ ->]. constructor.
          * destruct (Hnew eq_refl) as (_ & _ & _ & ->).
            destruct (m_priority s =? 0); constructor.
      - unfold processOneEvent in H1.
        destruct (queue s) as [|e q].
        + injection H1 as <- <-. split; [reflexivity|].
          split; [intros E; exact (proj1 (Heq E))|constructor].
        + destruct (Send_tag _ _ _ _ H1) as (Hp & Hsame & Hdiff).
          cbn [m_priority tidDraws set_now set_queue] in Hp, Hsame, Hdiff.
          split; [exact Hp|]. split.
          * intros E. destruct (Heq E) as [Htag _].
            exact (proj2 (Hsame E Htag)).
          * destruct (Z.eq_dec (m_optionalTid cfg) (m_priority s)) as [E|E].
            -- destruct (Heq E) as [Htag ->].
               rewrite (proj1 (Hsame E Htag)). now constructor.
            -- destruct (Hdiff E) as [Hlt Hge].
               destruct (Hne E (tidDraws s)) as [Tlt Tge].
               destruct (Rlt_dec (uniformForTid cfg (tidDraws s)) (m_optionalTidPr cfg))
                 as [Hv|Hv].
               ++ rewrite (Hlt Hv), (Tlt Hv). now constructor.
               ++ rewrite (Hge Hv), (Tge Hv). now constructor.
      - unfold StopApplication in H1. cbn in H1.
        destruct (m_socket s) as [sk|] eqn:Hsk; [|discriminate].
        injection H1 as <- <-. split; [reflexivity|].
        split; [|constructor].
        intros E sk' [= <-]. cbn. apply (proj1 (Heq E)). exact Hsk. }
    destruct Hstep as (Hp1 & Htag1 & Hall1).
    split; [exact Hall1|].
    apply (IH s1 s' calls2); [| |exact H2]; rewrite Hp1.
    + intros E. split; [exact (Htag1 E)|exact (proj2 (Heq E))].
    + exact Hne.
Qed.

Lemma GetBernoulliClient_split
  (wifiAcList : Z -> option (Z * Z)) (acUndef slotTime : Z)
  (uniformI uniformT : nat -> R) (sendResult : nat -> Z) (log : R -> double)
  (pktSize : Z) (prob : R) (ac : Z) (optionalPr : R)
  (cfg : Config) (s0 : State) :
  GetBernoulliClient wifiAcList acUndef slotTime uniformI uniformT sendResult
    log pktSize prob ac true ac optionalPr = Some (cfg, s0) ->
  exists low high,
    wifiAcList ac = Some (low, high) /\
    cfg = mkConfig 0 slotTime prob pktSize high optionalPr
                   uniformI uniformT sendResult log /\
    s0 = SetRemote (fst (SetPriority low (construct 0))).
Proof.
  unfold GetBernoulliClient.
  destruct (ac =? acUndef); [discriminate|]. cbn [negb andb].
  destruct (wifiAcList ac) as [[low high]|]; [|discriminate].
  destruct (_ && _); [|discriminate].
  intros [= <- <-]. exists low, high. repeat split.
Qed.

(** X19.  The client that [main] builds for a station sends without limit,
    has its peer address set, and tags every packet with one TID: the low
    TID of its access category for the first [nSldLink1Sta] stations, whose
    optional probability is 0, and the high TID for the other stations,
    whose optional probability is 1 (samples of the priority stream lying
    between 0, included, and 1, excluded). *)
Theorem station_packets_carry_one_tid :
  forall (wifiAcList : Z -> option (Z * Z)) (acUndef slotTime : Z)
          (uniformI uniformT : nat -> R) (sendResult : nat -> Z)
          (log : R -> double)
          (payloadSize : Z) (nSldLink1Sta : nat) (sldLink1Ac sldLink2Ac : Z)
          (lambda1 lambda2 : R) (i : nat) (cfg : Config) (s0 : State),
     stationClient wifiAcList acUndef slotTime uniformI uniformT sendResult
       log payloadSize nSldLink1Sta sldLink1Ac sldLink2Ac lambda1 lambda2 i
       = Some (cfg, s0) ->
     (forall k, (0 <= uniformT k < 1)%R) ->
     m_maxPackets cfg = 0 /\ m_peerAddressSet s0 = true /\
     exists low high,
       wifiAcList (if (i <? nSldLink1Sta)%nat then sldLink1Ac else sldLink2Ac)
         = Some (low, high) /\
       GetPriority s0 = low /\ m_optionalTid cfg = high /\
       forall (ops : list Op) (s' : State) (calls : list Call),
         exec cfg ops s0 = Done (s', calls) ->
         Forall (eq (if (i <? nSldLink1Sta)%nat then low else high))
                (sendPriorities calls).
Proof.
  intros wifiAcList acUndef slotTime uniformI uniformT sendResult log payloadSize
    nSldLink1Sta sldLink1Ac sldLink2Ac lambda1 lambda2 i cfg s0 Hst Hdraws.
  unfold stationClient in Hst.
  destruct (i <? nSldLink1Sta)%nat;
    destruct (GetBernoulliClient_split _ _ _ _ _ _ _ _ _ _ _ _ _ Hst)
      as (low & high & Hac & -> & ->);
    (split; [reflexivity|]); (split; [reflexivity|]);
    exists low, high; (split; [exact Hac|]);
    (split; [reflexivity|]); (split; [reflexivity|]);
    intros ops s' calls Hdone;
    apply (exec_tag _ _ ops _ s' calls) with (3 := Hdone); cbn.
  - intros E. split; [intros sk; discriminate|reflexivity].
  - intros E k. split; [intros Hv; destruct (Hdraws k); lra|reflexivity].
  - intros E. split; [intros sk; discriminate|now symmetry].
  - intros E k. split; [reflexivity|intros Hv; destruct (Hdraws k); lra].
Qed.

Lemma station_packets_carry_one_tid_witness :
  exists cfg s0,
    stationClient sampleAcList sampleAcUndef 9000
      (fun _ => (1 / 2)%R) (fun _ => (1 / 2)%R) (fun _ => 0) sampleLog
      1500 5 0 0 (1 / 2) (1 / 2) 7 = Some (cfg, s0) /\
    (forall k : nat, (0 <= 1 / 2 < 1)%R) /\
    m_optionalTid cfg = 3 /\ GetPriority s0 = 0 /\
    forall ops s' calls,
      exec cfg ops s0 = Done (s', calls) ->
      Forall (eq 3) (sendPriorities calls).
Proof.
  assert (Hd : forall k : nat, (0 <= 1 / 2 < 1)%R) by (intros; lra).
  assert (Hst : stationClient sampleAcList sampleAcUndef 9000
      (fun _ => (1 / 2)%R) (fun _ => (1 / 2)%R) (fun _ => 0) sampleLog
      1500 5 0 0 (1 / 2) (1 / 2) 7
      = Some (mkConfig 0 9000 (1 / 2) 1500 3 1
                (fun _ => (1 / 2)%R) (fun _ => (1 / 2)%R) (fun _ => 0)
                sampleLog,
              SetRemote (fst (SetPriority 0 (construct 0))))).
  { unfold stationClient, GetBernoulliClient, checkDouble. cbn.
    destruct (Rle_dec 0 (1 / 2)); [|lra].
    destruct (Rle_dec (1 / 2) 1); [|lra].
    destruct (Rle_dec 0 1); [|lra].
    destruct (Rle_dec 1 1); [|lra]. reflexivity. }
  eexists. eexists. split; [exact Hst|]. split; [exact Hd|].
  destruct (station_packets_carry_one_tid _ _ _ _ _ _ _ _ _ _ _ _ _ _ _ _ Hst Hd)
    as (_ & _ & low & high & Hac & Hlow & Hhigh & Hall).
  cbn in Hac. injection Hac as <- <-.
  split; [reflexivity|]. split; [reflexivity|]. exact Hall.
Defined.

End BernoulliClientLifeFacts.
